(** * Blinky fisheye addon: the lens and globe core of NQ/lens.c

    A shallow embedding of the globe, the lens, the scripted-map shims and
    the resumable lens-map builders of [NQ/lens.c], with the properties the
    specification states about them.

    Numbers: the C code computes in [double] (and [float] for [vec3_t]);
    the embedding computes in exact real arithmetic ([R]).  C [int]s are
    integers ([Z]); the coordinates and counters of this file stay far from
    the 32-bit limits, so no wrap-around is written out. *)

From Stdlib Require Import Reals Lra Lia ZArith List String Bool.
From Stdlib Require Import Reals.Zfloor.
Import ListNotations.

Open Scope string_scope.
Open Scope list_scope.
Open Scope R_scope.

(* ------------------------------------------------------------------ *)
(** ** C conversions and <math.h> *)

(** Comparison of doubles used as a C condition. *)
Definition Rltb (x y : R) : bool := if Rlt_dec x y then true else false.
Definition Rleb (x y : R) : bool := if Rle_dec x y then true else false.

(** [(int)x] for a double [x]: truncation toward zero. *)
Definition double_to_int (x : R) : Z :=
  if Rle_dec 0 x then Zfloor x else Zceil x.

(** [fmod(x, y)]: the remainder of [x / y] with the quotient truncated. *)
Definition fmod (x y : R) : R := x - IZR (double_to_int (x / y)) * y.

(** [atan2(y, x)]: the angle of the point [(x, y)], in (-PI, PI]. *)
Definition atan2 (y x : R) : R :=
  if Rlt_dec 0 x then atan (y / x)
  else if Rlt_dec x 0 then
    (if Rle_dec 0 y then atan (y / x) + PI else atan (y / x) - PI)
  else if Rlt_dec 0 y then PI / 2
  else if Rlt_dec y 0 then - (PI / 2)
  else 0.

(** [M_PI]. *)
Definition M_PI : R := PI.

(* ------------------------------------------------------------------ *)
(** ** mathlib: vectors *)

(** [vec3_t]: an array of three components, [v[0]], [v[1]], [v[2]]. *)
Record vec3_t : Type := Vec3 { c0 : R; c1 : R; c2 : R }.

(** Modelled from the spec: the engine's [DotProduct] (mathlib.h is not
    among the sources); "x = right·ray". *)
Definition DotProduct (a b : vec3_t) : R :=
  c0 a * c0 b + c1 a * c1 b + c2 a * c2 b.

(** Modelled from the spec: the engine's [CrossProduct]; "right = up × forward". *)
Definition CrossProduct (v1 v2 : vec3_t) : vec3_t :=
  Vec3 (c1 v1 * c2 v2 - c2 v1 * c1 v2)
       (c2 v1 * c0 v2 - c0 v1 * c2 v2)
       (c0 v1 * c1 v2 - c1 v1 * c0 v2).

(** Modelled from the spec: the engine's [VectorMA(a, s, b, out)],
    [out = a + s*b]; "dist·forward + (u−0.5)·right + (0.5−v)·up". *)
Definition VectorMA (veca : vec3_t) (scale : R) (vecb : vec3_t) : vec3_t :=
  Vec3 (c0 veca + scale * c0 vecb)
       (c1 veca + scale * c1 vecb)
       (c2 veca + scale * c2 vecb).

Definition VectorLength (v : vec3_t) : R := sqrt (DotProduct v v).

(** Modelled from the spec: the engine's [VectorNormalize]; "and
    normalize".  A vector of length zero is left as it is. *)
Definition VectorNormalize (v : vec3_t) : vec3_t :=
  let length := VectorLength v in
  if Req_dec_T length 0 then v
  else let ilength := 1 / length in
       Vec3 (c0 v * ilength) (c1 v * ilength) (c2 v * ilength).

(* ------------------------------------------------------------------ *)
(** ** Conversion helpers (lens.c, 526-538) *)

Definition latlon_to_ray (lat lon : R) : vec3_t :=
  let clat := cos lat in
  Vec3 (sin lon * clat) (sin lat) (cos lon * clat).

(** Returns [(lat, lon)] (the two out-parameters). *)
Definition ray_to_latlon (ray : vec3_t) : R * R :=
  let lon := atan2 (c0 ray) (c2 ray) in
  let lat := atan2 (c1 ray) (sqrt (c0 ray * c0 ray + c2 ray * c2 ray)) in
  (lat, lon).

(* ------------------------------------------------------------------ *)
(** ** Arrays *)

(** [a[i]] and [a[i] = v] for a C array held as a list.  An index outside
    the array is undefined behaviour in C; here a read gives [d] and a
    write changes nothing. *)
Definition zget {A : Type} (l : list A) (i : Z) (d : A) : A :=
  if (i <? 0)%Z then d else nth (Z.to_nat i) l d.

Fixpoint list_set {A : Type} (l : list A) (n : nat) (v : A) : list A :=
  match l, n with
  | [], _ => []
  | _ :: t, O => v :: t
  | h :: t, S n' => h :: list_set t n' v
  end.

Definition zset {A : Type} (l : list A) (i : Z) (v : A) : list A :=
  if (i <? 0)%Z then l else list_set l (Z.to_nat i) v.

(* ------------------------------------------------------------------ *)
(** ** Lua values and the Lua state *)

#[local] Set Warnings "-register-all".

(** A Lua value.  A function is the map from its (numeric) arguments to
    the values it returns: the scripted maps are taken to be pure.  A
    table is the sequence it holds at the keys 1, 2, ... *)
Inductive lua_value : Type :=
| LNil
| LBoolean (b : bool)
| LNumber (n : R)
| LString (s : string)
| LFunction (f : list R -> list lua_value)
| LTable (arr : list lua_value).

Definition lua_globals : Type := string -> lua_value.

(** [lua_State]: the globals, the registry ([luaL_ref] hands out the
    positions 1, 2, ...) and the value stack, top first. *)
Record lua_State : Type := mkLua {
  globals : lua_globals;
  registry : list lua_value;
  stack : list lua_value }.

Definition lua_setglobal (g : lua_globals) (name : string) (v : lua_value)
  : lua_globals :=
  fun k => if String.eqb k name then v else g k.

(** A script file once loaded: running the chunk ([lua_pcall]) on the
    current globals gives [true] and the globals it leaves, or [false]
    on a runtime error. *)
Definition lua_chunk : Type := lua_globals -> bool * lua_globals.

(** The file behind a path: [None] when [luaL_loadfile] fails. *)
Definition lua_file : Type := option lua_chunk.

Definition lua_isnil (v : lua_value) : bool :=
  match v with LNil => true | _ => false end.
Definition lua_isfunction (v : lua_value) : bool :=
  match v with LFunction _ => true | _ => false end.
Definition lua_istable (v : lua_value) : bool :=
  match v with LTable _ => true | _ => false end.
Definition lua_isstring (v : lua_value) : bool :=
  match v with LString _ | LNumber _ => true | _ => false end.

Definition lua_rawlen (v : lua_value) : Z :=
  match v with
  | LTable arr => Z.of_nat (List.length arr)
  | LString s => Z.of_nat (String.length s)
  | _ => 0%Z
  end.

(** [lua_rawgeti(L, t, n)], keys counted from 1.  The C API leaves the
    call on a value that is no table undefined; it reads nil here. *)
Definition lua_rawgeti (t : lua_value) (n : Z) : lua_value :=
  match t with
  | LTable arr => zget arr (n - 1) LNil
  | _ => LNil
  end.

(** [luaL_ref]: stores [v] in the registry and returns its reference. *)
Definition luaL_ref (L : lua_State) (v : lua_value) : Z * lua_State :=
  ((Z.of_nat (List.length (registry L)) + 1)%Z,
   mkLua (globals L) (registry L ++ [v]) (stack L)).

(** [lua_rawgeti(L, LUA_REGISTRYINDEX, ref)], the arguments pushed as
    numbers, [lua_call(L, n, LUA_MULTRET)]: the values returned.  On a
    reference that holds no function, and on an error in the script,
    [lua_call] raises a Lua error in the source; here the call gives no
    value. *)
Definition lua_call_ref (L : lua_State) (ref : Z) (args : list R)
  : list lua_value :=
  match zget (registry L) (ref - 1) LNil with
  | LFunction f => f args
  | _ => []
  end.

(* ------------------------------------------------------------------ *)
(** ** The global state of lens.c *)

Inductive map_type_t : Type := MAP_NONE | MAP_INVERSE | MAP_FORWARD.

(** What [framesize] points to. *)
Inductive framesize_t : Type := FS_NULL | FS_width_px | FS_height_px.

(** One of the two scanline buffers [create_lensmap_forward] allocates. *)
Inductive row_ptr : Type := RowA | RowB.

(** [globe.plates[i]] (the tint palette is left out). *)
Record plate_t : Type := mkPlate {
  forward : vec3_t;
  right : vec3_t;
  up : vec3_t;
  fov : R;
  dist : R;
  display : Z }.

Definition MAX_PLATES : Z := 6.

Record globe_t : Type := mkGlobe {
  plates : list plate_t;
  numplates : Z;
  platesize : Z }.

(** [lens.pixels[k]] is [None] for a null pointer and [Some off] for
    [globe.pixels + off]. *)
Record lens_t : Type := mkLens {
  map_type : map_type_t;
  width : R;
  height : R;
  scale : R;
  width_px : Z;
  height_px : Z;
  pixels : list (option Z);
  pixel_tints : list Z }.

Record rubix_t : Type := mkRubix {
  numcells : Z;
  cell_size : R;
  pad_size : R }.

Record lua_refs_t : Type := mkRefs {
  lens_forward : Z;
  lens_inverse : Z;
  globe_plate : Z }.

(** The file-level FOV variables; [g_fov] is the static [fov] (radians). *)
Record fov_t : Type := mkFov {
  g_fov : R;
  fit : Z;
  hfit : Z;
  vfit : Z;
  framesize : framesize_t;
  max_hfov : R;
  max_vfov : R }.

(** [lens_builder]: the cursors, and the two scanline buffers the
    forward state points into. *)
Record lens_builder_t : Type := mkBuilder {
  working : bool;
  inverse_state_ly : Z;
  forward_state_top : row_ptr;
  forward_state_bot : row_ptr;
  forward_state_plate_index : Z;
  forward_state_py : Z;
  rowa : list Z;
  rowb : list Z }.

Record world : Type := mkWorld {
  lua : lua_State;
  lua_refs : lua_refs_t;
  globe : globe_t;
  lens : lens_t;
  rubix : rubix_t;
  fovs : fov_t;
  lens_builder : lens_builder_t }.

(** Field updates. *)
Definition with_lua (w : world) (L : lua_State) : world :=
  mkWorld L (lua_refs w) (globe w) (lens w) (rubix w) (fovs w) (lens_builder w).
Definition with_lua_refs (w : world) (r : lua_refs_t) : world :=
  mkWorld (lua w) r (globe w) (lens w) (rubix w) (fovs w) (lens_builder w).
Definition with_globe (w : world) (g : globe_t) : world :=
  mkWorld (lua w) (lua_refs w) g (lens w) (rubix w) (fovs w) (lens_builder w).
Definition with_lens (w : world) (l : lens_t) : world :=
  mkWorld (lua w) (lua_refs w) (globe w) l (rubix w) (fovs w) (lens_builder w).
Definition with_fovs (w : world) (f : fov_t) : world :=
  mkWorld (lua w) (lua_refs w) (globe w) (lens w) (rubix w) f (lens_builder w).
Definition with_lens_builder (w : world) (b : lens_builder_t) : world :=
  mkWorld (lua w) (lua_refs w) (globe w) (lens w) (rubix w) (fovs w) b.

Definition with_globals (w : world) (g : lua_globals) : world :=
  with_lua w (mkLua g (registry (lua w)) (stack (lua w))).
Definition with_stack (w : world) (s : list lua_value) : world :=
  with_lua w (mkLua (globals (lua w)) (registry (lua w)) s).

Definition with_plates (w : world) (ps : list plate_t) : world :=
  with_globe w (mkGlobe ps (numplates (globe w)) (platesize (globe w))).
Definition with_numplates (w : world) (n : Z) : world :=
  with_globe w (mkGlobe (plates (globe w)) n (platesize (globe w))).

Definition with_map_type (w : world) (m : map_type_t) : world :=
  let l := lens w in
  with_lens w (mkLens m (width l) (height l) (scale l) (width_px l)
                 (height_px l) (pixels l) (pixel_tints l)).
Definition with_lens_size (w : world) (wd ht : R) : world :=
  let l := lens w in
  with_lens w (mkLens (map_type l) wd ht (scale l) (width_px l)
                 (height_px l) (pixels l) (pixel_tints l)).
Definition with_scale (w : world) (s : R) : world :=
  let l := lens w in
  with_lens w (mkLens (map_type l) (width l) (height l) s (width_px l)
                 (height_px l) (pixels l) (pixel_tints l)).
Definition with_pixels (w : world) (p : list (option Z)) : world :=
  let l := lens w in
  with_lens w (mkLens (map_type l) (width l) (height l) (scale l) (width_px l)
                 (height_px l) p (pixel_tints l)).
Definition with_pixel_tints (w : world) (t : list Z) : world :=
  let l := lens w in
  with_lens w (mkLens (map_type l) (width l) (height l) (scale l) (width_px l)
                 (height_px l) (pixels l) t).

Definition with_max_fov (w : world) (h v : R) : world :=
  let f := fovs w in
  with_fovs w (mkFov (g_fov f) (fit f) (hfit f) (vfit f) (framesize f) h v).

Definition with_inverse_ly (w : world) (ly : Z) : world :=
  let s := lens_builder w in
  with_lens_builder w
    (mkBuilder (working s) ly (forward_state_top s) (forward_state_bot s)
       (forward_state_plate_index s) (forward_state_py s) (rowa s) (rowb s)).
Definition with_forward_cursor (w : world) (plate_index py : Z) : world :=
  let s := lens_builder w in
  with_lens_builder w
    (mkBuilder (working s) (inverse_state_ly s) (forward_state_top s)
       (forward_state_bot s) plate_index py (rowa s) (rowb s)).

(** The scanline buffer behind a pointer, and a store through it. *)
Definition row_of (w : world) (p : row_ptr) : list Z :=
  match p with RowA => rowa (lens_builder w) | RowB => rowb (lens_builder w) end.
Definition with_row (w : world) (p : row_ptr) (r : list Z) : world :=
  let s := lens_builder w in
  with_lens_builder w
    (match p with
     | RowA => mkBuilder (working s) (inverse_state_ly s) (forward_state_top s)
                 (forward_state_bot s) (forward_state_plate_index s)
                 (forward_state_py s) r (rowb s)
     | RowB => mkBuilder (working s) (inverse_state_ly s) (forward_state_top s)
                 (forward_state_bot s) (forward_state_plate_index s)
                 (forward_state_py s) (rowa s) r
     end).

(** [*framesize]; the null pointer is never dereferenced by a command
    sequence that selects an explicit FOV, it reads 0 here. *)
Definition deref_framesize (w : world) : Z :=
  match framesize (fovs w) with
  | FS_NULL => 0%Z
  | FS_width_px => width_px (lens w)
  | FS_height_px => height_px (lens w)
  end.

Definition default_plate : plate_t :=
  mkPlate (Vec3 0 0 0) (Vec3 0 0 0) (Vec3 0 0 0) 0 0 0.

(* ------------------------------------------------------------------ *)
(** ** The script host and the lens code, over Lua's number coercions *)

Section Lens.

(** Three conversions of the Lua library: the number a string reads as
    (Lua accepts such a string wherever a number is expected), the text of
    a number, and the [lua_Integer] of a number. *)
Variable lua_str2number : string -> option R.
Variable lua_number2str : R -> string.
Variable lua_number2integer : R -> Z.

Definition lua_isnumber (v : lua_value) : bool :=
  match v with
  | LNumber _ => true
  | LString s => match lua_str2number s with Some _ => true | None => false end
  | _ => false
  end.

Definition lua_tonumber (v : lua_value) : R :=
  match v with
  | LNumber n => n
  | LString s => match lua_str2number s with Some n => n | None => 0 end
  | _ => 0
  end.

Definition lua_tointeger (v : lua_value) : Z :=
  match v with
  | LNumber n => lua_number2integer n
  | LString s =>
      match lua_str2number s with
      | Some n => lua_number2integer n
      | None => 0%Z
      end
  | _ => 0%Z
  end.

(** [lua_tostring]; [None] is the null pointer. *)
Definition lua_tostring (v : lua_value) : option string :=
  match v with
  | LString s => Some s
  | LNumber n => Some (lua_number2str n)
  | _ => None
  end.

(* -------------------------------------------------------------- *)
(** *** Scripted-map shims (lens.c, 991-1097) *)

(** Returns the status and the out-parameter [ray] ([ray] as it was when
    nothing is stored). *)
Definition lua_lens_inverse (w : world) (x y : R) (ray : vec3_t)
  : Z * vec3_t :=
  let rets := lua_call_ref (lua w) (lens_inverse (lua_refs w)) [x; y] in
  match rets with
  | [a; b; c] =>
      if lua_isnumber a && lua_isnumber b && lua_isnumber c
      then (1%Z, VectorNormalize
                   (Vec3 (lua_tonumber a) (lua_tonumber b) (lua_tonumber c)))
      else ((-1)%Z, ray)
  | [a] => if lua_isnil a then (0%Z, ray) else ((-1)%Z, ray)
  | _ => ((-1)%Z, ray)
  end.

(** Returns the status and the out-parameters [x], [y]. *)
Definition lua_lens_forward (w : world) (ray : vec3_t) (x y : R)
  : Z * R * R :=
  let rets :=
    lua_call_ref (lua w) (lens_forward (lua_refs w)) [c0 ray; c1 ray; c2 ray] in
  match rets with
  | [a; b] =>
      if lua_isnumber a && lua_isnumber b
      then (1%Z, lua_tonumber a, lua_tonumber b)
      else ((-1)%Z, x, y)
  | [a] => if lua_isnil a then (0%Z, x, y) else ((-1)%Z, x, y)
  | _ => ((-1)%Z, x, y)
  end.

(** Returns the result, the out-parameter [plate] and the state: the
    values returned are pushed, the top of the stack is tested and one
    value is popped. *)
Definition lua_globe_plate (w : world) (ray : vec3_t) (plate : Z)
  : Z * Z * world :=
  let rets :=
    lua_call_ref (lua w) (globe_plate (lua_refs w)) [c0 ray; c1 ray; c2 ray] in
  let st := rev rets ++ stack (lua w) in
  let top := hd LNil st in
  if negb (lua_isnumber top) then (0%Z, plate, with_stack w (tl st))
  else (1%Z, lua_tointeger top, with_stack w (tl st)).

(* -------------------------------------------------------------- *)
(** *** Loading a globe (lens.c, 1119-1261) *)

Definition lua_globe_clear (w : world) : world :=
  let g := lua_setglobal (globals (lua w)) "plates" LNil in
  let g := lua_setglobal g "globe_plate" LNil in
  with_numplates (with_globals w g) 0.

Definition with_globe_plate_ref (w : world) (r : Z) : world :=
  with_lua_refs w (mkRefs (lens_forward (lua_refs w)) (lens_inverse (lua_refs w)) r).

(** The three elements of a vector table stored into [v] one by one;
    [false] at the first that is no number. *)
Definition read_vec3 (t : lua_value) (v : vec3_t) : bool * vec3_t :=
  let e := lua_rawgeti t 1 in
  if negb (lua_isnumber e) then (false, v) else
  let v := Vec3 (lua_tonumber e) (c1 v) (c2 v) in
  let e := lua_rawgeti t 2 in
  if negb (lua_isnumber e) then (false, v) else
  let v := Vec3 (c0 v) (lua_tonumber e) (c2 v) in
  let e := lua_rawgeti t 3 in
  if negb (lua_isnumber e) then (false, v) else
  (true, Vec3 (c0 v) (c1 v) (lua_tonumber e)).

Definition set_forward (p : plate_t) (v : vec3_t) : plate_t :=
  mkPlate v (right p) (up p) (fov p) (dist p) (display p).
Definition set_right (p : plate_t) (v : vec3_t) : plate_t :=
  mkPlate (forward p) v (up p) (fov p) (dist p) (display p).
Definition set_up (p : plate_t) (v : vec3_t) : plate_t :=
  mkPlate (forward p) (right p) v (fov p) (dist p) (display p).
Definition set_fov (p : plate_t) (x : R) : plate_t :=
  mkPlate (forward p) (right p) (up p) x (dist p) (display p).
Definition set_dist (p : plate_t) (x : R) : plate_t :=
  mkPlate (forward p) (right p) (up p) (fov p) x (display p).
Definition set_display (p : plate_t) (d : Z) : plate_t :=
  mkPlate (forward p) (right p) (up p) (fov p) (dist p) d.

(** The fate of one iteration of the plates loop. *)
Inductive plate_result : Type :=
| PlateOk          (* the plate is complete *)
| PlateBad         (* a vector is malformed: the stack is popped clean *)
| PlateBadFov.     (* fov <= 0: returns with the stack as it stands *)

(** The body of the plates loop on the element [elem], writing
    [globe.plates[i]], whose current content is [p]. *)
Definition load_plate (elem : lua_value) (p : plate_t) : plate_result * plate_t :=
  let fwd := lua_rawgeti elem 1 in
  if negb (lua_istable fwd) || negb (lua_rawlen fwd =? 3)%Z then (PlateBad, p) else
  let '(ok, v) := read_vec3 fwd (forward p) in
  let p := set_forward p v in
  if negb ok then (PlateBad, p) else
  let upv := lua_rawgeti elem 2 in
  if negb (lua_istable upv) || negb (lua_rawlen upv =? 3)%Z then (PlateBad, p) else
  let '(ok, v) := read_vec3 upv (up p) in
  let p := set_up p v in
  if negb ok then (PlateBad, p) else
  let p := set_right p (CrossProduct (up p) (forward p)) in
  let p := set_up p (CrossProduct (forward p) (right p)) in
  (* a fov that is no number is only logged *)
  let p := set_fov p (lua_tonumber (lua_rawgeti elem 3) * M_PI / 180) in
  if Rleb (fov p) 0 then (PlateBadFov, p) else
  (PlateOk, set_dist p (0.5 / tan (fov p / 2))).

(** The plates loop from index [i] over the remaining elements, in the
    order [lua_next] yields them (for a proper sequence, its order;
    [lua_next] passes over a nil, which is walked like an entry here): the
    result ([Some n]: all read, [n] the final index), the array and the
    values left on the stack by an early return.  [globe.plates[i]] is
    written without a bound check (see [zset] for [i] at or past
    [MAX_PLATES]). *)
Fixpoint load_plates (tbl : lua_value) (elems : list lua_value) (i : Z)
  (ps : list plate_t) : option Z * list plate_t * list lua_value :=
  match elems with
  | [] => (Some i, ps, [])
  | elem :: rest =>
      let '(r, p) := load_plate elem (zget ps i default_plate) in
      let ps := zset ps i p in
      match r with
      | PlateOk => load_plates tbl rest (i + 1)%Z ps
      | PlateBad => (None, ps, [])
      | PlateBadFov => (None, ps, [elem; LNumber (IZR (i + 1)); tbl])
      end
  end.

(** [file] is what stands at "<gamedir>/../globes/<globe.name>.lua". *)
Definition lua_globe_load (file : lua_file) (w : world) : Z * world :=
  let w := lua_globe_clear w in
  match file with
  | None => (0%Z, w)
  | Some run =>
      let '(ok, g) := run (globals (lua w)) in
      let w := with_globals w g in
      if negb ok then (0%Z, w) else
      let w := with_globe_plate_ref w (-1) in
      let w :=
        if lua_isfunction (g "globe_plate") then
          let '(r, L) := luaL_ref (lua w) (g "globe_plate") in
          with_globe_plate_ref (with_lua w L) r
        else w in
      let tbl := g "plates" in
      if negb (lua_istable tbl) || (lua_rawlen tbl <? 1)%Z then (0%Z, w) else
      let elems := match tbl with LTable arr => arr | _ => [] end in
      let '(r, ps, kept) := load_plates tbl elems 0 (plates (globe w)) in
      let w := with_stack (with_plates w ps) (kept ++ stack (lua w)) in
      match r with
      | None => (0%Z, w)
      | Some i => (1%Z, with_numplates w i)
      end
  end.

(* -------------------------------------------------------------- *)
(** *** Loading a lens (lens.c, 1102-1117, 1263-1357) *)

Definition lua_lens_clear (w : world) : world :=
  let g := globals (lua w) in
  let g := lua_setglobal g "map" LNil in
  let g := lua_setglobal g "max_hfov" LNil in
  let g := lua_setglobal g "max_vfov" LNil in
  let g := lua_setglobal g "lens_width" LNil in
  let g := lua_setglobal g "lens_height" LNil in
  let g := lua_setglobal g "lens_inverse" LNil in
  let g := lua_setglobal g "lens_forward" LNil in
  let g := lua_setglobal g "onload" LNil in
  let g := lua_setglobal g "numplates" (LNumber (IZR (numplates (globe w)))) in
  with_globals w g.

Definition with_lens_inverse_ref (w : world) (r : Z) : world :=
  with_lua_refs w (mkRefs (lens_forward (lua_refs w)) r (globe_plate (lua_refs w))).
Definition with_lens_forward_ref (w : world) (r : Z) : world :=
  with_lua_refs w (mkRefs r (lens_inverse (lua_refs w)) (globe_plate (lua_refs w))).

Definition number_or_0 (v : lua_value) : R :=
  if lua_isnumber v then lua_tonumber v else 0.

(** The tail of [lua_lens_load]: the limits and the extents. *)
Definition lua_lens_load_numbers (g : lua_globals) (w : world) : world :=
  let w := with_max_fov w (number_or_0 (g "max_hfov") * (M_PI / 180))
                          (number_or_0 (g "max_vfov") * (M_PI / 180)) in
  with_lens_size w (number_or_0 (g "lens_width")) (number_or_0 (g "lens_height")).

(** [file] is what stands at "<gamedir>/../lenses/<lens.name>.lua". *)
Definition lua_lens_load (file : lua_file) (w : world) : Z * world :=
  let w := lua_lens_clear w in
  match file with
  | None => (0%Z, w)
  | Some run =>
      let '(ok, g) := run (globals (lua w)) in
      let w := with_globals w g in
      if negb ok then (0%Z, w) else
      (* clear current maps *)
      let w := with_map_type w MAP_NONE in
      let w := with_lens_inverse_ref (with_lens_forward_ref w (-1)) (-1) in
      (* the inverse map function *)
      let w :=
        if negb (lua_isfunction (g "lens_inverse")) then w
        else
          let '(r, L) := luaL_ref (lua w) (g "lens_inverse") in
          with_map_type (with_lens_inverse_ref (with_lua w L) r) MAP_INVERSE in
      (* the forward map function *)
      let w :=
        if negb (lua_isfunction (g "lens_forward")) then w
        else
          let '(r, L) := luaL_ref (lua w) (g "lens_forward") in
          let w := with_lens_forward_ref (with_lua w L) r in
          match map_type (lens w) with
          | MAP_NONE => with_map_type w MAP_FORWARD
          | _ => w
          end in
      (* the map function preference *)
      match (if lua_isstring (g "map") then lua_tostring (g "map") else None) with
      | Some funcname =>
          if String.eqb funcname "lens_inverse"
          then (1%Z, lua_lens_load_numbers g (with_map_type w MAP_INVERSE))
          else if String.eqb funcname "lens_forward"
          then (1%Z, lua_lens_load_numbers g (with_map_type w MAP_FORWARD))
          else (0%Z, w)
      | None => (1%Z, lua_lens_load_numbers g w)
      end
  end.

(* -------------------------------------------------------------- *)
(** *** The lens scale (lens.c, 1363-1468) *)

(** [x0], [y0]: what the locals [x], [y] hold before the call of
    [lua_lens_forward] (they are not initialised). *)
Definition determine_lens_scale (x0 y0 : R) (w : world) : Z * world :=
  let w := with_scale w (-1) in
  let f := fovs w in
  let l := lens w in
  let validate (w : world) : Z * world :=
    if Rleb (scale (lens w)) 0 then (0%Z, w) else (1%Z, w) in
  if ((fit f =? 0) && (hfit f =? 0) && (vfit f =? 0))%Z then
    (* scale based on FOV *)
    if Rleb (max_hfov f) 0 || Rleb (max_vfov f) 0 then (0%Z, w)
    else if (width_px l =? deref_framesize w)%Z && Rltb (max_hfov f) (g_fov f)
    then (0%Z, w)
    else if (height_px l =? deref_framesize w)%Z && Rltb (max_vfov f) (g_fov f)
    then (0%Z, w)
    else if negb (lens_forward (lua_refs w) =? -1)%Z then
      if (deref_framesize w =? width_px l)%Z then
        let ray := latlon_to_ray 0 (g_fov f * 0.5) in
        let '(status, x, y) := lua_lens_forward w ray x0 y0 in
        if negb (status =? 0)%Z
        then validate (with_scale w (x / (IZR (deref_framesize w) * 0.5)))
        else (0%Z, w)
      else if (deref_framesize w =? height_px l)%Z then
        let ray := latlon_to_ray (g_fov f * 0.5) 0 in
        let '(status, x, y) := lua_lens_forward w ray x0 y0 in
        if negb (status =? 0)%Z
        then validate (with_scale w (y / (IZR (deref_framesize w) * 0.5)))
        else (0%Z, w)
      else (0%Z, w)
    else (0%Z, w)
  else
    (* scale based on fitting *)
    if negb (hfit f =? 0)%Z then
      if Rleb (width l) 0 then (0%Z, w)
      else validate (with_scale w (width l / IZR (width_px l)))
    else if negb (vfit f =? 0)%Z then
      if Rleb (height l) 0 then (0%Z, w)
      else validate (with_scale w (height l / IZR (height_px l)))
    else if negb (fit f =? 0)%Z then
      if Rleb (width l) 0 && Rltb 0 (height l)
      then validate (with_scale w (height l / IZR (height_px l)))
      else if Rleb (height l) 0 && Rltb 0 (width l)
      then validate (with_scale w (width l / IZR (width_px l)))
      else if Rleb (height l) 0 && Rleb (width l) 0 then (0%Z, w)
      else if Rltb (IZR (width_px l) / IZR (height_px l)) (width l / height l)
      then validate (with_scale w (width l / IZR (width_px l)))
      else validate (with_scale w (height l / IZR (height_px l)))
    else validate w.

(* -------------------------------------------------------------- *)
(** *** Writing the lens map (lens.c, 1474-1544) *)

(** [LENSPIXEL(x,y)] and [LENSPIXELTINT(x,y)]: the index of the cell. *)
Definition LENSPIXEL (w : world) (x y : Z) : Z :=
  (x + y * width_px (lens w))%Z.

(** [GLOBEPIXEL(plate,x,y)]: the offset of the texel in [globe.pixels]. *)
Definition GLOBEPIXEL (w : world) (plate x y : Z) : Z :=
  (plate * platesize (globe w) * platesize (globe w)
   + x + y * platesize (globe w))%Z.

Definition set_lensmap_grid (w : world) (lx ly px py plate_index : Z) : world :=
  let block_size := pad_size (rubix w) + cell_size (rubix w) in
  let num_units := IZR (numcells (rubix w)) * block_size + pad_size (rubix w) in
  let unit_size_px := IZR (platesize (globe w)) / num_units in
  let ux := IZR px / unit_size_px in
  let uy := IZR py / unit_size_px in
  let ongrid :=
    Rltb (fmod ux block_size) (pad_size (rubix w))
    || Rltb (fmod uy block_size) (pad_size (rubix w)) in
  if negb ongrid
  then with_pixel_tints w
         (zset (pixel_tints (lens w)) (LENSPIXEL w lx ly) (plate_index mod 256)%Z)
  else w.

Definition set_plate_display (w : world) (plate_index d : Z) : world :=
  with_plates w
    (zset (plates (globe w)) plate_index
       (set_display (zget (plates (globe w)) plate_index default_plate) d)).

Definition set_lensmap_from_plate (w : world) (lx ly px py plate_index : Z)
  : world :=
  (* check valid lens coordinates *)
  if ((lx <? 0) || (lx >=? width_px (lens w))
      || (ly <? 0) || (ly >=? height_px (lens w)))%Z then w
  (* check valid plate coordinates *)
  else if ((px <? 0) || (px >=? platesize (globe w))
           || (py <? 0) || (py >=? platesize (globe w)))%Z then w
  else
    let w := set_plate_display w plate_index 1 in
    let w := with_pixels w
               (zset (pixels (lens w)) (LENSPIXEL w lx ly)
                  (Some (GLOBEPIXEL w plate_index px py))) in
    set_lensmap_grid w lx ly px py plate_index.

Definition set_lensmap_from_plate_uv (w : world) (lx ly : Z) (u v : R)
  (plate_index : Z) : world :=
  let px := double_to_int (u * IZR (platesize (globe w))) in
  let py := double_to_int (v * IZR (platesize (globe w))) in
  set_lensmap_from_plate w lx ly px py plate_index.

(* -------------------------------------------------------------- *)
(** *** Rays and plates (lens.c, 1546-1629) *)

(** The loop of [ray_to_plate_index] from index [i], [n] plates to go. *)
Fixpoint max_dotproduct (ps : list plate_t) (ray : vec3_t) (i : Z) (n : nat)
  (max_dp : R) (plate_index : Z) : Z :=
  match n with
  | O => plate_index
  | S n' =>
      let dp := DotProduct ray (forward (zget ps i default_plate)) in
      if Rltb max_dp dp
      then max_dotproduct ps ray (i + 1)%Z n' dp i
      else max_dotproduct ps ray (i + 1)%Z n' max_dp plate_index
  end.

Definition ray_to_plate_index (w : world) (ray : vec3_t) : Z * world :=
  let plate_index := 0%Z in
  if negb (globe_plate (lua_refs w) =? -1)%Z then
    let '(ok, plate_index, w) := lua_globe_plate w ray plate_index in
    if negb (ok =? 0)%Z then (plate_index, w) else ((-1)%Z, w)
  else
    (max_dotproduct (plates (globe w)) ray 0 (Z.to_nat (numplates (globe w)))
       (-2) plate_index, w).

Definition plate_uv_to_ray (w : world) (plate_index : Z) (u v : R) : vec3_t :=
  let p := zget (plates (globe w)) plate_index default_plate in
  let u := u - 0.5 in
  let v := v - 0.5 in
  let v := - v in
  let ray := Vec3 0 0 0 in
  let ray := VectorMA ray (dist p) (forward p) in
  let ray := VectorMA ray u (right p) in
  let ray := VectorMA ray v (up p) in
  VectorNormalize ray.

(** Returns the result and the out-parameters [u], [v].  For a ray
    along the plate ([z] = 0) the source divides by zero, to an infinity
    or NaN; here [x / 0] is 0. *)
Definition ray_to_plate_uv (w : world) (plate_index : Z) (ray : vec3_t)
  : bool * R * R :=
  let p := zget (plates (globe w)) plate_index default_plate in
  let x := DotProduct (right p) ray in
  let y := DotProduct (up p) ray in
  let z := DotProduct (forward p) ray in
  let dist := 0.5 / tan (fov p / 2) in
  let u := x / z * dist + 0.5 in
  let v := - y / z * dist + 0.5 in
  (Rleb 0 u && Rleb u 1 && Rleb 0 v && Rleb v 1, u, v).

Definition set_lensmap_from_ray (w : world) (lx ly : Z) (sx sy sz : R) : world :=
  let ray := Vec3 sx sy sz in
  let '(plate_index, w) := ray_to_plate_index w ray in
  if (plate_index <? 0)%Z then w
  else
    let '(inside, u, v) := ray_to_plate_uv w plate_index ray in
    if negb inside then w
    else set_lensmap_from_plate_uv w lx ly u v plate_index.

(* -------------------------------------------------------------- *)
(** *** The inverse builder (lens.c, 1631-1671)

    The clock: [budget] is the number of times [is_lens_builder_time_up]
    answers no in this call, before it answers yes. *)

(** The loop over [lx] of one row, [n] pixels to go: [false] when a
    status of -1 ended the build. *)
Fixpoint inverse_row (w : world) (ly : Z) (y : R) (lx : Z) (n : nat)
  : bool * world :=
  match n with
  | O => (true, w)
  | S n' =>
      let x := IZR (lx - Z.quot (width_px (lens w)) 2) * scale (lens w) in
      let '(status, ray) := lua_lens_inverse w x y (Vec3 0 0 0) in
      if (status =? 0)%Z then inverse_row w ly y (lx + 1)%Z n'
      else if (status =? -1)%Z then (false, w)
      else inverse_row (set_lensmap_from_ray w lx ly (c0 ray) (c1 ray) (c2 ray))
             ly y (lx + 1)%Z n'
  end.

(** The loop over the rows, [n] rows to go: the value returned (is the
    builder still working?) and the state. *)
Fixpoint inverse_rows (budget : nat) (w : world) (n : nat) : bool * world :=
  match n with
  | O => (false, w)
  | S n' =>
      match budget with
      | O => (true, w)
      | S budget' =>
          let ly := inverse_state_ly (lens_builder w) in
          let y := IZR (- (ly - Z.quot (height_px (lens w)) 2)) * scale (lens w) in
          let '(ok, w) := inverse_row w ly y 0 (Z.to_nat (width_px (lens w))) in
          if ok then inverse_rows budget' (with_inverse_ly w (ly - 1)) n'
          else (false, w)
      end
  end.

Definition resume_lensmap_inverse (budget : nat) (w : world) : bool * world :=
  inverse_rows budget w (Z.to_nat (inverse_state_ly (lens_builder w) + 1)).

(* -------------------------------------------------------------- *)
(** *** The forward builder (lens.c, 1673-1879) *)

(** The locals [x], [y] are read only after a status of 1 has set them. *)
Definition uv_to_screen (w : world) (plate_index : Z) (u v : R) (lx ly : Z)
  : Z * Z * Z :=
  let ray := plate_uv_to_ray w plate_index u v in
  let '(status, x, y) := lua_lens_forward w ray 0 0 in
  if ((status =? 0) || (status =? -1))%Z then (status, lx, ly)
  else (status,
        double_to_int (x / scale (lens w) + IZR (Z.quot (width_px (lens w)) 2)),
        double_to_int (- y / scale (lens w) + IZR (Z.quot (height_px (lens w)) 2))).

(** The point stored at [row[index]], [row[index+1]]. *)
Definition row_point (row : list Z) (index : Z) : Z * Z :=
  (zget row index 0%Z, zget row (index + 1) 0%Z).

(** [uv_to_screen(plate_index, u, v, &row[index], &row[index+1])]. *)
Definition uv_to_screen_at (w : world) (plate_index : Z) (u v : R)
  (p : row_ptr) (index : Z) : Z * world :=
  let row := row_of w p in
  let '(lx0, ly0) := row_point row index in
  let '(status, lx, ly) := uv_to_screen w plate_index u v lx0 ly0 in
  (status, with_row w p (zset (zset row index lx) (index + 1) ly)).

(** One of the loops that fill a scanline, at height [v], from [px],
    [n] texels to go: [false] when a status of -1 ended the build. *)
Fixpoint compute_points (w : world) (plate_index : Z) (v : R) (p : row_ptr)
  (px : Z) (n : nat) : bool * world :=
  match n with
  | O => (true, w)
  | S n' =>
      let platesize := platesize (globe w) in
      let right_point (w : world) : bool * world :=
        let u := (IZR px + 0.5) / IZR platesize in
        let index := (2 * (px + 1))%Z in
        let '(status, w) := uv_to_screen_at w plate_index u v p index in
        if (status =? 0)%Z then compute_points w plate_index v p (px + 1)%Z n'
        else if (status =? -1)%Z then (false, w)
        else compute_points w plate_index v p (px + 1)%Z n' in
      if (px =? 0)%Z then
        let u := (IZR px - 0.5) / IZR platesize in
        let '(status, w) := uv_to_screen_at w plate_index u v p 0 in
        if (status =? 0)%Z then compute_points w plate_index v p (px + 1)%Z n'
        else if (status =? -1)%Z then (false, w)
        else right_point w
      else right_point w
  end.

(** [for (t = from; t <= to; ++t) set_lensmap_from_plate(t, y, ...)],
    [n] pixels to go. *)
Fixpoint fill_hline (w : world) (x y : Z) (n : nat) (px py plate_index : Z)
  : world :=
  match n with
  | O => w
  | S n' =>
      fill_hline (set_lensmap_from_plate w x y px py plate_index)
        (x + 1)%Z y n' px py plate_index
  end.

Fixpoint fill_vline (w : world) (x y : Z) (n : nat) (px py plate_index : Z)
  : world :=
  match n with
  | O => w
  | S n' =>
      fill_vline (set_lensmap_from_plate w x y px py plate_index)
        x (y + 1)%Z n' px py plate_index
  end.

(** The number of turns of [for (t = lo; t <= hi; ++t)]. *)
Definition span (lo hi : Z) : nat := Z.to_nat (hi - lo + 1).

(** One step of the bounds loop of [drawQuad] on a coordinate. *)
Definition grow_bounds (lo hi t : Z) : Z * Z :=
  if (t <? lo)%Z then (t, hi)
  else if (hi <? t)%Z then (lo, t)
  else (lo, hi).

(** The edge loop of [drawQuad] at scanline [y]: the corners [p[i]] for
    [i] from the head of [idx], [p[j]] the corner before; [tx] and [txi]
    as they stand. *)
Fixpoint edge_crossings (y : Z) (p : list (Z * Z)) (idx : list Z) (j : Z)
  (tx : Z * Z) (txi : Z) : Z * Z :=
  match idx with
  | [] => tx
  | i :: rest =>
      let '(ix, iy) := zget p i (0, 0)%Z in
      let '(jx, jy) := zget p j (0, 0)%Z in
      if (((iy <? y) && (y <=? jy)) || ((jy <? y) && (y <=? iy)))%Z then
        let dy := IZR (jy - iy) in
        let dx := IZR (jx - ix) in
        let t := double_to_int (IZR ix + IZR (y - iy) / dy * dx) in
        let tx := if (txi =? 0)%Z then (t, snd tx) else (fst tx, t) in
        if (txi + 1 =? 2)%Z then tx
        else edge_crossings y p rest i tx (txi + 1)%Z
      else edge_crossings y p rest i tx txi
  end.

Definition maxdiff : Z := 20.

(** The scanline loop of the general quad from [y], [n] lines to go. *)
Fixpoint fill_quad (w : world) (p : list (Z * Z)) (minx maxx : Z) (y : Z)
  (n : nat) (px py plate_index : Z) : world :=
  match n with
  | O => w
  | S n' =>
      let tx := edge_crossings y p [0; 1; 2; 3]%Z 3 (minx, maxx) 0 in
      let tx := if (snd tx <? fst tx)%Z then (snd tx, fst tx) else tx in
      if (maxdiff <? snd tx - fst tx)%Z then w
      else
        let w := fill_hline w (fst tx) y (span (fst tx) (snd tx))
                   px py plate_index in
        fill_quad w p minx maxx (y + 1)%Z n' px py plate_index
  end.

(** The coordinates are integers without a bound: the arithmetic is
    that of the source as long as no difference of two of them
    overflows an [int]. *)
Definition drawQuad (w : world) (tl tr bl br : Z * Z)
  (plate_index px py : Z) : world :=
  let p := [tl; tr; br; bl] in
  let x := fst tl in
  let y := snd tl in
  let bounds :=
    fold_left
      (fun (b : (Z * Z) * (Z * Z)) (q : Z * Z) =>
         (grow_bounds (fst (fst b)) (snd (fst b)) (fst q),
          grow_bounds (fst (snd b)) (snd (snd b)) (snd q)))
      [tr; br; bl] ((x, x), (y, y)) in
  let minx := fst (fst bounds) in
  let maxx := snd (fst bounds) in
  let miny := fst (snd bounds) in
  let maxy := snd (snd bounds) in
  if ((maxdiff <? Z.abs (minx - maxx)) || (maxdiff <? Z.abs (miny - maxy)))%Z
  then w
  else if ((miny =? maxy) && (minx =? maxx))%Z
  then set_lensmap_from_plate w x y px py plate_index
  else if (miny =? maxy)%Z
  then fill_hline w minx miny (span minx maxx) px py plate_index
  else if (minx =? maxx)%Z
  then fill_vline w x miny (span miny maxy) px py plate_index
  else fill_quad w p minx maxx miny (span miny maxy) px py plate_index.

(** The loop that draws the quads of a texture row from [px]. *)
Fixpoint draw_row (w : world) (top bot : row_ptr) (plate_index py : Z)
  (px : Z) (n : nat) : world :=
  match n with
  | O => w
  | S n' =>
      let v := IZR py / IZR (platesize (globe w)) in
      let u := IZR px / IZR (platesize (globe w)) in
      let ray := plate_uv_to_ray w plate_index u v in
      let '(owner, w) := ray_to_plate_index w ray in
      if negb (plate_index =? owner)%Z
      then draw_row w top bot plate_index py (px + 1)%Z n'
      else
        let index := (2 * px)%Z in
        let w :=
          drawQuad w (row_point (row_of w top) index)
            (row_point (row_of w top) (index + 2))
            (row_point (row_of w bot) index)
            (row_point (row_of w bot) (index + 2))
            plate_index px py in
        draw_row w top bot plate_index py (px + 1)%Z n'
  end.

(** The body of the loop over [py], after the clock was read: [false]
    when a status of -1 ended the build; the locals [top] and [bot] as
    the body leaves them. *)
Definition forward_row (w : world) (top bot : row_ptr)
  : bool * world * row_ptr * row_ptr :=
  let plate_index := forward_state_plate_index (lens_builder w) in
  let py := forward_state_py (lens_builder w) in
  let platesize := platesize (globe w) in
  (* compute lower points, or swap the references *)
  let '(ok, w, top, bot) :=
    if (py =? platesize - 1)%Z then
      let v := (IZR py + 0.5) / IZR platesize in
      let '(ok, w) := compute_points w plate_index v bot 0 (Z.to_nat platesize) in
      (ok, w, top, bot)
    else (true, w, bot, top) in
  if negb ok then (false, w, top, bot) else
  (* compute upper points *)
  let v := (IZR py - 0.5) / IZR platesize in
  let '(ok, w) := compute_points w plate_index v top 0 (Z.to_nat platesize) in
  if negb ok then (false, w, top, bot) else
  (true, draw_row w top bot plate_index py 0 (Z.to_nat platesize), top, bot).

(** How a loop of the forward builder ends. *)
Inductive loop_end : Type :=
| LoopDone       (* the loop condition failed *)
| LoopPaused     (* the time was up: return true *)
| LoopAborted.   (* a status of -1: return false *)

(** The loop over [py], [n] rows to go. *)
Fixpoint forward_rows (budget : nat) (w : world) (top bot : row_ptr) (n : nat)
  : loop_end * nat * world * row_ptr * row_ptr :=
  match n with
  | O => (LoopDone, budget, w, top, bot)
  | S n' =>
      match budget with
      | O => (LoopPaused, budget, w, top, bot)
      | S budget' =>
          let '(ok, w, top, bot) := forward_row w top bot in
          if negb ok then (LoopAborted, budget', w, top, bot)
          else
            let s := lens_builder w in
            forward_rows budget'
              (with_forward_cursor w (forward_state_plate_index s)
                 (forward_state_py s - 1))
              top bot n'
      end
  end.

(** The loop over the plates, [m] plates to go. *)
Fixpoint forward_plates (budget : nat) (w : world) (top bot : row_ptr) (m : nat)
  : bool * world :=
  match m with
  | O => (false, w)
  | S m' =>
      let rows := Z.to_nat (forward_state_py (lens_builder w) + 1) in
      let '(e, budget, w, top, bot) := forward_rows budget w top bot rows in
      match e with
      | LoopPaused => (true, w)
      | LoopAborted => (false, w)
      | LoopDone =>
          (* reset row position *)
          let w := with_forward_cursor w
                     (forward_state_plate_index (lens_builder w) + 1)
                     (platesize (globe w) - 1) in
          forward_plates budget w top bot m'
      end
  end.

(** The locals [top] and [bot] start from the saved pointers on every
    call; the swaps of [forward_row] stay in the locals. *)
Definition resume_lensmap_forward (budget : nat) (w : world) : bool * world :=
  let top := forward_state_top (lens_builder w) in
  let bot := forward_state_bot (lens_builder w) in
  forward_plates budget w top bot
    (Z.to_nat (numplates (globe w)
               - forward_state_plate_index (lens_builder w))).

(* -------------------------------------------------------------- *)
(** *** Starting and resuming a build (lens.c, 1881-1910) *)



(** [row_a], [row_b]: the contents of the two blocks [malloc] returns. *)
Definition forward_state_init (row_a row_b : list Z) (w : world) : world :=
  let s := lens_builder w in
  with_lens_builder w
    (mkBuilder (working s) (inverse_state_ly s) RowA RowB 0
       (platesize (globe w) - 1) row_a row_b).


(** The frames of a build: the builder is resumed with the budget of
    each frame for as long as it answers that it is still working. *)
Fixpoint resume_frames (resume : nat -> world -> bool * world)
  (budgets : list nat) (w : world) : bool * world :=
  match budgets with
  | [] => (true, w)
  | b :: rest =>
      let '(working, w1) := resume b w in
      if working then resume_frames resume rest w1 else (false, w1)
  end.

(* -------------------------------------------------------------- *)
(** *** Script values used below *)

(** The Lua table [{x, y, z}]. *)
Definition vec_entry (v : vec3_t) : lua_value :=
  LTable [LNumber (c0 v); LNumber (c1 v); LNumber (c2 v)].

(** The Lua table [{ {fx,fy,fz}, {ux,uy,uz}, degrees }]: one entry of
    [plates]. *)
Definition plate_entry (f u : vec3_t) (degrees : R) : lua_value :=
  LTable [vec_entry f; vec_entry u; LNumber degrees].

(** The six plates of globes/cube.lua and a seventh entry. *)
Definition seven_plates : list lua_value :=
  [ plate_entry (Vec3 0 0 1) (Vec3 0 1 0) 90;
    plate_entry (Vec3 1 0 0) (Vec3 0 1 0) 90;
    plate_entry (Vec3 (-1) 0 0) (Vec3 0 1 0) 90;
    plate_entry (Vec3 0 0 (-1)) (Vec3 0 1 0) 90;
    plate_entry (Vec3 0 1 0) (Vec3 0 0 (-1)) 90;
    plate_entry (Vec3 0 (-1) 0) (Vec3 0 0 1) 90;
    plate_entry (Vec3 0 0 1) (Vec3 0 1 0) 160 ].

(** The globe script [plates = { ...seven entries... }]. *)
Definition seven_plates_globe : lua_chunk :=
  fun g => (true, lua_setglobal g "plates" (LTable seven_plates)).

(** [lens.pixels] and [lens.pixel_tints] of [area] cells as
    [L_RenderView] clears them before a build: null pointers, tint 255. *)
Definition blank_pixels (area : Z) : list (option Z) :=
  repeat None (Z.to_nat area).
Definition blank_tints (area : Z) : list Z :=
  repeat 255%Z (Z.to_nat area).

Arguments blank_pixels : simpl never.
Arguments blank_tints : simpl never.

(** A forward map that is not symmetric in x and y: the Lua function
    [function lens_forward(x,y,z) return 2*x, y end]. *)
Definition stretched_forward : lua_value :=
  LFunction (fun args =>
               match args with
               | [x; y; z] => [LNumber (2 * x); LNumber y]
               | _ => []
               end).

(** The state after [vfov 90] on a square viewport of 400 by 400 pixels,
    with a lens that defines [stretched_forward] as its only map and
    [max_hfov = max_vfov = 180]. *)
Definition square_vfov_world : world :=
  mkWorld
    (mkLua (fun _ => LNil) [stretched_forward] [])
    (mkRefs 1 (-1) (-1))
    (mkGlobe (repeat default_plate 6) 0 400)
    (mkLens MAP_FORWARD 0 0 0 400 400
       (blank_pixels (400 * 400)) (blank_tints (400 * 400)))
    (mkRubix 10 4 1)
    (mkFov (90 * M_PI / 180) 0 0 0 FS_height_px
       (180 * (M_PI / 180)) (180 * (M_PI / 180)))
    (mkBuilder false 0 RowA RowB 0 0 [] []).

(* -------------------------------------------------------------- *)
(** *** Vocabulary of the statements *)







(* -------------------------------------------------------------- *)
(** *** The lens map alone

    What the writers of the forward builder do to [lens.pixels], as
    functions of the pixel array, the viewport [W] by [H] and the plate
    size [P]: the view of the state the comparison of two builds needs.
    Each is shown below to be the [pixels] of its namesake. *)

Definition px_set (W H P : Z) (pix : list (option Z))
  (lx ly px py plate_index : Z) : list (option Z) :=
  if ((lx <? 0) || (lx >=? W) || (ly <? 0) || (ly >=? H))%Z then pix
  else if ((px <? 0) || (px >=? P) || (py <? 0) || (py >=? P))%Z then pix
  else zset pix (lx + ly * W)%Z (Some (plate_index * P * P + px + py * P)%Z).

Fixpoint px_hline (W H P : Z) (pix : list (option Z)) (x y : Z) (n : nat)
  (px py plate_index : Z) : list (option Z) :=
  match n with
  | O => pix
  | S n' =>
      px_hline W H P (px_set W H P pix x y px py plate_index)
        (x + 1)%Z y n' px py plate_index
  end.

Fixpoint px_vline (W H P : Z) (pix : list (option Z)) (x y : Z) (n : nat)
  (px py plate_index : Z) : list (option Z) :=
  match n with
  | O => pix
  | S n' =>
      px_vline W H P (px_set W H P pix x y px py plate_index)
        x (y + 1)%Z n' px py plate_index
  end.

Fixpoint px_quad (W H P : Z) (pix : list (option Z)) (p : list (Z * Z))
  (minx maxx : Z) (y : Z) (n : nat) (px py plate_index : Z)
  : list (option Z) :=
  match n with
  | O => pix
  | S n' =>
      let tx := edge_crossings y p [0; 1; 2; 3]%Z 3 (minx, maxx) 0 in
      let tx := if (snd tx <? fst tx)%Z then (snd tx, fst tx) else tx in
      if (maxdiff <? snd tx - fst tx)%Z then pix
      else
        let pix := px_hline W H P pix (fst tx) y (span (fst tx) (snd tx))
                     px py plate_index in
        px_quad W H P pix p minx maxx (y + 1)%Z n' px py plate_index
  end.

Definition px_drawQuad (W H P : Z) (pix : list (option Z))
  (tl tr bl br : Z * Z) (plate_index px py : Z) : list (option Z) :=
  let p := [tl; tr; br; bl] in
  let x := fst tl in
  let y := snd tl in
  let bounds :=
    fold_left
      (fun (b : (Z * Z) * (Z * Z)) (q : Z * Z) =>
         (grow_bounds (fst (fst b)) (snd (fst b)) (fst q),
          grow_bounds (fst (snd b)) (snd (snd b)) (snd q)))
      [tr; br; bl] ((x, x), (y, y)) in
  let minx := fst (fst bounds) in
  let maxx := snd (fst bounds) in
  let miny := fst (snd bounds) in
  let maxy := snd (snd bounds) in
  if ((maxdiff <? Z.abs (minx - maxx)) || (maxdiff <? Z.abs (miny - maxy)))%Z
  then pix
  else if ((miny =? maxy) && (minx =? maxx))%Z
  then px_set W H P pix x y px py plate_index
  else if (miny =? maxy)%Z
  then px_hline W H P pix minx miny (span minx maxx) px py plate_index
  else if (minx =? maxx)%Z
  then px_vline W H P pix x miny (span miny maxy) px py plate_index
  else px_quad W H P pix p minx maxx miny (span miny maxy) px py plate_index.

(** The quads of a texture row all of whose texels the plate owns. *)
Fixpoint px_draw_row (W H P : Z) (pix : list (option Z)) (top bot : list Z)
  (plate_index py : Z) (px : Z) (n : nat) : list (option Z) :=
  match n with
  | O => pix
  | S n' =>
      let index := (2 * px)%Z in
      let pix :=
        px_drawQuad W H P pix (row_point top index) (row_point top (index + 2))
          (row_point bot index) (row_point bot (index + 2)) plate_index px py in
      px_draw_row W H P pix top bot plate_index py (px + 1)%Z n'
  end.

(* -------------------------------------------------------------- *)
(** *** A forward build on a small viewport *)

(** The Lua function [function lens_forward(x,y,z) return 0, y/z end]:
    a forward map that keeps the height of a ray and puts it on the
    centre column. *)
Definition column_forward : lua_value :=
  LFunction (fun args =>
               match args with
               | [x; y; z] => [LNumber 0; LNumber (y / z)]
               | _ => []
               end).

(** The front plate of globes/cube.lua as [lua_globe_load] stores it. *)
Definition front_plate : plate_t :=
  mkPlate (Vec3 0 0 1) (Vec3 1 0 0) (Vec3 0 1 0)
    (90 * M_PI / 180) (0.5 / tan (90 * M_PI / 180 / 2)) 0.

(** A globe of the front plate alone, a lens with [column_forward] as
    its only map and [lens_height = 1.6], the command [vfit] on a
    viewport of 3 by 3 pixels (so [scale] = 1.6/3 = 8/15), the lens map
    cleared.  With this scale the sampled rows of the plate land on the
    screen heights 2.25, 1, -0.25 and -1.5, none of them next to a
    whole number that rounding could cross ([1] comes from an exact
    zero). *)
Definition slicing_world : world :=
  mkWorld
    (mkLua (fun _ => LNil) [column_forward] [])
    (mkRefs 1 (-1) (-1))
    (mkGlobe [front_plate; default_plate; default_plate; default_plate;
              default_plate; default_plate] 1 3)
    (mkLens MAP_FORWARD 0 (8 / 5) (8 / 15) 3 3 (blank_pixels 9) (blank_tints 9))
    (mkRubix 10 4 1)
    (mkFov 0 0 0 1 FS_NULL 0 0)
    (mkBuilder false 0 RowA RowB 0 0 [] []).

(** What the forward builder reads of [slicing_world] and never
    changes. *)
Definition slicing_like (w : world) : Prop :=
  lua w = lua slicing_world /\
  lua_refs w = lua_refs slicing_world /\
  numplates (globe w) = 1%Z /\
  platesize (globe w) = 3%Z /\
  (let p := zget (plates (globe w)) 0 default_plate in
   forward p = Vec3 0 0 1 /\ right p = Vec3 1 0 0 /\ up p = Vec3 0 1 0 /\
   dist p = 0.5 / tan (90 * M_PI / 180 / 2)) /\
  scale (lens w) = 8 / 15 /\
  width_px (lens w) = 3%Z /\
  height_px (lens w) = 3%Z.

(** A scanline whose four points are all [(1, y)]. *)
Definition column_row (y : Z) : list Z := [1; y; 1; y; 1; y; 1; y]%Z.

(* -------------------------------------------------------------- *)
(** *** Predicates of the statements and of their proofs *)

(** The dot product the loop of [ray_to_plate_index] computes at [j]. *)
Definition plate_dp (ps : list plate_t) (ray : vec3_t) (j : Z) : R :=
  DotProduct ray (forward (zget ps j default_plate)).

(** What the loop knows after the plates below [i]: [idx] is the lowest
    index of the largest dot product [m] so far, ... *)
Definition scan_best (ps : list plate_t) (ray : vec3_t) (i : Z) (m : R)
  (idx : Z) : Prop :=
  (0 <= idx < i)%Z /\ plate_dp ps ray idx = m /\ -2 < m /\
  (forall j, (0 <= j < i)%Z -> plate_dp ps ray j <= m) /\
  (forall j, (0 <= j < idx)%Z -> plate_dp ps ray j < m).

(** ... or no dot product so far exceeded the initial -2. *)
Definition scan_none (ps : list plate_t) (ray : vec3_t) (i : Z) (m : R)
  (idx : Z) : Prop :=
  m = -2 /\ idx = 0%Z /\ (forall j, (0 <= j < i)%Z -> plate_dp ps ray j <= -2).

(** The data-model invariants of a loaded plate the round trip rests on. *)
Record plate_frame (p : plate_t) : Prop := {
  frame_forward_unit : DotProduct (forward p) (forward p) = 1;
  frame_right_unit : DotProduct (right p) (right p) = 1;
  frame_up_unit : DotProduct (up p) (up p) = 1;
  frame_forward_right : DotProduct (forward p) (right p) = 0;
  frame_forward_up : DotProduct (forward p) (up p) = 0;
  frame_right_up : DotProduct (right p) (up p) = 0;
  frame_right_handed : right p = CrossProduct (up p) (forward p);
  frame_fov : 0 < fov p < PI;
  frame_dist : dist p = 0.5 / tan (fov p / 2) }.

(** The parts of the state the lens-map writers never touch: the script
    references and the registry, the lens geometry, the viewport, the
    plate count and size, the rubix grid, the FOV variables and the
    builder's cursors. *)
Definition same_setup (w w' : world) : Prop :=
  lua_refs w' = lua_refs w /\
  registry (lua w') = registry (lua w) /\
  map_type (lens w') = map_type (lens w) /\
  scale (lens w') = scale (lens w) /\
  width_px (lens w') = width_px (lens w) /\
  height_px (lens w') = height_px (lens w) /\
  numplates (globe w') = numplates (globe w) /\
  platesize (globe w') = platesize (globe w) /\
  rubix w' = rubix w /\
  fovs w' = fovs w /\
  lens_builder w' = lens_builder w.

(** A pixel write changes the lens map at no index but its own. *)
Definition pixels_but (k : Z) (w w' : world) : Prop :=
  forall j, j <> k ->
    zget (pixels (lens w')) j None = zget (pixels (lens w)) j None.

(** The geometry of every plate is kept (only [display] changes). *)
Definition same_frames (w w' : world) : Prop :=
  forall i,
    let p := zget (plates (globe w)) i default_plate in
    let p' := zget (plates (globe w')) i default_plate in
    forward p' = forward p /\ right p' = right p /\ up p' = up p /\
    fov p' = fov p /\ dist p' = dist p.

(** The three invariants of a writer, in one. *)
Definition keeps (w w' : world) : Prop :=
  same_setup w w' /\ same_frames w w' /\ lua w' = lua w.

(** What the row loop knows of the state between two rows. *)
Record row_state (w : world) (top bot : row_ptr) (py : Z)
  (rt rb : list Z) (pix : list (option Z)) : Prop := {
  rs_like : slicing_like w;
  rs_saved_top : forward_state_top (lens_builder w) = RowA;
  rs_saved_bot : forward_state_bot (lens_builder w) = RowB;
  rs_plate : forward_state_plate_index (lens_builder w) = 0%Z;
  rs_py : forward_state_py (lens_builder w) = py;
  rs_distinct : top <> bot;
  rs_top : row_of w top = rt;
  rs_bot : row_of w bot = rb;
  rs_pixels : pixels (lens w) = pix }.



(* -------------------------------------------------------------- *)
(** *** Further states the statements are read at *)

(** Lua's conversions where no script string reads as a number:
    [lua_Integer] by truncation, as a C cast does. *)
Definition plain_str2number : string -> option R := fun _ => None.
Definition plain_number2str : R -> string := fun _ => "".
Definition plain_number2integer : R -> Z := double_to_int.

(** A globe of two plates looking the same way, whose forward vectors
    [{0,0,4}] and [{0,0,3}] are not unit vectors, as [lua_globe_load]
    stores it (it does not normalise). *)
Definition long_plates_world : world :=
  with_globe slicing_world
    (mkGlobe
       [ mkPlate (Vec3 0 0 4) (Vec3 4 0 0) (Vec3 0 16 0)
           (90 * M_PI / 180) (0.5 / tan (90 * M_PI / 180 / 2)) 0;
         mkPlate (Vec3 0 0 3) (Vec3 3 0 0) (Vec3 0 9 0)
           (90 * M_PI / 180) (0.5 / tan (90 * M_PI / 180 / 2)) 0;
         default_plate; default_plate; default_plate; default_plate ]
       2 3).

(** [slicing_world] with the globe script defining
    [function globe_plate(x,y,z) return 0 end]. *)
Definition scripted_plate_world : world :=
  mkWorld
    (mkLua (fun _ => LNil)
       [column_forward; LFunction (fun _ => [LNumber 0])] [])
    (mkRefs 1 (-1) 2)
    (globe slicing_world) (lens slicing_world) (rubix slicing_world)
    (fovs slicing_world) (lens_builder slicing_world).

(** A state about to start an inverse build on the 3 by 3 viewport,
    with [f] as the script's [lens_inverse]. *)
Definition inverse_world (f : list R -> list lua_value) : world :=
  mkWorld
    (mkLua (fun _ => LNil) [LFunction f] [])
    (mkRefs (-1) 1 (-1))
    (globe slicing_world)
    (mkLens MAP_INVERSE 0 2 (2 / 3) 3 3 (blank_pixels 9) (blank_tints 9))
    (rubix slicing_world) (fovs slicing_world)
    (mkBuilder false 2 RowA RowB 0 0 [] []).

(** The Lua function [function lens_inverse(x,y) return 0, 0, 1 end]:
    every lens pixel looks straight ahead, at the middle texel of the
    front plate, so an inverse build writes every pixel it comes to. *)
Definition ahead_inverse : list R -> list lua_value :=
  fun _ => [LNumber 0; LNumber 0; LNumber 1].


(** The lens script [function lens_forward(x,y,z) return 0, y/z end]. *)
Definition forward_only_lens : lua_chunk :=
  fun g => (true, lua_setglobal g "lens_forward" column_forward).


(* -------------------------------------------------------------- *)
(** *** The tint palettes (lens.c, 406-480)

    [host_basepal] is the engine's palette: 256 colours of three bytes.
    A [B*] into it is the offset it stands at. *)

(** The loop of [find_closest_pal_index] from colour [i], [pal] the
    offset of the pointer, [n] colours to go. *)
Fixpoint closest_pal_loop (host_basepal : list Z) (r g b : Z) (pal : Z)
  (i : Z) (n : nat) (mindist minindex : Z) : Z :=
  match n with
  | O => minindex
  | S n' =>
      let dr := (zget host_basepal (pal + 0) 0 - r)%Z in
      let dg := (zget host_basepal (pal + 1) 0 - g)%Z in
      let db := (zget host_basepal (pal + 2) 0 - b)%Z in
      let dist := (dr * dr + dg * dg + db * db)%Z in
      if (dist <? mindist)%Z
      then closest_pal_loop host_basepal r g b (pal + 3) (i + 1) n' dist i
      else closest_pal_loop host_basepal r g b (pal + 3) (i + 1) n'
             mindist minindex
  end.

Definition find_closest_pal_index (host_basepal : list Z) (r g b : Z) : Z :=
  let mindist := (256 * 256 * 256)%Z in
  let minindex := 0%Z in
  closest_pal_loop host_basepal r g b 0 0 256 mindist minindex.

(** The [switch (j)] of [create_palmap]: the tint of the plate [j]. *)
Definition plate_tint (j : Z) : Z * Z * Z :=
  match j with
  | 0 => (255, 255, 255)
  | 1 => (0, 0, 255)
  | 2 => (255, 0, 0)
  | 3 => (255, 255, 0)
  | 4 => (255, 0, 255)
  | 5 => (0, 255, 255)
  | _ => (0, 0, 0)
  end%Z.

(** [c + (percent * (tint - c) >> 8)], the shift of a negative [int]
    being arithmetic. *)
Definition tint_blend (percent tint c : Z) : Z :=
  (c + Z.shiftr (percent * (tint - c)) 8)%Z.

(** [if (c < 0) c=0; if (c > 255) c=255;] *)
Definition clamp_byte (c : Z) : Z :=
  let c := if (c <? 0)%Z then 0%Z else c in
  if (255 <? c)%Z then 255%Z else c.

(** The loop over [i] of [create_palmap] for one plate, [palette] being
    [globe.plates[j].palette]. *)
Fixpoint create_palmap_colors (host_basepal : list Z) (tint : Z * Z * Z)
  (percent : Z) (pal : Z) (i : Z) (n : nat) (palette : list Z) : list Z :=
  match n with
  | O => palette
  | S n' =>
      let '(t0, t1, t2) := tint in
      let r := zget host_basepal (pal + 0) 0%Z in
      let g := zget host_basepal (pal + 1) 0%Z in
      let b := zget host_basepal (pal + 2) 0%Z in
      let r := clamp_byte (tint_blend percent t0 r) in
      let g := clamp_byte (tint_blend percent t1 g) in
      let b := clamp_byte (tint_blend percent t2 b) in
      let palette := zset palette i (find_closest_pal_index host_basepal r g b) in
      create_palmap_colors host_basepal tint percent (pal + 3) (i + 1) n' palette
  end.

(** The loop over the plates from [j]; [palettes] holds the
    [globe.plates[j].palette] of the [MAX_PLATES] plates. *)
Fixpoint create_palmap_plates (host_basepal : list Z) (percent : Z) (j : Z)
  (n : nat) (palettes : list (list Z)) : list (list Z) :=
  match n with
  | O => palettes
  | S n' =>
      let palette :=
        create_palmap_colors host_basepal (plate_tint j) percent 0 0 256
          (zget palettes j []) in
      create_palmap_plates host_basepal percent (j + 1) n'
        (zset palettes j palette)
  end.

Definition create_palmap (host_basepal : list Z) (palettes : list (list Z))
  : list (list Z) :=
  let percent := (256 / 6)%Z in
  create_palmap_plates host_basepal percent 0 (Z.to_nat MAX_PLATES) palettes.

(** The colour [i] of a palette, and the squared distance that
    [find_closest_pal_index] computes for it. *)
Definition pal_color (host_basepal : list Z) (i : Z) : Z * Z * Z :=
  (zget host_basepal (3 * i) 0, zget host_basepal (3 * i + 1) 0,
   zget host_basepal (3 * i + 2) 0)%Z.

Definition pal_dist (host_basepal : list Z) (r g b : Z) (i : Z) : Z :=
  let '(pr, pg, pb) := pal_color host_basepal i in
  ((pr - r) * (pr - r) + (pg - g) * (pg - g) + (pb - b) * (pb - b))%Z.

(** A palette of 768 bytes. *)
Definition is_basepal (host_basepal : list Z) : bool :=
  (List.length host_basepal =? 768)%nat
  && forallb (fun c => (0 <=? c) && (c <=? 255))%Z host_basepal.

(** The six palettes of 256 entries each, as the array is declared. *)
Definition is_palettes (palettes : list (list Z)) : bool :=
  (List.length palettes =? 6)%nat
  && forallb (fun p => (List.length p =? 256)%nat) palettes.

(** A grey ramp: the colour [i] is [(i, i, i)]. *)
Definition grey_basepal : list Z :=
  flat_map (fun i => [Z.of_nat i; Z.of_nat i; Z.of_nat i]) (seq 0 256).

(** The base colour [i] moved toward the tint of the plate [j], before
    the clamping. *)
Definition tinted_color (host_basepal : list Z) (j i : Z) : Z * Z * Z :=
  let '(t0, t1, t2) := plate_tint j in
  let '(r, g, b) := pal_color host_basepal i in
  (tint_blend (256 / 6) t0 r, tint_blend (256 / 6) t1 g,
   tint_blend (256 / 6) t2 b)%Z.

(** Six palettes of 256 zero bytes: the array before [create_palmap]. *)
Definition zero_palettes : list (list Z) := repeat (repeat 0%Z 256) 6.

(* -------------------------------------------------------------- *)
(** *** The FOV commands (lens.c, 589-613, 666-696)

    [fov_t] leaves out three of the FOV statics: the desired [hfov] and
    [vfov] in degrees, and the change flag. *)

Record fov_request_t : Type := mkFovRequest {
  hfov : R;
  vfov : R;
  fovchange : Z }.

Definition clearFov (f : fov_t) (q : fov_request_t) : fov_t * fov_request_t :=
  (mkFov 0 0 0 0 FS_NULL (max_hfov f) (max_vfov f), mkFovRequest 0 0 1).

Definition L_HFit (f : fov_t) (q : fov_request_t) : fov_t * fov_request_t :=
  let '(f, q) := clearFov f q in
  (mkFov (g_fov f) (fit f) 1 (vfit f) (framesize f) (max_hfov f) (max_vfov f), q).

Definition L_VFit (f : fov_t) (q : fov_request_t) : fov_t * fov_request_t :=
  let '(f, q) := clearFov f q in
  (mkFov (g_fov f) (fit f) (hfit f) 1 (framesize f) (max_hfov f) (max_vfov f), q).

Definition L_Fit (f : fov_t) (q : fov_request_t) : fov_t * fov_request_t :=
  let '(f, q) := clearFov f q in
  (mkFov (g_fov f) 1 (hfit f) (vfit f) (framesize f) (max_hfov f) (max_vfov f), q).

(** [argc] is [Cmd_Argc()] and [arg1] the value of [Q_atof(Cmd_Argv(1))]
    (0 when the argument is no number). *)
Definition L_HFov (argc : Z) (arg1 : R) (f : fov_t) (q : fov_request_t)
  : fov_t * fov_request_t :=
  if (argc <? 2)%Z then (f, q)
  else
    let '(f, q) := clearFov f q in
    let q := mkFovRequest arg1 (vfov q) (fovchange q) in
    (mkFov (hfov q * M_PI / 180) (fit f) (hfit f) (vfit f) FS_width_px
       (max_hfov f) (max_vfov f), q).

Definition L_VFov (argc : Z) (arg1 : R) (f : fov_t) (q : fov_request_t)
  : fov_t * fov_request_t :=
  if (argc <? 2)%Z then (f, q)
  else
    let '(f, q) := clearFov f q in
    let q := mkFovRequest (hfov q) arg1 (fovchange q) in
    (mkFov (vfov q * M_PI / 180) (fit f) (hfit f) (vfit f) FS_height_px
       (max_hfov f) (max_vfov f), q).

(** The state a command leaves, the command acting on the FOV statics. *)
Definition after_fov_command
  (cmd : fov_t -> fov_request_t -> fov_t * fov_request_t)
  (w : world) (q : fov_request_t) : world :=
  with_fovs w (fst (cmd (fovs w) q)).

(* -------------------------------------------------------------- *)
(** *** A function given to the scripts (lens.c, 973-989)

    A C function of the Lua API is the map from its arguments (the
    stack at the positions 1, 2, ...) to the values it returns; [None]
    is the Lua error [luaL_checknumber] raises. *)

Definition luaL_checknumber (args : list lua_value) (n : Z) : option R :=
  let v := zget args (n - 1) LNil in
  if lua_isnumber v then Some (lua_tonumber v) else None.

Definition lua_plate_to_ray (w : world) (args : list lua_value)
  : option (list lua_value) :=
  match luaL_checknumber args 1 with
  | None => None
  | Some n =>
      let plate_index := double_to_int n in
      match luaL_checknumber args 2 with
      | None => None
      | Some u =>
          match luaL_checknumber args 3 with
          | None => None
          | Some v =>
              if ((plate_index <? 0) || (plate_index >=? numplates (globe w)))%Z
              then Some [LNil]
              else
                let ray := plate_uv_to_ray w plate_index u v in
                Some [LNumber (c0 ray); LNumber (c1 ray); LNumber (c2 ray)]
          end
      end
  end.

(* -------------------------------------------------------------- *)
(** *** The camera of a plate (lens.c, 2046-2087)

    [L_RenderView] reads the coordinates of a plate's vectors along the
    camera's [right], [up] and [forward] (as [AngleVectors] gives them,
    here [cam_right], [cam_up], [cam_forward]) and hands [render_plate]
    the absolute vectors [f], [r], [u]. *)

Definition camera_relative (v cam_forward cam_right cam_up : vec3_t) : vec3_t :=
  let r := Vec3 0 0 0 in
  let r := VectorMA r (c0 v) cam_right in
  let r := VectorMA r (c1 v) cam_up in
  VectorMA r (c2 v) cam_forward.

(** The arguments [f], [r], [u] of [render_plate] for the plate [p]. *)
Definition plate_camera (p : plate_t) (cam_forward cam_right cam_up : vec3_t)
  : vec3_t * vec3_t * vec3_t :=
  (camera_relative (forward p) cam_forward cam_right cam_up,
   camera_relative (right p) cam_forward cam_right cam_up,
   camera_relative (up p) cam_forward cam_right cam_up).

(** A lens that declares an image of 4 by 2 units, on a viewport of 400
    by 300 pixels, before any FOV command; no maps, no limits. *)
Definition wide_lens_world : world :=
  mkWorld
    (mkLua (fun _ => LNil) [] [])
    (mkRefs (-1) (-1) (-1))
    (mkGlobe (repeat default_plate 6) 0 300)
    (mkLens MAP_NONE 4 2 0 400 300
       (blank_pixels (400 * 300)) (blank_tints (400 * 300)))
    (mkRubix 10 4 1)
    (mkFov 0 0 0 0 FS_NULL 0 0)
    (mkBuilder false 0 RowA RowB 0 0 [] []).

Definition no_fov_request : fov_request_t := mkFovRequest 0 0 0.

(** The same viewport with a lens that declares [max_hfov = 120] and
    [max_vfov = 90] (degrees in the script, radians in the statics). *)
Definition limited_lens_world : world :=
  with_fovs wide_lens_world
    (mkFov 0 0 0 0 FS_NULL (120 * M_PI / 180) (90 * M_PI / 180)).

(* -------------------------------------------------------------- *)
(** *** The lens map and the memory it points into *)

(** Every pointer of a lens map [pix] that is not null points at a texel
    of one of the [N] plates of [P] by [P] texels at the head of
    [globe.pixels]. *)
Definition pix_in_globe (N P : Z) (pix : list (option Z)) : Prop :=
  forall k off, zget pix k None = Some off -> (0 <= off < N * (P * P))%Z.

Definition lens_map_in_globe (w : world) : Prop :=
  pix_in_globe (numplates (globe w)) (platesize (globe w)) (pixels (lens w)).

(** The scanline loops of the forward builder store into the two
    scanline buffers and nowhere else: all of the state but the contents
    of [rowa] and [rowb] is kept. *)
Definition rows_only (w w' : world) : Prop :=
  lua w' = lua w /\ lua_refs w' = lua_refs w /\ globe w' = globe w /\
  lens w' = lens w /\ rubix w' = rubix w /\ fovs w' = fovs w /\
  working (lens_builder w') = working (lens_builder w) /\
  inverse_state_ly (lens_builder w') = inverse_state_ly (lens_builder w) /\
  forward_state_top (lens_builder w') = forward_state_top (lens_builder w) /\
  forward_state_bot (lens_builder w') = forward_state_bot (lens_builder w) /\
  forward_state_plate_index (lens_builder w')
  = forward_state_plate_index (lens_builder w) /\
  forward_state_py (lens_builder w') = forward_state_py (lens_builder w).

(* -------------------------------------------------------------- *)
(** *** Creating the lens map (lens.c, 1912-1944) *)









(* -------------------------------------------------------------- *)
(** *** The box of a quad *)

(** A corner whose coordinates lie in [-2^30, 2^30): the difference of
    two such coordinates is held by an [int] of 32 bits, so the integer
    arithmetic of [drawQuad] on them is that of the source. *)
Definition corner_in_range (q : Z * Z) : Prop :=
  (-1073741824 <= fst q < 1073741824)%Z /\
  (-1073741824 <= snd q < 1073741824)%Z.

(** The least and the greatest abscissa, and the least and the greatest
    ordinate, of the four corners of a quad. *)
Definition quad_box (tl tr bl br : Z * Z) : (Z * Z) * (Z * Z) :=
  ((Z.min (Z.min (fst tl) (fst tr)) (Z.min (fst br) (fst bl)),
    Z.max (Z.max (fst tl) (fst tr)) (Z.max (fst br) (fst bl))),
   (Z.min (Z.min (snd tl) (snd tr)) (Z.min (snd br) (snd bl)),
    Z.max (Z.max (snd tl) (snd tr)) (Z.max (snd br) (snd bl)))).

(** The lens maps [pix] and [pix'] of a viewport [W] pixels wide agree
    at every pixel outside the box [minx..maxx] by [miny..maxy]. *)
Definition same_outside_box (W minx maxx miny maxy : Z)
  (pix pix' : list (option Z)) : Prop :=
  forall lx ly,
    (0 <= lx < W)%Z ->
    ~ ((minx <= lx <= maxx)%Z /\ (miny <= ly <= maxy)%Z) ->
    zget pix' (lx + ly * W) None = zget pix (lx + ly * W) None.

(* ================================================================== *)
(** * Properties *)


Lemma atan2_pos (y x : R) : 0 < x -> atan2 y x = atan (y / x).
Proof.
  intros Hx. unfold atan2. destruct (Rlt_dec 0 x); [reflexivity | contradiction].
Qed.

Lemma atan2_sin_cos (a : R) : - PI < a <= PI -> atan2 (sin a) (cos a) = a.
Proof.
  intros [Hlo Hhi]. unfold atan2.
  destruct (Rlt_dec 0 (cos a)) as [Hc | Hc].
  - (* cos a > 0: a in (-PI/2, PI/2) *)
    assert (Ha : - (PI / 2) < a < PI / 2).
    { split.
      - destruct (Rlt_dec (- (PI / 2)) a) as [H | H]; [exact H | exfalso].
        apply Rnot_lt_le in H.
        assert (Hneg : cos a <= 0).
        { rewrite <- (Ropp_involutive a), cos_neg.
          apply cos_le_0; lra. }
        lra.
      - destruct (Rlt_dec a (PI / 2)) as [H | H]; [exact H | exfalso].
        apply Rnot_lt_le in H.
        assert (Hneg : cos a <= 0) by (apply cos_le_0; lra).
        lra. }
    change (sin a / cos a) with (tan a). apply atan_tan; exact Ha.
  - apply Rnot_lt_le in Hc.
    destruct (Rlt_dec (cos a) 0) as [Hn | Hn].
    + destruct (Rle_dec 0 (sin a)) as [Hs | Hs].
      * (* second quadrant: a in (PI/2, PI] *)
        assert (Ha : PI / 2 < a).
        { destruct (Rlt_dec (PI / 2) a) as [H | H]; [exact H | exfalso].
          apply Rnot_lt_le in H.
          destruct (Rle_dec 0 a) as [H0 | H0].
          - assert (0 <= cos a) by (apply cos_ge_0; lra). lra.
          - apply Rnot_le_lt in H0.
            assert (sin a < 0) by (apply sin_lt_0_var; lra). lra. }
        assert (Ht : sin a / cos a = tan (a - PI)).
        { unfold tan. replace (a - PI) with (a + PI - 2 * PI) by lra.
          rewrite <- (sin_period (a + PI - 2 * PI) 1), <- (cos_period (a + PI - 2 * PI) 1).
          replace (a + PI - 2 * PI + 2 * INR 1 * PI) with (a + PI) by (simpl; lra).
          rewrite neg_sin, neg_cos. field. lra. }
        rewrite Ht, atan_tan; lra.
      * (* third quadrant: a in (-PI, -PI/2) *)
        apply Rnot_le_lt in Hs.
        assert (Ha : a < - (PI / 2)).
        { destruct (Rlt_dec a (- (PI / 2))) as [H | H]; [exact H | exfalso].
          apply Rnot_lt_le in H.
          destruct (Rle_dec a (PI / 2)) as [H0 | H0].
          - assert (0 <= cos a) by (apply cos_ge_0; lra). lra.
          - apply Rnot_le_lt in H0.
            assert (0 <= sin a) by (apply sin_ge_0; lra). lra. }
        assert (Ht : sin a / cos a = tan (a + PI)).
        { unfold tan. rewrite neg_sin, neg_cos. field. lra. }
        rewrite Ht, atan_tan; lra.
    + (* cos a = 0 *)
      assert (Hc0 : cos a = 0) by lra.
      assert (Hsq : Rsqr (sin a) + Rsqr (cos a) = 1) by apply sin2_cos2.
      rewrite Hc0 in Hsq. unfold Rsqr in Hsq.
      destruct (Rlt_dec 0 (sin a)) as [Hs | Hs].
      * (* a = PI/2 *)
        destruct (Rtotal_order a (PI / 2)) as [H | [H | H]]; [exfalso | lra | exfalso].
        -- destruct (Rlt_dec (- (PI / 2)) a) as [H1 | H1].
           ++ assert (0 < cos a) by (apply cos_gt_0; lra). lra.
           ++ apply Rnot_lt_le in H1.
              assert (sin a < 0) by (apply sin_lt_0_var; lra). lra.
        -- assert (cos a < 0) by (apply cos_lt_0; lra). lra.
      * destruct (Rlt_dec (sin a) 0) as [Hs' | Hs'].
        -- (* a = -PI/2 *)
           destruct (Rtotal_order a (- (PI / 2))) as [H | [H | H]]; [exfalso | lra | exfalso].
           ++ assert (Hcn : cos (- a) < 0) by (apply cos_lt_0; lra).
              rewrite cos_neg in Hcn. lra.
           ++ destruct (Rlt_dec a (PI / 2)) as [H1 | H1].
              ** assert (0 < cos a) by (apply cos_gt_0; lra). lra.
              ** apply Rnot_lt_le in H1.
                 assert (0 <= sin a) by (apply sin_ge_0; lra). lra.
        -- exfalso. assert (sin a = 0) by lra. nra.
Qed.

(** C8: [latlon_to_ray] returns a unit vector for every latitude and
    longitude, and [ray_to_latlon] inverts it for latitudes in
    (-PI/2, PI/2) and longitudes in (-PI, PI]. *)
Theorem latlon_to_ray_unit_and_roundtrip (lat lon : R) :
  VectorLength (latlon_to_ray lat lon) = 1 /\
  (- (PI / 2) < lat < PI / 2 -> - PI < lon <= PI ->
   ray_to_latlon (latlon_to_ray lat lon) = (lat, lon)).
Proof.
  split.
  - unfold VectorLength.
    replace (DotProduct (latlon_to_ray lat lon) (latlon_to_ray lat lon))
      with 1; [apply sqrt_1 |].
    unfold DotProduct, latlon_to_ray; simpl.
    pose proof (sin2_cos2 lat) as Hlat. pose proof (sin2_cos2 lon) as Hlon.
    unfold Rsqr in *. nra.
  - intros Hlat Hlon.
    assert (Hc : 0 < cos lat) by (apply cos_gt_0; lra).
    unfold ray_to_latlon, latlon_to_ray; simpl.
    f_equal.
    + replace (sin lon * cos lat * (sin lon * cos lat) + cos lon * cos lat * (cos lon * cos lat))
        with (cos lat * cos lat).
      2:{ pose proof (sin2_cos2 lon) as H. unfold Rsqr in H. nra. }
      rewrite sqrt_square by lra.
      apply atan2_sin_cos. lra.
    + rewrite <- (atan2_sin_cos lon Hlon) at 3.
      unfold atan2.
      assert (Hsgn1 : forall s, 0 < s -> 0 < s * cos lat) by (intros; nra).
      assert (Hdiv : cos lon <> 0 -> sin lon * cos lat / (cos lon * cos lat) = sin lon / cos lon).
      { intros. field. split; lra. }
      destruct (Rlt_dec 0 (cos lon * cos lat)) as [H1 | H1];
        destruct (Rlt_dec 0 (cos lon)) as [H2 | H2]; try (exfalso; nra).
      * rewrite Hdiv by lra. reflexivity.
      * destruct (Rlt_dec (cos lon * cos lat) 0) as [H3 | H3];
          destruct (Rlt_dec (cos lon) 0) as [H4 | H4]; try (exfalso; nra).
        -- rewrite Hdiv by lra.
           destruct (Rle_dec 0 (sin lon * cos lat)) as [H5 | H5];
             destruct (Rle_dec 0 (sin lon)) as [H6 | H6]; try (exfalso; nra); reflexivity.
        -- destruct (Rlt_dec 0 (sin lon * cos lat)) as [H5 | H5];
             destruct (Rlt_dec 0 (sin lon)) as [H6 | H6]; try (exfalso; nra); try reflexivity.
           destruct (Rlt_dec (sin lon * cos lat) 0) as [H7 | H7];
             destruct (Rlt_dec (sin lon) 0) as [H8 | H8]; try (exfalso; nra); reflexivity.
Qed.

(* ------------------------------------------------------------------ *)
(** ** Arrays *)

Lemma length_list_set {A : Type} (l : list A) (n : nat) (v : A) :
  List.length (list_set l n v) = List.length l.
Proof.
  revert n; induction l as [| h t IH]; intros [| n]; simpl; auto.
Qed.

Lemma nth_list_set_eq {A : Type} (l : list A) (n : nat) (v d : A) :
  (n < List.length l)%nat -> nth n (list_set l n v) d = v.
Proof.
  revert n; induction l as [| h t IH]; intros [| n] H; simpl in *; try lia; auto.
  apply IH; lia.
Qed.

Lemma nth_list_set_neq {A : Type} (l : list A) (n m : nat) (v d : A) :
  n <> m -> nth m (list_set l n v) d = nth m l d.
Proof.
  revert n m; induction l as [| h t IH]; intros [| n] [| m] H; simpl; auto; try lia.
Qed.

Lemma length_zset {A : Type} (l : list A) (i : Z) (v : A) :
  List.length (zset l i v) = List.length l.
Proof.
  unfold zset. destruct (i <? 0)%Z; [reflexivity | apply length_list_set].
Qed.

Lemma zget_zset_eq {A : Type} (l : list A) (i : Z) (v d : A) :
  (0 <= i < Z.of_nat (List.length l))%Z -> zget (zset l i v) i d = v.
Proof.
  intros H. unfold zget, zset.
  destruct (i <? 0)%Z eqn:E; [apply Z.ltb_lt in E; lia |].
  apply nth_list_set_eq. lia.
Qed.

Lemma zget_zset_neq {A : Type} (l : list A) (i j : Z) (v d : A) :
  i <> j -> zget (zset l i v) j d = zget l j d.
Proof.
  intros H. unfold zget, zset.
  destruct (j <? 0)%Z eqn:Ej; [reflexivity |].
  destruct (i <? 0)%Z eqn:Ei; [reflexivity |].
  apply Z.ltb_ge in Ei, Ej.
  apply nth_list_set_neq. intros E. apply H. lia.
Qed.

(* ------------------------------------------------------------------ *)
(** ** Writing the lens map *)

Lemma set_lensmap_grid_pixels (w : world) (lx ly px py plate_index : Z) :
  pixels (lens (set_lensmap_grid w lx ly px py plate_index)) = pixels (lens w).
Proof.
  unfold set_lensmap_grid. destruct (negb _); reflexivity.
Qed.

Lemma set_lensmap_grid_globe (w : world) (lx ly px py plate_index : Z) :
  globe (set_lensmap_grid w lx ly px py plate_index) = globe w.
Proof.
  unfold set_lensmap_grid. destruct (negb _); reflexivity.
Qed.

(** C10: [set_lensmap_from_plate] writes only for a lens pixel inside
    the viewport and a texel inside the plate: with any of the four
    coordinates out of range the state comes back as it was (no pixel, no
    tint, no display flag changes), and with all four in range the lens
    pixel receives the texel's address. *)
Theorem set_lensmap_from_plate_guard (w : world) (lx ly px py plate_index : Z) :
  ((lx < 0 \/ lx >= width_px (lens w) \/ ly < 0 \/ ly >= height_px (lens w)
    \/ px < 0 \/ px >= platesize (globe w)
    \/ py < 0 \/ py >= platesize (globe w))%Z ->
   set_lensmap_from_plate w lx ly px py plate_index = w)
  /\
  ((0 <= lx < width_px (lens w))%Z -> (0 <= ly < height_px (lens w))%Z ->
   (0 <= px < platesize (globe w))%Z -> (0 <= py < platesize (globe w))%Z ->
   pixels (lens (set_lensmap_from_plate w lx ly px py plate_index))
   = zset (pixels (lens w)) (lx + ly * width_px (lens w))
       (Some (GLOBEPIXEL w plate_index px py))).
Proof.
  split.
  - intros H. unfold set_lensmap_from_plate.
    destruct ((lx <? 0) || (lx >=? width_px (lens w))
              || (ly <? 0) || (ly >=? height_px (lens w)))%Z eqn:E1;
      [reflexivity |].
    destruct ((px <? 0) || (px >=? platesize (globe w))
              || (py <? 0) || (py >=? platesize (globe w)))%Z eqn:E2;
      [reflexivity |].
    exfalso.
    repeat rewrite orb_false_iff in E1, E2.
    rewrite !Z.ltb_ge, !Z.geb_leb, !Z.leb_gt in E1, E2. lia.
  - intros Hlx Hly Hpx Hpy. unfold set_lensmap_from_plate.
    replace ((lx <? 0) || (lx >=? width_px (lens w))
             || (ly <? 0) || (ly >=? height_px (lens w)))%Z with false.
    2:{ symmetry. repeat rewrite orb_false_iff.
        rewrite !Z.ltb_ge, !Z.geb_leb, !Z.leb_gt. lia. }
    replace ((px <? 0) || (px >=? platesize (globe w))
             || (py <? 0) || (py >=? platesize (globe w)))%Z with false.
    2:{ symmetry. repeat rewrite orb_false_iff.
        rewrite !Z.ltb_ge, !Z.geb_leb, !Z.leb_gt. lia. }
    rewrite set_lensmap_grid_pixels. reflexivity.
Qed.

(* ------------------------------------------------------------------ *)
(** ** Choosing the plate of a ray *)

Lemma max_dotproduct_scan (ps : list plate_t) (ray : vec3_t) (n : nat) :
  forall (i : Z) (m : R) (idx : Z),
    (0 <= i)%Z ->
    scan_best ps ray i m idx \/ scan_none ps ray i m idx ->
    exists m',
      scan_best ps ray (i + Z.of_nat n) m' (max_dotproduct ps ray i n m idx)
      \/ scan_none ps ray (i + Z.of_nat n) m' (max_dotproduct ps ray i n m idx).
Proof.
  induction n as [| n IH]; intros i m idx Hi H.
  - exists m. simpl. rewrite Z.add_0_r. exact H.
  - cbn [max_dotproduct].
    replace (i + Z.of_nat (S n))%Z with ((i + 1) + Z.of_nat n)%Z by lia.
    fold (plate_dp ps ray i). unfold Rltb.
    destruct (Rlt_dec m (plate_dp ps ray i)) as [Hlt | Hge].
    + apply IH; [lia |]. left.
      assert (Hm : -2 <= m /\ forall j, (0 <= j < i)%Z -> plate_dp ps ray j <= m).
      { destruct H as [(_ & _ & H2 & Hall & _) | (Hm & _ & Hall)].
        - split; [lra | exact Hall].
        - subst m. split; [lra | exact Hall]. }
      destruct Hm as [Hm Hall].
      repeat split; try lia; try lra.
      * intros j Hj. destruct (Z.eq_dec j i) as [-> | Hne]; [lra |].
        specialize (Hall j ltac:(lia)). lra.
      * intros j Hj. specialize (Hall j ltac:(lia)). lra.
    + apply Rnot_lt_le in Hge.
      apply IH; [lia |].
      destruct H as [(H1 & H2 & H3 & Hall & Hlow) | (Hm & Hidx & Hall)].
      * left. repeat split; try lia; try assumption.
        intros j Hj. destruct (Z.eq_dec j i) as [-> | Hne]; [lra |].
        apply Hall. lia.
      * right. subst m. repeat split; try assumption.
        intros j Hj. destruct (Z.eq_dec j i) as [-> | Hne]; [lra |].
        apply Hall. lia.
Qed.

Lemma max_dotproduct_range (ps : list plate_t) (ray : vec3_t) (n : nat) :
  forall (i : Z) (m : R) (idx : Z),
    (0 <= i)%Z -> (0 <= idx < i \/ idx = 0)%Z ->
    let r := max_dotproduct ps ray i n m idx in
    (0 <= r < i + Z.of_nat n \/ r = 0)%Z.
Proof.
  induction n as [| n IH]; intros i m idx Hi H; simpl.
  - lia.
  - destruct (Rltb m _).
    + specialize (IH (i + 1)%Z (DotProduct ray (forward (zget ps i default_plate))) i
                     ltac:(lia) ltac:(lia)).
      simpl in IH. lia.
    + specialize (IH (i + 1)%Z m idx ltac:(lia) ltac:(lia)).
      simpl in IH. lia.
Qed.

(** C9: with one to six plates and no scripted [globe_plate], the index
    returned for any ray (the zero ray and rays of any length included)
    is an index of the globe: never -1, never [numplates] or more. *)
Theorem ray_to_plate_index_in_range (w : world) (ray : vec3_t) :
  (1 <= numplates (globe w) <= 6)%Z ->
  globe_plate (lua_refs w) = (-1)%Z ->
  (0 <= fst (ray_to_plate_index w ray) < numplates (globe w))%Z.
Proof.
  intros Hn Href. unfold ray_to_plate_index. rewrite Href. simpl.
  pose proof (max_dotproduct_range (plates (globe w)) ray
                (Z.to_nat (numplates (globe w))) 0 (-2) 0
                ltac:(lia) ltac:(lia)) as H.
  simpl in H. rewrite Z2Nat.id in H by lia. lia.
Qed.

(** C4 (amended): without a scripted [globe_plate], when some plate's
    forward vector has a dot product with the ray above -2 (so for unit
    rays and unit forward vectors), the index returned is the lowest one
    among those of the largest dot product; when none has, index 0 is
    returned.  With a scripted [globe_plate], the value on top of the
    stack after the call decides: a number (or a string that reads as
    one) is converted by [lua_tointeger] and returned, anything else
    gives -1. *)
Theorem ray_to_plate_index_choice (w : world) (ray : vec3_t) :
  let dp := plate_dp (plates (globe w)) ray in
  let r := fst (ray_to_plate_index w ray) in
  (globe_plate (lua_refs w) = (-1)%Z ->
   ((exists i, (0 <= i < numplates (globe w))%Z /\ -2 < dp i) ->
    (0 <= r < numplates (globe w))%Z /\
    (forall j, (0 <= j < numplates (globe w))%Z -> dp j <= dp r) /\
    (forall j, (0 <= j < r)%Z -> dp j < dp r)) /\
   ((forall i, (0 <= i < numplates (globe w))%Z -> dp i <= -2) -> r = 0%Z))
  /\
  (globe_plate (lua_refs w) <> (-1)%Z ->
   let top :=
     hd LNil
       (rev (lua_call_ref (lua w) (globe_plate (lua_refs w))
               [c0 ray; c1 ray; c2 ray])
        ++ stack (lua w)) in
   r = if lua_isnumber top then lua_tointeger top else (-1)%Z).
Proof.
  intros dp r. split.
  - intros Href.
    assert (Hr : r = max_dotproduct (plates (globe w)) ray 0
                       (Z.to_nat (numplates (globe w))) (-2) 0).
    { unfold r, ray_to_plate_index. rewrite Href. reflexivity. }
    destruct (max_dotproduct_scan (plates (globe w)) ray
                (Z.to_nat (numplates (globe w))) 0 (-2) 0 ltac:(lia)) as [m' H].
    { right. repeat split. intros j Hj. lia. }
    rewrite <- Hr in H. simpl in H.
    split.
    + intros (i & Hi & Hdp).
      rewrite Z2Nat.id in H by lia.
      destruct H as [(H1 & H2 & H3 & Hall & Hlow) | (Hm & Hidx & Hall)].
      * fold dp in H2, Hall, Hlow. rewrite H2.
        split; [exact H1 | split; assumption].
      * exfalso. specialize (Hall i Hi). fold dp in Hall. lra.
    + intros Hnone.
      destruct H as [(H1 & H2 & H3 & Hall & Hlow) | (Hm & Hidx & Hall)];
        [| exact Hidx].
      exfalso.
      assert (Hrange : (0 <= r < numplates (globe w))%Z).
      { destruct (Z.to_nat (numplates (globe w))) eqn:E; lia. }
      specialize (Hnone r Hrange). fold dp in H2. lra.
  - intros Href top. unfold r, ray_to_plate_index.
    destruct (globe_plate (lua_refs w) =? -1)%Z eqn:E;
      [apply Z.eqb_eq in E; contradiction |].
    simpl. unfold lua_globe_plate. fold top.
    destruct (lua_isnumber top); reflexivity.
Qed.

(* ------------------------------------------------------------------ *)
(** ** Plate coordinates *)

Lemma DotProduct_comm (a b : vec3_t) : DotProduct a b = DotProduct b a.
Proof. unfold DotProduct. ring. Qed.

Lemma DotProduct_VectorMA_r (c a b : vec3_t) (s : R) :
  DotProduct c (VectorMA a s b) = DotProduct c a + s * DotProduct c b.
Proof. unfold DotProduct, VectorMA; simpl. ring. Qed.

Lemma DotProduct_zero_r (c : vec3_t) : DotProduct c (Vec3 0 0 0) = 0.
Proof. unfold DotProduct; simpl. ring. Qed.

Lemma DotProduct_VectorMA_l (c a b : vec3_t) (s : R) :
  DotProduct (VectorMA a s b) c = DotProduct a c + s * DotProduct b c.
Proof. unfold DotProduct, VectorMA; simpl. ring. Qed.

Lemma DotProduct_zero_l (c : vec3_t) : DotProduct (Vec3 0 0 0) c = 0.
Proof. unfold DotProduct; simpl. ring. Qed.

Lemma DotProduct_VectorNormalize_r (c v : vec3_t) :
  VectorLength v <> 0 ->
  DotProduct c (VectorNormalize v) = DotProduct c v / VectorLength v.
Proof.
  intros H. unfold VectorNormalize.
  destruct (Req_dec_T (VectorLength v) 0) as [E | _]; [contradiction |].
  unfold DotProduct at 1; simpl. unfold DotProduct at 1. field. exact H.
Qed.

Lemma plate_dist_pos (p : plate_t) : plate_frame p -> 0 < dist p.
Proof.
  intros F. rewrite (frame_dist p F).
  destruct (frame_fov p F) as [H0 H1].
  assert (0 < tan (fov p / 2)) by (apply tan_gt_0; lra).
  apply Rdiv_lt_0_compat; lra.
Qed.

(** C3: for a plate with an orthonormal right-handed frame and a field
    of view in (0, PI) (its stored distance being 0.5/tan(fov/2), as the
    loader sets it), and for (u, v) in the unit square,
    [ray_to_plate_uv] of the ray [plate_uv_to_ray] builds gives back
    (u, v) and answers inside. *)
Theorem plate_uv_roundtrip (w : world) (i : Z) (u v : R) :
  plate_frame (zget (plates (globe w)) i default_plate) ->
  0 <= u <= 1 -> 0 <= v <= 1 ->
  ray_to_plate_uv w i (plate_uv_to_ray w i u v) = (true, u, v).
Proof.
  intros F Hu Hv.
  set (p := zget (plates (globe w)) i default_plate) in *.
  pose proof (plate_dist_pos p F) as Hd.
  destruct F as [Hff Hrr Huu Hfr Hfu Hru _ _ Hdist].
  set (wv := VectorMA (VectorMA (VectorMA (Vec3 0 0 0) (dist p) (forward p))
                         (u - 0.5) (right p)) (- (v - 0.5)) (up p)).
  assert (Hwf : DotProduct (forward p) wv = dist p).
  { unfold wv. rewrite !DotProduct_VectorMA_r, DotProduct_zero_r, Hff, Hfr, Hfu. ring. }
  assert (Hwr : DotProduct (right p) wv = u - 0.5).
  { unfold wv. rewrite !DotProduct_VectorMA_r, DotProduct_zero_r.
    rewrite (DotProduct_comm (right p) (forward p)), Hfr, Hrr, Hru. ring. }
  assert (Hwu : DotProduct (up p) wv = - (v - 0.5)).
  { unfold wv. rewrite !DotProduct_VectorMA_r, DotProduct_zero_r.
    rewrite (DotProduct_comm (up p) (forward p)), Hfu.
    rewrite (DotProduct_comm (up p) (right p)), Hru, Huu. ring. }
  assert (Hww : DotProduct wv wv
                = dist p * dist p + (u - 0.5) * (u - 0.5) + (v - 0.5) * (v - 0.5)).
  { unfold wv at 1.
    rewrite !DotProduct_VectorMA_l, DotProduct_zero_l, Hwf, Hwr, Hwu. ring. }
  assert (Hlen : 0 < VectorLength wv).
  { unfold VectorLength. apply sqrt_lt_R0. rewrite Hww.
    assert (0 < dist p * dist p) by (apply Rmult_lt_0_compat; lra).
    pose proof (Rle_0_sqr (u - 0.5)) as Hsu.
    pose proof (Rle_0_sqr (v - 0.5)) as Hsv.
    unfold Rsqr in Hsu, Hsv. lra. }
  unfold ray_to_plate_uv, plate_uv_to_ray. fold p. fold wv.
  rewrite !DotProduct_VectorNormalize_r by lra.
  rewrite Hwf, Hwr, Hwu, <- Hdist.
  replace ((u - 0.5) / VectorLength wv / (dist p / VectorLength wv) * dist p + 0.5)
    with u by (field; lra).
  replace (- (- (v - 0.5) / VectorLength wv) / (dist p / VectorLength wv) * dist p + 0.5)
    with v by (field; lra).
  unfold Rleb.
  destruct (Rle_dec 0 u); [| lra]. destruct (Rle_dec u 1); [| lra].
  destruct (Rle_dec 0 v); [| lra]. destruct (Rle_dec v 1); [| lra].
  reflexivity.
Qed.

(* ------------------------------------------------------------------ *)
(** ** Loading a lens *)


(* ------------------------------------------------------------------ *)
(** ** Loading a globe *)

Lemma Rleb_false (x y : R) : y < x -> Rleb x y = false.
Proof. intros H. unfold Rleb. destruct (Rle_dec x y); [lra | reflexivity]. Qed.

Lemma Rleb_true (x y : R) : x <= y -> Rleb x y = true.
Proof. intros H. unfold Rleb. destruct (Rle_dec x y); [reflexivity | lra]. Qed.

Lemma Rltb_false (x y : R) : y <= x -> Rltb x y = false.
Proof. intros H. unfold Rltb. destruct (Rlt_dec x y); [lra | reflexivity]. Qed.

Lemma Rltb_true (x y : R) : x < y -> Rltb x y = true.
Proof. intros H. unfold Rltb. destruct (Rlt_dec x y); [reflexivity | lra]. Qed.

(** A plate entry of the right shape with a positive field of view is
    accepted, whatever the slot held. *)
Lemma load_plate_ok (f u : vec3_t) (deg : R) (p : plate_t) :
  0 < deg ->
  fst (load_plate (plate_entry f u deg) p) = PlateOk.
Proof.
  intros Hdeg. unfold load_plate, plate_entry, vec_entry. simpl.
  rewrite Rleb_false; [reflexivity |].
  unfold M_PI. pose proof PI_RGT_0.
  apply Rdiv_lt_0_compat; [apply Rmult_lt_0_compat; lra | lra].
Qed.

Lemma load_plates_ok (tbl : lua_value) (elems : list lua_value) :
  Forall (fun e => exists f u deg, 0 < deg /\ e = plate_entry f u deg) elems ->
  forall (i : Z) (ps : list plate_t),
    fst (fst (load_plates tbl elems i ps))
    = Some (i + Z.of_nat (List.length elems))%Z.
Proof.
  induction 1 as [| e rest (f & u & deg & Hdeg & ->) _ IH]; intros i ps.
  - simpl. f_equal. lia.
  - cbn [load_plates].
    pose proof (load_plate_ok f u deg (zget ps i default_plate) Hdeg) as Hok.
    destruct (load_plate (plate_entry f u deg) (zget ps i default_plate))
      as [r p]. simpl in Hok. subst r.
    rewrite IH. f_equal. cbn [List.length]. lia.
Qed.





(** C2 (the code at the failing input): a globe script whose [plates]
    holds seven well-formed entries is loaded as valid, with
    [numplates] = 7 > [MAX_PLATES]: the loop has no upper bound. *)
Theorem lua_globe_load_seven_plates (w : world) :
  let r := lua_globe_load (Some seven_plates_globe) w in
  fst r = 1%Z /\ numplates (globe (snd r)) = 7%Z
  /\ (MAX_PLATES < numplates (globe (snd r)))%Z.
Proof.
  assert (H : fst (fst (load_plates (LTable seven_plates) seven_plates 0
                          (plates (globe w)))) = Some 7%Z).
  { rewrite load_plates_ok; [reflexivity |].
    unfold seven_plates. repeat constructor; do 3 eexists;
      (split; [| reflexivity]); lra. }
  cbv zeta. unfold lua_globe_load, seven_plates_globe.
  cbn -[load_plates seven_plates].
  destruct (load_plates (LTable seven_plates) seven_plates 0 (plates (globe w)))
    as [[r ps] kept].
  simpl in H. subst r. cbn. unfold MAX_PLATES. repeat split; lia.
Qed.

(* ------------------------------------------------------------------ *)
(** ** The lens scale *)

Lemma sin_PI4_pos : 0 < sin (PI / 4).
Proof. pose proof PI_RGT_0. apply sin_gt_0; lra. Qed.

(** Away from the square viewport, a successful determination with an
    explicit FOV gives the scale of the specification: the coordinate
    left in the local by the probe of the axis [framesize] points to,
    which is then positive, over half the frame size. *)
Lemma determine_lens_scale_fov (x0 y0 : R) (w w' : world) :
  fit (fovs w) = 0%Z -> hfit (fovs w) = 0%Z -> vfit (fovs w) = 0%Z ->
  determine_lens_scale x0 y0 w = (1%Z, w') ->
  (framesize (fovs w) = FS_width_px -> (0 < width_px (lens w))%Z ->
   scale (lens w')
   = Rabs (snd (fst (lua_lens_forward w
                       (latlon_to_ray 0 (g_fov (fovs w) * 0.5)) x0 y0)))
     / (IZR (width_px (lens w)) * 0.5))
  /\
  (framesize (fovs w) = FS_height_px ->
   width_px (lens w) <> height_px (lens w) -> (0 < height_px (lens w))%Z ->
   scale (lens w')
   = Rabs (snd (lua_lens_forward w
                  (latlon_to_ray (g_fov (fovs w) * 0.5) 0) x0 y0))
     / (IZR (height_px (lens w)) * 0.5)).
Proof.
  intros Hfit Hhfit Hvfit H.
  unfold determine_lens_scale in H.
  change (fovs (with_scale w (-1))) with (fovs w) in H.
  change (lens_forward (lua_refs (with_scale w (-1))))
    with (lens_forward (lua_refs w)) in H.
  rewrite Hfit, Hhfit, Hvfit in H. cbn [Z.eqb andb] in H.
  destruct (Rleb (max_hfov (fovs w)) 0 || Rleb (max_vfov (fovs w)) 0);
    [discriminate |].
  assert (Hpos : forall c (d : Z) (w0 : world),
            (0 < d)%Z ->
            (if Rleb (scale (lens (with_scale w0 (c / (IZR d * 0.5))))) 0
             then (0%Z, with_scale w0 (c / (IZR d * 0.5)))
             else (1%Z, with_scale w0 (c / (IZR d * 0.5)))) = (1%Z, w') ->
            scale (lens w') = Rabs c / (IZR d * 0.5)).
  { intros c d w0 Hd E. cbn [scale lens with_scale with_lens] in E.
    unfold Rleb in E.
    destruct (Rle_dec (c / (IZR d * 0.5)) 0) as [Hle | Hgt]; [discriminate |].
    injection E as <-. cbn [scale lens with_scale with_lens].
    assert (0 < IZR d * 0.5) by (apply IZR_lt in Hd; lra).
    assert (0 < c).
    { apply Rnot_le_lt in Hgt.
      apply (Rmult_lt_compat_r (IZR d * 0.5)) in Hgt; [| assumption].
      rewrite Rmult_0_l in Hgt. unfold Rdiv in Hgt.
      rewrite Rmult_assoc, Rinv_l, Rmult_1_r in Hgt; lra. }
    rewrite Rabs_pos_eq by lra. reflexivity. }
  split.
  - intros Hfs Hw.
    unfold deref_framesize in H.
    change (framesize (fovs (with_scale w (-1)))) with (framesize (fovs w)) in H.
    rewrite Hfs in H.
    change (width_px (lens (with_scale w (-1)))) with (width_px (lens w)) in H.
    change (height_px (lens (with_scale w (-1)))) with (height_px (lens w)) in H.
    rewrite Z.eqb_refl in H. cbn [andb] in H.
    destruct (Rltb (max_hfov (fovs w)) (g_fov (fovs w))); [discriminate |].
    destruct ((height_px (lens w) =? width_px (lens w))%Z
              && Rltb (max_vfov (fovs w)) (g_fov (fovs w))); [discriminate |].
    destruct (negb (lens_forward (lua_refs w) =? -1)%Z); [| discriminate].
    change (lua_lens_forward (with_scale w (-1)))
      with (lua_lens_forward w) in H.
    destruct (lua_lens_forward w (latlon_to_ray 0 (g_fov (fovs w) * 0.5)) x0 y0)
      as [[status x] y].
    cbn [fst snd].
    destruct (negb (status =? 0)%Z); [| discriminate].
    apply (Hpos x (width_px (lens w)) _ Hw H).
  - intros Hfs Hne Hh.
    unfold deref_framesize in H.
    change (framesize (fovs (with_scale w (-1)))) with (framesize (fovs w)) in H.
    rewrite Hfs in H.
    change (width_px (lens (with_scale w (-1)))) with (width_px (lens w)) in H.
    change (height_px (lens (with_scale w (-1)))) with (height_px (lens w)) in H.
    rewrite Z.eqb_refl in H.
    replace (width_px (lens w) =? height_px (lens w))%Z with false in H
      by (symmetry; apply Z.eqb_neq; exact Hne).
    replace (height_px (lens w) =? width_px (lens w))%Z with false in H
      by (symmetry; apply Z.eqb_neq; congruence).
    cbn [andb] in H.
    destruct (Rltb (max_vfov (fovs w)) (g_fov (fovs w))); [discriminate |].
    destruct (negb (lens_forward (lua_refs w) =? -1)%Z); [| discriminate].
    change (lua_lens_forward (with_scale w (-1)))
      with (lua_lens_forward w) in H.
    destruct (lua_lens_forward w (latlon_to_ray (g_fov (fovs w) * 0.5) 0) x0 y0)
      as [[status x] y].
    cbn [fst snd].
    destruct (negb (status =? 0)%Z); [| discriminate].
    apply (Hpos y (height_px (lens w)) _ Hh H).
Qed.

(** C1 (the code at the failing input): with [vfov 90] on a square
    viewport the tests [*framesize == lens.width_px] compare the sizes,
    not the pointers, so the horizontal branch runs: the scale is the x
    coordinate of the probe [latlon_to_ray(0, fov/2)] over half the frame
    size, and it is not |y| of the probe [latlon_to_ray(fov/2, 0)] over
    half the frame size. *)
Theorem determine_lens_scale_square_vfov (x0 y0 : R) :
  let w := square_vfov_world in
  let r := determine_lens_scale x0 y0 w in
  let hprobe := lua_lens_forward w (latlon_to_ray 0 (g_fov (fovs w) * 0.5)) x0 y0 in
  let vprobe := lua_lens_forward w (latlon_to_ray (g_fov (fovs w) * 0.5) 0) x0 y0 in
  framesize (fovs w) = FS_height_px /\
  fst r = 1%Z /\
  scale (lens (snd r)) = snd (fst hprobe) / (IZR (deref_framesize w) * 0.5) /\
  scale (lens (snd r)) <> Rabs (snd vprobe) / (IZR (deref_framesize w) * 0.5).
Proof.
  pose proof PI_RGT_0 as Hpi. pose proof sin_PI4_pos as Hs.
  assert (Ha : 90 * M_PI / 180 * 0.5 = PI / 4) by (unfold M_PI; lra).
  cbv zeta.
  unfold determine_lens_scale, deref_framesize, with_scale, with_lens,
    square_vfov_world. simpl.
  rewrite !Rleb_false by (unfold M_PI; lra). simpl.
  rewrite !Rltb_false by (unfold M_PI; lra). simpl.
  unfold lua_lens_forward, latlon_to_ray. simpl.
  rewrite !Ha, ?cos_0, ?sin_0.
  rewrite Rleb_false by (apply Rdiv_lt_0_compat; lra).
  simpl. repeat split.
  rewrite Rabs_pos_eq by lra.
  intros E.
  assert (E' : 2 * (sin (PI / 4) * 1) = sin (PI / 4)).
  { apply (Rmult_eq_reg_r (/ (400 * 0.5))); [exact E | apply Rinv_neq_0_compat; lra]. }
  lra.
Qed.

(* ------------------------------------------------------------------ *)
(** ** What a build leaves alone *)

Lemma same_setup_refl (w : world) : same_setup w w.
Proof. unfold same_setup. repeat split. Qed.

Lemma same_setup_trans (w1 w2 w3 : world) :
  same_setup w1 w2 -> same_setup w2 w3 -> same_setup w1 w3.
Proof.
  unfold same_setup.
  intros (A1 & A2 & A3 & A4 & A5 & A6 & A7 & A8 & A9 & A10 & A11)
         (B1 & B2 & B3 & B4 & B5 & B6 & B7 & B8 & B9 & B10 & B11).
  repeat split; congruence.
Qed.

Lemma set_lensmap_grid_setup (w : world) (lx ly px py plate_index : Z) :
  same_setup w (set_lensmap_grid w lx ly px py plate_index).
Proof.
  unfold set_lensmap_grid. destruct (negb _); unfold same_setup; repeat split.
Qed.

Lemma set_lensmap_from_plate_setup (w : world) (lx ly px py plate_index : Z) :
  same_setup w (set_lensmap_from_plate w lx ly px py plate_index).
Proof.
  unfold set_lensmap_from_plate.
  destruct (_ || _ || _ || _)%bool; [apply same_setup_refl |].
  destruct (_ || _ || _ || _)%bool; [apply same_setup_refl |].
  eapply same_setup_trans; [| apply set_lensmap_grid_setup].
  unfold same_setup. repeat split.
Qed.

Lemma set_lensmap_from_plate_pixels_but (w : world) (lx ly px py plate_index : Z) :
  pixels_but (lx + ly * width_px (lens w))
    w (set_lensmap_from_plate w lx ly px py plate_index).
Proof.
  intros j Hj. unfold set_lensmap_from_plate.
  destruct (_ || _ || _ || _)%bool; [reflexivity |].
  destruct (_ || _ || _ || _)%bool; [reflexivity |].
  rewrite set_lensmap_grid_pixels. cbn.
  apply zget_zset_neq. unfold LENSPIXEL. cbn. congruence.
Qed.

Lemma ray_to_plate_index_setup (w : world) (ray : vec3_t) :
  same_setup w (snd (ray_to_plate_index w ray))
  /\ lens (snd (ray_to_plate_index w ray)) = lens w.
Proof.
  unfold ray_to_plate_index.
  destruct (negb _).
  - unfold lua_globe_plate.
    destruct (negb (lua_isnumber _)); cbn; split; try reflexivity;
      unfold same_setup; repeat split.
  - cbn. split; [apply same_setup_refl | reflexivity].
Qed.

Lemma set_lensmap_from_ray_setup (w : world) (lx ly : Z) (sx sy sz : R) :
  same_setup w (set_lensmap_from_ray w lx ly sx sy sz).
Proof.
  unfold set_lensmap_from_ray.
  pose proof (ray_to_plate_index_setup w (Vec3 sx sy sz)) as [H _].
  destruct (ray_to_plate_index w (Vec3 sx sy sz)) as [plate_index w1].
  cbn [snd] in H.
  destruct (plate_index <? 0)%Z; [exact H |].
  destruct (ray_to_plate_uv w1 plate_index (Vec3 sx sy sz)) as [[inside u] v].
  destruct (negb inside); [exact H |].
  eapply same_setup_trans; [exact H |].
  apply set_lensmap_from_plate_setup.
Qed.

Lemma set_lensmap_from_ray_pixels_but (w : world) (lx ly : Z) (sx sy sz : R) :
  pixels_but (lx + ly * width_px (lens w))
    w (set_lensmap_from_ray w lx ly sx sy sz).
Proof.
  unfold set_lensmap_from_ray.
  pose proof (ray_to_plate_index_setup w (Vec3 sx sy sz)) as [_ H].
  destruct (ray_to_plate_index w (Vec3 sx sy sz)) as [plate_index w1].
  cbn [snd] in H.
  destruct (plate_index <? 0)%Z; [intros j _; rewrite H; reflexivity |].
  destruct (ray_to_plate_uv w1 plate_index (Vec3 sx sy sz)) as [[inside u] v].
  destruct (negb inside); [intros j _; rewrite H; reflexivity |].
  intros j Hj. unfold set_lensmap_from_plate_uv.
  rewrite <- H in Hj |- *.
  apply set_lensmap_from_plate_pixels_but. exact Hj.
Qed.

(* ------------------------------------------------------------------ *)
(** ** The inverse builder *)


Lemma lua_lens_inverse_nil (w : world) (x y : R) (ray : vec3_t) :
  lua_call_ref (lua w) (lens_inverse (lua_refs w)) [x; y] = [LNil] ->
  lua_lens_inverse w x y ray = (0%Z, ray).
Proof. intros H. unfold lua_lens_inverse. rewrite H. reflexivity. Qed.

Lemma lua_lens_inverse_status (w : world) (x y : R) (ray : vec3_t) :
  let s := fst (lua_lens_inverse w x y ray) in
  s = 1%Z \/ s = 0%Z \/ s = (-1)%Z.
Proof.
  unfold lua_lens_inverse.
  destruct (lua_call_ref _ _ _) as [| a [| b [| c [| d rest]]]]; simpl; auto.
  - destruct (lua_isnil a); simpl; auto.
  - destruct (lua_isnumber a && lua_isnumber b && lua_isnumber c); simpl; auto.
Qed.



(** The row loop keeps the setup, and leaves alone every lens pixel
    that is none of its own ([skip]: a pixel of the row known to be
    skipped). *)
Lemma inverse_row_frame (n : nat) :
  forall (w : world) (ly : Z) (y : R) (lx : Z) (k : Z),
    (forall j, (lx <= j < lx + Z.of_nat n)%Z ->
       k = (j + ly * width_px (lens w))%Z ->
       lua_call_ref (lua w) (lens_inverse (lua_refs w))
         [IZR (j - Z.quot (width_px (lens w)) 2) * scale (lens w); y] = [LNil]) ->
    same_setup w (snd (inverse_row w ly y lx n)) /\
    zget (pixels (lens (snd (inverse_row w ly y lx n)))) k None
    = zget (pixels (lens w)) k None.
Proof.
  induction n as [| n IH]; intros w ly y lx k Hskip.
  - simpl. split; [apply same_setup_refl | reflexivity].
  - cbn [inverse_row].
    assert (Hrest : forall w1, same_setup w w1 ->
              forall j, (lx + 1 <= j < lx + 1 + Z.of_nat n)%Z ->
                k = (j + ly * width_px (lens w1))%Z ->
                lua_call_ref (lua w1) (lens_inverse (lua_refs w1))
                  [IZR (j - Z.quot (width_px (lens w1)) 2) * scale (lens w1); y]
                = [LNil]).
    { intros w1 (A1 & A2 & A3 & A4 & A5 & A6 & _) j Hj Hk.
      unfold lua_call_ref. rewrite A1, A2, A4, A5.
      apply (Hskip j); [lia | rewrite <- A5; exact Hk]. }
    destruct (Z.eq_dec k (lx + ly * width_px (lens w))) as [Hk | Hk].
    + (* the pixel at hand is the one known to be skipped *)
      rewrite lua_lens_inverse_nil by (apply (Hskip lx); [lia | exact Hk]).
      cbn [Z.eqb]. apply IH. apply Hrest, same_setup_refl.
    + pose proof (lua_lens_inverse_status w
                    (IZR (lx - Z.quot (width_px (lens w)) 2) * scale (lens w))
                    y (Vec3 0 0 0)) as Hst.
      destruct (lua_lens_inverse w _ y (Vec3 0 0 0)) as [status ray].
      cbn [fst] in Hst.
      destruct Hst as [-> | [-> | ->]]; cbn [Z.eqb Pos.eqb].
      * pose proof (set_lensmap_from_ray_setup w lx ly (c0 ray) (c1 ray) (c2 ray))
          as Hs.
        pose proof (set_lensmap_from_ray_pixels_but w lx ly (c0 ray) (c1 ray) (c2 ray))
          as Hp.
        destruct (IH (set_lensmap_from_ray w lx ly (c0 ray) (c1 ray) (c2 ray))
                     ly y (lx + 1)%Z k (Hrest _ Hs)) as [IH1 IH2].
        split; [eapply same_setup_trans; eassumption |].
        rewrite IH2. apply Hp. exact Hk.
      * apply IH. apply Hrest, same_setup_refl.
      * simpl. split; [apply same_setup_refl | reflexivity].
Qed.

Lemma inverse_row_setup (n : nat) (w : world) (ly : Z) (y : R) (lx : Z) :
  same_setup w (snd (inverse_row w ly y lx n)).
Proof.
  (* no pixel of the row has the index -1 - |ly * width| *)
  apply (inverse_row_frame n w ly y lx
           (lx - 1 + ly * width_px (lens w))%Z).
  intros j Hj Hk. lia.
Qed.

(** Resuming with the budget [a + b] is resuming with [a] and, when
    the builder is still working, resuming again with [b]. *)
Lemma inverse_rows_split (a b : nat) :
  forall (w : world) (n : nat),
    n = Z.to_nat (inverse_state_ly (lens_builder w) + 1) ->
    inverse_rows (a + b) w n
    = let '(working, w1) := inverse_rows a w n in
      if working then resume_lensmap_inverse b w1 else (false, w1).
Proof.
  induction a as [| a IH]; intros w n Hn.
  - cbn [Nat.add]. destruct n; cbn [inverse_rows].
    + destruct b; reflexivity.
    + unfold resume_lensmap_inverse. rewrite <- Hn. reflexivity.
  - destruct n; [reflexivity |]. cbn [inverse_rows Nat.add].
    pose proof (inverse_row_setup (Z.to_nat (width_px (lens w))) w
                  (inverse_state_ly (lens_builder w))
                  (IZR (- (inverse_state_ly (lens_builder w)
                           - Z.quot (height_px (lens w)) 2)) * scale (lens w))
                  0) as Hs.
    destruct (inverse_row w _ _ 0 (Z.to_nat (width_px (lens w)))) as [ok w1].
    cbn [snd] in Hs.
    destruct ok; [| reflexivity].
    apply IH. cbn. lia.
Qed.

Lemma resume_lensmap_inverse_split (a b : nat) (w : world) :
  resume_lensmap_inverse (a + b) w
  = let '(working, w1) := resume_lensmap_inverse a w in
    if working then resume_lensmap_inverse b w1 else (false, w1).
Proof. unfold resume_lensmap_inverse at 1 2. apply inverse_rows_split. reflexivity. Qed.


Lemma lens_pixel_index_inj (W lx ly lx' ly' : Z) :
  (0 <= lx < W)%Z -> (0 <= lx' < W)%Z ->
  (lx + ly * W = lx' + ly' * W)%Z -> lx = lx' /\ ly = ly'.
Proof.
  intros H1 H2 E.
  assert (ly = ly') by nia. subst ly'. split; [lia | reflexivity].
Qed.


Lemma compute_points_S (w : world) (plate_index : Z) (v : R) (p : row_ptr)
  (px : Z) (n : nat) :
  compute_points w plate_index v p px (S n)
  = let platesize := platesize (globe w) in
    let right_point (w : world) : bool * world :=
      let u := (IZR px + 0.5) / IZR platesize in
      let index := (2 * (px + 1))%Z in
      let '(status, w) := uv_to_screen_at w plate_index u v p index in
      if (status =? 0)%Z then compute_points w plate_index v p (px + 1)%Z n
      else if (status =? -1)%Z then (false, w)
      else compute_points w plate_index v p (px + 1)%Z n in
    if (px =? 0)%Z then
      let u := (IZR px - 0.5) / IZR platesize in
      let '(status, w) := uv_to_screen_at w plate_index u v p 0 in
      if (status =? 0)%Z then compute_points w plate_index v p (px + 1)%Z n
      else if (status =? -1)%Z then (false, w)
      else right_point w
    else right_point w.
Proof. reflexivity. Qed.

(* ------------------------------------------------------------------ *)
(** ** A malformed return in the forward builder *)




(** The scanline loops write the scanline buffers and nothing else. *)
Lemma uv_to_screen_at_rows_only (w : world) (i : Z) (u v : R) (p : row_ptr)
  (index : Z) :
  exists r, snd (uv_to_screen_at w i u v p index) = with_row w p r.
Proof.
  unfold uv_to_screen_at.
  destruct (row_point (row_of w p) index) as [lx0 ly0].
  destruct (uv_to_screen w i u v lx0 ly0) as [[status lx] ly].
  eexists. reflexivity.
Qed.


Lemma rows_only_refl (w : world) : rows_only w w.
Proof. repeat split. Qed.

Lemma rows_only_trans (w1 w2 w3 : world) :
  rows_only w1 w2 -> rows_only w2 w3 -> rows_only w1 w3.
Proof.
  unfold rows_only. intros H1 H2.
  decompose [and] H1. decompose [and] H2. repeat split; congruence.
Qed.

Lemma rows_only_with_row (w : world) (p : row_ptr) (r : list Z) :
  rows_only w (with_row w p r).
Proof. destruct p; repeat split. Qed.

Lemma uv_to_screen_at_rows (w : world) (i : Z) (u v : R) (p : row_ptr)
  (index : Z) :
  rows_only w (snd (uv_to_screen_at w i u v p index)).
Proof.
  destruct (uv_to_screen_at_rows_only w i u v p index) as [r ->].
  apply rows_only_with_row.
Qed.

Lemma compute_points_rows (n : nat) :
  forall (w : world) (i : Z) (v : R) (p : row_ptr) (px : Z),
    rows_only w (snd (compute_points w i v p px n)).
Proof.
  induction n as [| n IH]; intros w i v p px.
  - apply rows_only_refl.
  - rewrite compute_points_S. cbv zeta.
    assert (Hright : forall w0 : world,
              rows_only w w0 ->
              forall u index,
                let r := (let '(status, w1) := uv_to_screen_at w0 i u v p index in
                          if (status =? 0)%Z then compute_points w1 i v p (px + 1)%Z n
                          else if (status =? -1)%Z then (false, w1)
                          else compute_points w1 i v p (px + 1)%Z n) in
                rows_only w (snd r)).
    { intros w0 H0 u index.
      pose proof (uv_to_screen_at_rows w0 i u v p index) as Hr.
      destruct (uv_to_screen_at w0 i u v p index) as [status w1].
      cbn [snd] in Hr. cbv zeta.
      pose proof (IH w1 i v p (px + 1)%Z) as Hn.
      assert (H1 : rows_only w w1) by (eapply rows_only_trans; eassumption).
      destruct (status =? 0)%Z; [eapply rows_only_trans; eassumption |].
      destruct (status =? -1)%Z; [exact H1 | eapply rows_only_trans; eassumption]. }
    destruct (px =? 0)%Z; [| apply (Hright w); apply rows_only_refl].
    pose proof (uv_to_screen_at_rows w i
                  ((IZR px - 0.5) / IZR (platesize (globe w))) v p 0) as Hr.
    destruct (uv_to_screen_at w i _ v p 0) as [status w1].
    cbn [snd] in Hr.
    destruct (status =? 0)%Z.
    + eapply rows_only_trans; [exact Hr | apply IH].
    + destruct (status =? -1)%Z; [exact Hr |].
      apply (Hright w1). exact Hr.
Qed.











(* ------------------------------------------------------------------ *)
(** ** Time slicing of the inverse builder *)

(** With the rows that remain inside the budget the builder finishes,
    and how much larger the budget is does not matter. *)
Lemma inverse_rows_enough (n : nat) :
  forall (a b : nat) (w : world),
    (n <= a)%nat -> (n <= b)%nat ->
    inverse_rows a w n = inverse_rows b w n /\ fst (inverse_rows a w n) = false.
Proof.
  induction n as [| n IH]; intros a b w Ha Hb.
  - destruct a, b; split; reflexivity.
  - destruct a as [| a]; [lia |]. destruct b as [| b]; [lia |].
    cbn [inverse_rows].
    destruct (inverse_row w _ _ 0 (Z.to_nat (width_px (lens w)))) as [ok w1].
    destruct ok; [| split; reflexivity].
    apply IH; lia.
Qed.

Lemma inverse_rows_remaining (a : nat) :
  forall (w : world) (n : nat),
    n = Z.to_nat (inverse_state_ly (lens_builder w) + 1) ->
    (Z.to_nat (inverse_state_ly (lens_builder (snd (inverse_rows a w n))) + 1)
     <= n)%nat.
Proof.
  induction a as [| a IH]; intros w n Hn.
  - destruct n; cbn [inverse_rows snd]; lia.
  - destruct n; cbn [inverse_rows]; [cbn [snd]; lia |].
    pose proof (inverse_row_setup (Z.to_nat (width_px (lens w))) w
                  (inverse_state_ly (lens_builder w))
                  (IZR (- (inverse_state_ly (lens_builder w)
                           - Z.quot (height_px (lens w)) 2)) * scale (lens w))
                  0) as Hs.
    destruct (inverse_row w _ _ 0 (Z.to_nat (width_px (lens w)))) as [ok w1].
    cbn [snd] in Hs.
    destruct ok.
    + specialize (IH (with_inverse_ly w1 (inverse_state_ly (lens_builder w) - 1)) n
                     ltac:(cbn; lia)).
      lia.
    + cbn [snd].
      destruct Hs as (_ & _ & _ & _ & _ & _ & _ & _ & _ & _ & Hb).
      rewrite Hb. lia.
Qed.

(** The inverse builder resumes exactly: however the frames slice the
    work, once a frame's budget covers the rows that remain the state is
    the one a single uninterrupted call reaches. *)
Lemma resume_lensmap_inverse_slicing (budgets : list nat) :
  forall (big : nat) (w : world),
    (Z.to_nat (inverse_state_ly (lens_builder w) + 1) <= big)%nat ->
    resume_frames resume_lensmap_inverse (budgets ++ [big]) w
    = resume_lensmap_inverse big w
    /\ fst (resume_lensmap_inverse big w) = false.
Proof.
  induction budgets as [| b rest IH]; intros big w Hbig.
  - cbn [app resume_frames].
    destruct (inverse_rows_enough _ big big w Hbig Hbig) as [_ Hdone].
    fold (resume_lensmap_inverse big w) in Hdone.
    destruct (resume_lensmap_inverse big w) as [working w1].
    cbn [fst] in Hdone. subst working. split; reflexivity.
  - cbn [app resume_frames].
    destruct (inverse_rows_enough _ big (b + big) w Hbig ltac:(lia)) as [Heq Hdone].
    fold (resume_lensmap_inverse big w) in Heq, Hdone.
    fold (resume_lensmap_inverse (b + big) w) in Heq.
    split; [| exact Hdone].
    rewrite Heq, resume_lensmap_inverse_split.
    pose proof (inverse_rows_remaining b w _ eq_refl) as Hrem.
    fold (resume_lensmap_inverse b w) in Hrem.
    destruct (resume_lensmap_inverse b w) as [working w1].
    cbn [snd] in Hrem.
    destruct working; [| reflexivity].
    apply IH. lia.
Qed.

(* ------------------------------------------------------------------ *)
(** ** The forward builder: what the drawing does to the lens map *)

Lemma same_frames_refl (w : world) : same_frames w w.
Proof. intros i. cbv zeta. repeat split. Qed.

Lemma same_frames_trans (w1 w2 w3 : world) :
  same_frames w1 w2 -> same_frames w2 w3 -> same_frames w1 w3.
Proof.
  intros A B i. specialize (A i). specialize (B i). cbv zeta in *.
  destruct A as (A1 & A2 & A3 & A4 & A5), B as (B1 & B2 & B3 & B4 & B5).
  repeat split; congruence.
Qed.

Lemma zget_list_set_cases {A : Type} (l : list A) (i j : Z) (v d : A) :
  zget (zset l i v) j d = v \/ zget (zset l i v) j d = zget l j d.
Proof.
  destruct (Z.eq_dec i j) as [<- | Hne].
  - destruct (Z_lt_dec i 0) as [Hn | Hn].
    + right. unfold zset. destruct (i <? 0)%Z eqn:E; [reflexivity |].
      apply Z.ltb_ge in E. lia.
    + destruct (Z_lt_dec i (Z.of_nat (List.length l))) as [Hl | Hl].
      * left. apply zget_zset_eq. lia.
      * right. unfold zget, zset.
        destruct (i <? 0)%Z; [reflexivity |].
        assert (Hlen : (List.length l <= Z.to_nat i)%nat) by lia.
        rewrite !nth_overflow; [reflexivity | exact Hlen |].
        rewrite length_list_set. exact Hlen.
  - right. apply zget_zset_neq. exact Hne.
Qed.

Lemma set_lensmap_from_plate_frames (w : world) (lx ly px py plate_index : Z) :
  same_frames w (set_lensmap_from_plate w lx ly px py plate_index).
Proof.
  unfold set_lensmap_from_plate.
  destruct (_ || _ || _ || _)%bool; [apply same_frames_refl |].
  destruct (_ || _ || _ || _)%bool; [apply same_frames_refl |].
  intros i. cbv zeta. rewrite set_lensmap_grid_globe. cbn.
  destruct (zget_list_set_cases (plates (globe w)) plate_index i
              (set_display (zget (plates (globe w)) plate_index default_plate) 1)
              default_plate) as [E | E]; rewrite E.
  - destruct (Z.eq_dec plate_index i) as [<- | Hne].
    + repeat split.
    + rewrite zget_zset_neq in E by exact Hne. rewrite <- E. repeat split.
  - repeat split.
Qed.

Lemma set_lensmap_from_plate_px (w : world) (lx ly px py plate_index : Z) :
  pixels (lens (set_lensmap_from_plate w lx ly px py plate_index))
  = px_set (width_px (lens w)) (height_px (lens w)) (platesize (globe w))
      (pixels (lens w)) lx ly px py plate_index.
Proof.
  unfold set_lensmap_from_plate, px_set.
  destruct (_ || _ || _ || _)%bool; [reflexivity |].
  destruct (_ || _ || _ || _)%bool; [reflexivity |].
  rewrite set_lensmap_grid_pixels. reflexivity.
Qed.

Lemma keeps_refl (w : world) : keeps w w.
Proof. repeat split; try apply same_frames_refl. Qed.

Lemma keeps_trans (w1 w2 w3 : world) : keeps w1 w2 -> keeps w2 w3 -> keeps w1 w3.
Proof.
  intros (A1 & A2 & A3) (B1 & B2 & B3). split; [| split].
  - eapply same_setup_trans; eassumption.
  - eapply same_frames_trans; eassumption.
  - congruence.
Qed.

Lemma set_lensmap_from_plate_keeps (w : world) (lx ly px py plate_index : Z) :
  keeps w (set_lensmap_from_plate w lx ly px py plate_index).
Proof.
  split; [apply set_lensmap_from_plate_setup |].
  split; [apply set_lensmap_from_plate_frames |].
  unfold set_lensmap_from_plate.
  destruct (_ || _ || _ || _)%bool; [reflexivity |].
  destruct (_ || _ || _ || _)%bool; [reflexivity |].
  unfold set_lensmap_grid. destruct (negb _); reflexivity.
Qed.

Lemma keeps_dims (w w' : world) :
  keeps w w' ->
  width_px (lens w') = width_px (lens w) /\
  height_px (lens w') = height_px (lens w) /\
  platesize (globe w') = platesize (globe w).
Proof.
  intros ((_ & _ & _ & _ & A5 & A6 & _ & A8 & _) & _). auto.
Qed.

Lemma fill_hline_px (n : nat) :
  forall (w : world) (x y px py plate_index : Z),
    keeps w (fill_hline w x y n px py plate_index) /\
    pixels (lens (fill_hline w x y n px py plate_index))
    = px_hline (width_px (lens w)) (height_px (lens w)) (platesize (globe w))
        (pixels (lens w)) x y n px py plate_index.
Proof.
  induction n as [| n IH]; intros w x y px py plate_index.
  - split; [apply keeps_refl | reflexivity].
  - cbn [fill_hline px_hline].
    pose proof (set_lensmap_from_plate_keeps w x y px py plate_index) as K.
    destruct (keeps_dims _ _ K) as (E1 & E2 & E3).
    destruct (IH (set_lensmap_from_plate w x y px py plate_index)
                 (x + 1)%Z y px py plate_index) as [K' P'].
    split; [eapply keeps_trans; eassumption |].
    rewrite P', E1, E2, E3, set_lensmap_from_plate_px. reflexivity.
Qed.

Lemma fill_vline_px (n : nat) :
  forall (w : world) (x y px py plate_index : Z),
    keeps w (fill_vline w x y n px py plate_index) /\
    pixels (lens (fill_vline w x y n px py plate_index))
    = px_vline (width_px (lens w)) (height_px (lens w)) (platesize (globe w))
        (pixels (lens w)) x y n px py plate_index.
Proof.
  induction n as [| n IH]; intros w x y px py plate_index.
  - split; [apply keeps_refl | reflexivity].
  - cbn [fill_vline px_vline].
    pose proof (set_lensmap_from_plate_keeps w x y px py plate_index) as K.
    destruct (keeps_dims _ _ K) as (E1 & E2 & E3).
    destruct (IH (set_lensmap_from_plate w x y px py plate_index)
                 x (y + 1)%Z px py plate_index) as [K' P'].
    split; [eapply keeps_trans; eassumption |].
    rewrite P', E1, E2, E3, set_lensmap_from_plate_px. reflexivity.
Qed.

Lemma fill_quad_px (n : nat) :
  forall (w : world) (p : list (Z * Z)) (minx maxx y px py plate_index : Z),
    keeps w (fill_quad w p minx maxx y n px py plate_index) /\
    pixels (lens (fill_quad w p minx maxx y n px py plate_index))
    = px_quad (width_px (lens w)) (height_px (lens w)) (platesize (globe w))
        (pixels (lens w)) p minx maxx y n px py plate_index.
Proof.
  induction n as [| n IH]; intros w p minx maxx y px py plate_index.
  - split; [apply keeps_refl | reflexivity].
  - cbn [fill_quad px_quad]. cbv zeta.
    destruct (maxdiff <? _)%Z; [split; [apply keeps_refl | reflexivity] |].
    match goal with
    | |- context [fill_hline w ?a y ?m px py plate_index] =>
        destruct (fill_hline_px m w a y px py plate_index) as [K P];
        destruct (IH (fill_hline w a y m px py plate_index) p minx maxx
                     (y + 1)%Z px py plate_index) as [K' P']
    end.
    destruct (keeps_dims _ _ K) as (E1 & E2 & E3).
    split; [eapply keeps_trans; eassumption |].
    rewrite P', E1, E2, E3, P. reflexivity.
Qed.

Lemma drawQuad_px (w : world) (tl tr bl br : Z * Z) (plate_index px py : Z) :
  keeps w (drawQuad w tl tr bl br plate_index px py) /\
  pixels (lens (drawQuad w tl tr bl br plate_index px py))
  = px_drawQuad (width_px (lens w)) (height_px (lens w)) (platesize (globe w))
      (pixels (lens w)) tl tr bl br plate_index px py.
Proof.
  unfold drawQuad, px_drawQuad. cbv zeta.
  destruct (_ || _)%bool; [split; [apply keeps_refl | reflexivity] |].
  destruct (_ && _)%bool.
  { split; [apply set_lensmap_from_plate_keeps | apply set_lensmap_from_plate_px]. }
  destruct (_ =? _)%Z; [apply fill_hline_px |].
  destruct (_ =? _)%Z; [apply fill_vline_px |].
  apply fill_quad_px.
Qed.

Lemma ray_to_plate_index_single (w : world) (ray : vec3_t) :
  globe_plate (lua_refs w) = (-1)%Z -> numplates (globe w) = 1%Z ->
  ray_to_plate_index w ray = (0%Z, w).
Proof.
  intros Href Hn. unfold ray_to_plate_index. rewrite Href, Hn.
  change (Z.to_nat 1) with 1%nat. cbn.
  destruct (Rltb _ _); reflexivity.
Qed.

Lemma keeps_rows (w w' : world) (p : row_ptr) :
  keeps w w' -> row_of w' p = row_of w p.
Proof.
  intros ((_ & _ & _ & _ & _ & _ & _ & _ & _ & _ & A) & _).
  unfold row_of. rewrite A. reflexivity.
Qed.

Lemma draw_row_px (n : nat) :
  forall (w : world) (top bot : row_ptr) (py px : Z),
    globe_plate (lua_refs w) = (-1)%Z -> numplates (globe w) = 1%Z ->
    keeps w (draw_row w top bot 0 py px n) /\
    pixels (lens (draw_row w top bot 0 py px n))
    = px_draw_row (width_px (lens w)) (height_px (lens w)) (platesize (globe w))
        (pixels (lens w)) (row_of w top) (row_of w bot) 0 py px n.
Proof.
  induction n as [| n IH]; intros w top bot py px Href Hn.
  - split; [apply keeps_refl | reflexivity].
  - cbn [draw_row px_draw_row]. cbv zeta.
    rewrite ray_to_plate_index_single by assumption. cbn [Z.eqb negb].
    match goal with
    | |- context [drawQuad w ?a ?b ?c ?d 0 px py] =>
        destruct (drawQuad_px w a b c d 0 px py) as [K P];
        set (w1 := drawQuad w a b c d 0 px py) in *
    end.
    destruct (keeps_dims _ _ K) as (E1 & E2 & E3).
    pose proof K as ((K1 & _ & _ & _ & _ & _ & K7 & _) & _).
    destruct (IH w1 top bot py (px + 1)%Z) as [K' P'];
      [congruence | congruence |].
    split; [eapply keeps_trans; eassumption |].
    rewrite P', E1, E2, E3, P, !(keeps_rows _ _ _ K). reflexivity.
Qed.

(* ------------------------------------------------------------------ *)
(** ** The forward builder on [slicing_world] *)

Lemma double_to_int_IZR (k : Z) : double_to_int (IZR k) = k.
Proof.
  unfold double_to_int. destruct (Rle_dec 0 (IZR k)).
  - apply ZfloorZ.
  - unfold Zceil. rewrite ZfloorNZ. lia.
Qed.

Lemma double_to_int_pos (x : R) (k : Z) :
  0 <= x -> IZR k <= x < IZR k + 1 -> double_to_int x = k.
Proof.
  intros H0 Hk. unfold double_to_int.
  destruct (Rle_dec 0 x); [| contradiction]. apply Zfloor_eq, Hk.
Qed.

Lemma double_to_int_neg (x : R) (k : Z) :
  x < 0 -> IZR k - 1 < x <= IZR k -> double_to_int x = k.
Proof.
  intros H0 Hk. unfold double_to_int.
  destruct (Rle_dec 0 x); [lra |]. apply Zceil_eq, Hk.
Qed.

(** The screen rows of the four heights the builder samples. *)
Lemma slicing_upper_row (py : Z) :
  (0 <= py <= 2)%Z ->
  double_to_int (15 / 4 * ((IZR py - 0.5) / IZR 3 - 0.5) + 1) = (py - 1)%Z.
Proof.
  intros H.
  assert (C : py = 0%Z \/ py = 1%Z \/ py = 2%Z) by lia.
  destruct C as [-> | [-> | ->]].
  - apply double_to_int_neg; cbn [Z.sub Z.opp Z.add]; lra.
  - apply double_to_int_neg; cbn [Z.sub Z.opp Z.add Z.pos_sub]; lra.
  - apply double_to_int_pos; cbn [Z.sub Z.opp Z.add Z.pos_sub Pos.pred_double]; lra.
Qed.

Lemma slicing_lower_row :
  double_to_int (15 / 4 * ((IZR 2 + 0.5) / IZR 3 - 0.5) + 1) = 2%Z.
Proof. apply double_to_int_pos; lra. Qed.

Lemma front_plate_dist : 0.5 / tan (90 * M_PI / 180 / 2) = 1 / 2.
Proof.
  replace (90 * M_PI / 180 / 2) with (PI / 4) by (unfold M_PI; lra).
  rewrite tan_PI4. lra.
Qed.

Lemma slicing_like_keeps (w w' : world) :
  slicing_like w -> keeps w w' -> slicing_like w'.
Proof.
  intros (A1 & A2 & A3 & A4 & A5 & A6 & A7 & A8) (S & F & L).
  destruct S as (S1 & S2 & S3 & S4 & S5 & S6 & S7 & S8 & _).
  specialize (F 0%Z). cbv zeta in F, A5.
  destruct F as (F1 & F2 & F3 & F4 & F5).
  destruct A5 as (G1 & G2 & G3 & G4).
  unfold slicing_like. cbv zeta.
  repeat split; congruence.
Qed.

(** The screen point of a sample at height [v]: the centre column, at
    the row [(int)(15/4 (v - 1/2) + 1)]. *)
Lemma uv_to_screen_slicing (w : world) (u v : R) (k lx ly : Z) :
  slicing_like w ->
  double_to_int (15 / 4 * (v - 0.5) + 1) = k ->
  uv_to_screen w 0 u v lx ly = (1%Z, 1%Z, k).
Proof.
  intros (A1 & A2 & A3 & A4 & A5 & A6 & A7 & A8) Hv.
  cbv zeta in A5. destruct A5 as (G1 & G2 & G3 & G4).
  unfold uv_to_screen, lua_lens_forward, plate_uv_to_ray, lua_call_ref.
  rewrite A1, A2, A6, A7, A8, G1, G2, G3, G4, front_plate_dist.
  set (wv := VectorMA (VectorMA (VectorMA (Vec3 0 0 0) (1 / 2) (Vec3 0 0 1))
                         (u - 0.5) (Vec3 1 0 0)) (- (v - 0.5)) (Vec3 0 1 0)).
  assert (Hlen : VectorLength wv <> 0).
  { unfold VectorLength. apply Rgt_not_eq, sqrt_lt_R0.
    unfold wv, DotProduct, VectorMA; cbn [c0 c1 c2].
    pose proof (Rle_0_sqr (u - 0.5)) as Hsu.
    pose proof (Rle_0_sqr (v - 0.5)) as Hsv.
    unfold Rsqr in Hsu, Hsv. nra. }
  assert (Hratio : c1 (VectorNormalize wv) / c2 (VectorNormalize wv)
                   = - (2 * (v - 0.5))).
  { unfold VectorNormalize.
    destruct (Req_dec_T (VectorLength wv) 0) as [E | _]; [contradiction |].
    cbn [c1 c2]. unfold wv, VectorMA; cbn [c0 c1 c2]. field. exact Hlen. }
  cbn -[VectorNormalize wv Z.quot].
  rewrite Hratio.
  replace (0 / (8 / 15) + IZR (3 ÷ 2)) with (IZR 1)
    by (change (3 ÷ 2)%Z with 1%Z; lra).
  replace (- - (2 * (v - 0.5)) / (8 / 15) + IZR (3 ÷ 2))
    with (15 / 4 * (v - 0.5) + 1)
    by (change (3 ÷ 2)%Z with 1%Z; lra).
  rewrite double_to_int_IZR, Hv. reflexivity.
Qed.

Lemma slicing_like_with_row (w : world) (p : row_ptr) (r : list Z) :
  slicing_like w -> slicing_like (with_row w p r).
Proof. intros H. destruct p; exact H. Qed.

Lemma slicing_like_with_forward_cursor (w : world) (i py : Z) :
  slicing_like w -> slicing_like (with_forward_cursor w i py).
Proof. intros H. exact H. Qed.

Lemma row_of_with_row_same (w : world) (p : row_ptr) (r : list Z) :
  row_of (with_row w p r) p = r.
Proof. destruct p; reflexivity. Qed.

Lemma row_of_with_row_other (w : world) (p q : row_ptr) (r : list Z) :
  p <> q -> row_of (with_row w p r) q = row_of w q.
Proof. intros H. destruct p, q; try reflexivity; contradiction. Qed.

Lemma with_row_with_row (w : world) (p : row_ptr) (r r' : list Z) :
  with_row (with_row w p r) p r' = with_row w p r'.
Proof. destruct p; reflexivity. Qed.

Lemma uv_to_screen_at_slicing (w : world) (u v : R) (k : Z) (p : row_ptr)
  (index : Z) :
  slicing_like w ->
  double_to_int (15 / 4 * (v - 0.5) + 1) = k ->
  uv_to_screen_at w 0 u v p index
  = (1%Z, with_row w p (zset (zset (row_of w p) index 1%Z) (index + 1) k)).
Proof.
  intros L Hv. unfold uv_to_screen_at.
  destruct (row_point (row_of w p) index) as [lx0 ly0].
  rewrite (uv_to_screen_slicing w u v k lx0 ly0 L Hv). reflexivity.
Qed.

Lemma compute_points_slicing (w : world) (v : R) (k : Z) (p : row_ptr) :
  slicing_like w ->
  double_to_int (15 / 4 * (v - 0.5) + 1) = k ->
  List.length (row_of w p) = 8%nat ->
  compute_points w 0 v p 0 3 = (true, with_row w p (column_row k)).
Proof.
  intros L Hv Hlen.
  destruct (row_of w p) as [| a0 [| a1 [| a2 [| a3 [| a4 [| a5 [| a6 [| a7 [| a8 r]]]]]]]]]
    eqn:Hrow; try discriminate Hlen.
  rewrite compute_points_S. cbn [Z.eqb].
  rewrite (uv_to_screen_at_slicing w _ v k p 0 L Hv).
  cbn [Z.eqb Pos.eqb].
  rewrite uv_to_screen_at_slicing with (k := k);
    [| apply slicing_like_with_row; exact L | exact Hv].
  cbn [Z.eqb Pos.eqb].
  rewrite with_row_with_row, row_of_with_row_same.
  change (0 + 1)%Z with 1%Z.
  rewrite compute_points_S. cbn [Z.eqb Pos.eqb].
  rewrite uv_to_screen_at_slicing with (k := k);
    [| apply slicing_like_with_row; exact L | exact Hv].
  cbn [Z.eqb Pos.eqb].
  rewrite with_row_with_row, row_of_with_row_same.
  change (1 + 1)%Z with 2%Z.
  rewrite compute_points_S. cbn [Z.eqb Pos.eqb].
  rewrite uv_to_screen_at_slicing with (k := k);
    [| apply slicing_like_with_row; exact L | exact Hv].
  cbn [Z.eqb Pos.eqb compute_points].
  rewrite with_row_with_row, row_of_with_row_same, Hrow.
  reflexivity.
Qed.

(** One turn of the row loop on [slicing_world]: the lower points are
    sampled on the first row of a plate and taken from the other buffer
    on the later rows; the upper points are sampled; the row is drawn. *)
Lemma forward_row_slicing (w : world) (top bot : row_ptr) (py : Z) :
  slicing_like w ->
  (0 <= py <= 2)%Z ->
  forward_state_plate_index (lens_builder w) = 0%Z ->
  forward_state_py (lens_builder w) = py ->
  List.length (row_of w top) = 8%nat ->
  List.length (row_of w bot) = 8%nat ->
  let first := (py =? 2)%Z in
  let top' := if first then top else bot in
  let bot' := if first then bot else top in
  let w1 := if first then with_row w bot (column_row py) else w in
  let w2 := with_row w1 top' (column_row (py - 1)) in
  forward_row w top bot = (true, draw_row w2 top' bot' 0 py 0 3, top', bot').
Proof.
  intros L Hr Hi Hpy Ht Hb first top' bot' w1 w2.
  pose proof L as (_ & _ & _ & HP & _).
  pose proof (slicing_upper_row py Hr) as Hup.
  unfold forward_row. rewrite Hi, Hpy, HP.
  change (3 - 1)%Z with 2%Z. change (Z.to_nat 3) with 3%nat.
  subst w2 w1 top' bot' first.
  destruct (py =? 2)%Z eqn:E.
  - apply Z.eqb_eq in E. rewrite E in Hup |- *.
    rewrite (compute_points_slicing w _ 2 bot L slicing_lower_row) by trivial.
    cbn [negb].
    rewrite (compute_points_slicing _ _ (2 - 1) top)
      by (trivial; try apply slicing_like_with_row; trivial;
          destruct top, bot; trivial).
    reflexivity.
  - cbn [negb].
    rewrite (compute_points_slicing w _ (py - 1) bot L) by trivial.
    reflexivity.
Qed.

Lemma forward_rows_slicing (b n : nat) (w : world) (top bot : row_ptr)
  (py : Z) (rt rb : list Z) (pix : list (option Z)) :
  row_state w top bot py rt rb pix ->
  (0 <= py <= 2)%Z ->
  List.length rt = 8%nat -> List.length rb = 8%nat ->
  let first := (py =? 2)%Z in
  let top' := if first then top else bot in
  let bot' := if first then bot else top in
  let rt' := column_row (py - 1) in
  let rb' := if first then column_row py else rt in
  exists w',
    forward_rows (S b) w top bot (S n) = forward_rows b w' top' bot' n /\
    row_state w' top' bot' (py - 1) rt' rb'
      (px_draw_row 3 3 3 pix rt' rb' 0 py 0 3).
Proof.
  intros [L Hst Hsb Hi Hpy Hd Hrt Hrb Hpix] Hr Ht Hb first top' bot' rt' rb'.
  pose proof (forward_row_slicing w top bot py L Hr Hi Hpy
                ltac:(rewrite Hrt; exact Ht) ltac:(rewrite Hrb; exact Hb)) as Hrow.
  cbv zeta in Hrow. fold first in Hrow. fold top' in Hrow. fold bot' in Hrow.
  set (w1 := if first then with_row w bot (column_row py) else w) in Hrow.
  set (w2 := with_row w1 top' (column_row (py - 1))) in Hrow.
  assert (L2 : slicing_like w2).
  { unfold w2, w1. apply slicing_like_with_row.
    destruct first; [apply slicing_like_with_row |]; exact L. }
  pose proof L2 as (_ & R2 & N2 & P2 & _ & _ & W2 & H2).
  destruct (draw_row_px 3 w2 top' bot' py 0 ltac:(rewrite R2; reflexivity) N2)
    as [K P].
  set (wd := draw_row w2 top' bot' 0 py 0 3) in *.
  assert (Hrt2 : row_of w2 top' = rt') by (apply row_of_with_row_same).
  assert (Hrb2 : row_of w2 bot' = rb').
  { unfold w2. rewrite row_of_with_row_other.
    - unfold w1, bot', rb'. destruct first.
      + apply row_of_with_row_same.
      + exact Hrt.
    - unfold top', bot'. destruct first; congruence. }
  assert (Hb2 : lens_builder wd = lens_builder w2).
  { destruct K as ((_ & _ & _ & _ & _ & _ & _ & _ & _ & _ & A) & _). exact A. }
  assert (Hcur : forward_state_top (lens_builder w2) = RowA /\
                 forward_state_bot (lens_builder w2) = RowB /\
                 forward_state_plate_index (lens_builder w2) = 0%Z /\
                 forward_state_py (lens_builder w2) = py).
  { unfold w2, w1. destruct first, top', bot; cbn; auto. }
  destruct Hcur as (C1 & C2 & C3 & C4).
  assert (Hpix2 : pixels (lens w2) = pix).
  { rewrite <- Hpix. unfold w2, w1. destruct first, top', bot; reflexivity. }
  clearbody wd w2.
  exists (with_forward_cursor wd 0 (py - 1)).
  split.
  - cbn [forward_rows]. rewrite Hrow. cbn [negb].
    rewrite Hb2, C3, C4. reflexivity.
  - constructor.
    + apply slicing_like_with_forward_cursor.
      eapply slicing_like_keeps; eassumption.
    + cbn. rewrite Hb2. exact C1.
    + cbn. rewrite Hb2. exact C2.
    + reflexivity.
    + reflexivity.
    + unfold top', bot'. destruct first; congruence.
    + change (row_of wd top' = rt'). rewrite (keeps_rows _ _ _ K). exact Hrt2.
    + change (row_of wd bot' = rb'). rewrite (keeps_rows _ _ _ K). exact Hrb2.
    + change (pixels (lens wd) = px_draw_row 3 3 3 pix rt' rb' 0 py 0 3).
      rewrite P, W2, H2, P2, Hrt2, Hrb2, Hpix2. reflexivity.
Qed.

Lemma row_state_start :
  row_state (forward_state_init (repeat 0%Z 8) (repeat 0%Z 8) slicing_world)
    RowA RowB 2 (repeat 0%Z 8) (repeat 0%Z 8) (blank_pixels 9).
Proof.
  constructor; try reflexivity; try discriminate.
  unfold slicing_like. cbv zeta. repeat split.
Qed.

(** C5 (the code at the failing input): on [slicing_world] (one plate of
    3 by 3 texels, a viewport of 3 by 3 pixels) the forward build run in
    one call and the same build paused once, before the last row of the
    plate, both finish, with different lens maps: the lens pixel (1,1)
    points to texel (2,1) after the single call and to texel (2,0) after
    the paused build.  The swap of [top] and [bot] is made on locals that
    every call reloads from [forward_state]. *)
Theorem forward_build_slicing_differs :
  let w0 := forward_state_init (repeat 0%Z 8) (repeat 0%Z 8) slicing_world in
  let one := resume_frames resume_lensmap_forward [3%nat] w0 in
  let sliced := resume_frames resume_lensmap_forward [2%nat; 3%nat] w0 in
  fst one = false /\ fst sliced = false /\
  pixels (lens (snd one))
  = [None; Some 2%Z; None; None; Some 5%Z; None; None; Some 8%Z; None] /\
  pixels (lens (snd sliced))
  = [None; Some 2%Z; None; None; Some 2%Z; None; None; Some 8%Z; None].
Proof.
  pose proof row_state_start as R0.
  set (w0 := forward_state_init (repeat 0%Z 8) (repeat 0%Z 8) slicing_world) in *.
  assert (Htop : forward_state_top (lens_builder w0) = RowA) by reflexivity.
  assert (Hbot : forward_state_bot (lens_builder w0) = RowB) by reflexivity.
  assert (Hm : Z.to_nat (numplates (globe w0)
                         - forward_state_plate_index (lens_builder w0)) = 1%nat)
    by reflexivity.
  assert (Hrows : Z.to_nat (forward_state_py (lens_builder w0) + 1) = 3%nat)
    by reflexivity.
  cbv zeta. cbn [resume_frames].
  (* the single call: three rows *)
  assert (Hone : exists w,
             resume_lensmap_forward 3 w0 = (false, w) /\
             pixels (lens w)
             = [None; Some 2%Z; None; None; Some 5%Z; None; None; Some 8%Z; None]).
  { destruct (forward_rows_slicing 2 2 w0 RowA RowB 2 _ _ _ R0 ltac:(lia) eq_refl eq_refl)
      as (w1 & E1 & R1).
    destruct (forward_rows_slicing 1 1 w1 RowA RowB (2 - 1) _ _ _ R1 ltac:(lia) eq_refl eq_refl)
      as (w2 & E2 & R2).
    destruct (forward_rows_slicing 0 0 w2 RowB RowA (2 - 1 - 1) _ _ _ R2 ltac:(lia)
                eq_refl eq_refl) as (w3 & E3 & R3).
    cbn [Z.eqb Pos.eqb Z.sub Z.pos_sub Z.add Z.opp Pos.pred_double
         Z.succ_double Z.pred_double Z.double] in E1, E2, E3, R3.
    eexists. split.
    - unfold resume_lensmap_forward. rewrite Htop, Hbot, Hm.
      cbn [forward_plates]. rewrite Hrows, E1, E2, E3.
      cbn [forward_rows forward_plates]. reflexivity.
    - cbn. rewrite (rs_pixels _ _ _ _ _ _ _ R3). vm_compute. reflexivity. }
  (* the paused build: two rows, then the last row in a second call *)
  assert (Hsliced : exists w w',
             resume_lensmap_forward 2 w0 = (true, w) /\
             resume_lensmap_forward 3 w = (false, w') /\
             pixels (lens w')
             = [None; Some 2%Z; None; None; Some 2%Z; None; None; Some 8%Z; None]).
  { destruct (forward_rows_slicing 1 2 w0 RowA RowB 2 _ _ _ R0 ltac:(lia) eq_refl eq_refl)
      as (w1 & E1 & R1).
    destruct (forward_rows_slicing 0 1 w1 RowA RowB (2 - 1) _ _ _ R1 ltac:(lia) eq_refl eq_refl)
      as (w2 & E2 & R2).
    cbn [Z.eqb Pos.eqb Z.sub Z.pos_sub Z.add Z.opp Pos.pred_double
         Z.succ_double Z.pred_double Z.double] in E1, E2, R2.
    assert (R2' : row_state w2 RowA RowB 0 (column_row 1) (column_row 0)
                    (px_draw_row 3 3 3
                       (px_draw_row 3 3 3 (blank_pixels 9) (column_row 1)
                          (column_row 2) 0 2 0 3)
                       (column_row 0) (column_row 1) 0 1 0 3)).
    { destruct R2. constructor; try assumption. discriminate. }
    destruct (forward_rows_slicing 2 0 w2 RowA RowB 0 _ _ _ R2' ltac:(lia) eq_refl eq_refl)
      as (w3 & E3 & R3).
    cbn [Z.eqb Pos.eqb Z.sub Z.pos_sub Z.add Z.opp Pos.pred_double
         Z.succ_double Z.pred_double Z.double] in E3, R3.
    exists w2. eexists. split; [| split].
    - unfold resume_lensmap_forward. rewrite Htop, Hbot, Hm.
      cbn [forward_plates]. rewrite Hrows, E1, E2.
      cbn [forward_rows]. reflexivity.
    - unfold resume_lensmap_forward.
      rewrite (rs_saved_top _ _ _ _ _ _ _ R2'), (rs_saved_bot _ _ _ _ _ _ _ R2').
      pose proof (rs_like _ _ _ _ _ _ _ R2') as (_ & _ & N & _).
      rewrite N, (rs_plate _ _ _ _ _ _ _ R2').
      change (Z.to_nat (1 - 0)) with 1%nat.
      cbn [forward_plates]. rewrite (rs_py _ _ _ _ _ _ _ R2').
      change (Z.to_nat (0 + 1)) with 1%nat.
      rewrite E3. cbn [forward_rows forward_plates]. reflexivity.
    - cbn. rewrite (rs_pixels _ _ _ _ _ _ _ R3). vm_compute. reflexivity. }
  destruct Hone as (wa & Ea & Pa).
  destruct Hsliced as (wb & wc & Eb & Ec & Pc).
  rewrite Ea, Eb, Ec. cbn [fst snd].
  repeat split; assumption.
Qed.



(* ------------------------------------------------------------------ *)
(** ** The tint palettes *)

Lemma is_basepal_bytes (hp : list Z) (k : Z) :
  is_basepal hp = true -> (0 <= zget hp k 0 <= 255)%Z.
Proof.
  intros H. apply andb_prop in H. destruct H as [_ H].
  rewrite forallb_forall in H.
  unfold zget. destruct (k <? 0)%Z; [lia |].
  destruct (nth_in_or_default (Z.to_nat k) hp 0%Z) as [Hin | ->]; [| lia].
  specialize (H _ Hin). lia.
Qed.

Lemma pal_dist_bound (hp : list Z) (r g b i : Z) :
  is_basepal hp = true ->
  (0 <= r <= 255)%Z -> (0 <= g <= 255)%Z -> (0 <= b <= 255)%Z ->
  (0 <= pal_dist hp r g b i <= 3 * (255 * 255))%Z.
Proof.
  intros H Hr Hg Hb. unfold pal_dist, pal_color.
  pose proof (is_basepal_bytes hp (3 * i) H).
  pose proof (is_basepal_bytes hp (3 * i + 1) H).
  pose proof (is_basepal_bytes hp (3 * i + 2) H).
  assert (Sq : forall x, (-255 <= x <= 255)%Z -> (0 <= x * x <= 255 * 255)%Z)
    by (intros; nia).
  pose proof (Sq (zget hp (3 * i) 0 - r)%Z ltac:(lia)).
  pose proof (Sq (zget hp (3 * i + 1) 0 - g)%Z ltac:(lia)).
  pose proof (Sq (zget hp (3 * i + 2) 0 - b)%Z ltac:(lia)).
  lia.
Qed.

(** What the loop knows after the colours below [i]: [mi] is the lowest
    index of the least distance [md] so far. *)
Lemma closest_pal_loop_best (hp : list Z) (r g b : Z) (n : nat) :
  forall (i md mi : Z),
    (0 <= mi < i)%Z -> pal_dist hp r g b mi = md ->
    (forall j, (0 <= j < i)%Z -> (md <= pal_dist hp r g b j)%Z) ->
    (forall j, (0 <= j < mi)%Z -> (md < pal_dist hp r g b j)%Z) ->
    let m := closest_pal_loop hp r g b (3 * i) i n md mi in
    let e := (i + Z.of_nat n)%Z in
    (0 <= m < e)%Z /\
    (forall j, (0 <= j < e)%Z ->
               (pal_dist hp r g b m <= pal_dist hp r g b j)%Z) /\
    (forall j, (0 <= j < m)%Z ->
               (pal_dist hp r g b m < pal_dist hp r g b j)%Z).
Proof.
  induction n as [| n IH]; intros i md mi Hmi Hmd Hle Hlt; cbv zeta.
  - cbn [closest_pal_loop]. rewrite Z.add_0_r. subst md. auto.
  - cbn [closest_pal_loop].
    replace (3 * i + 0)%Z with (3 * i)%Z by lia.
    replace (3 * i + 3)%Z with (3 * (i + 1))%Z by lia.
    replace (i + Z.of_nat (S n))%Z with (i + 1 + Z.of_nat n)%Z by lia.
    set (d := ((zget hp (3 * i) 0 - r) * (zget hp (3 * i) 0 - r)
               + (zget hp (3 * i + 1) 0 - g) * (zget hp (3 * i + 1) 0 - g)
               + (zget hp (3 * i + 2) 0 - b) * (zget hp (3 * i + 2) 0 - b))%Z).
    assert (Hd : pal_dist hp r g b i = d) by reflexivity.
    destruct (d <? md)%Z eqn:E.
    + apply Z.ltb_lt in E. apply IH; [lia | exact Hd | |].
      * intros j Hj. destruct (Z.eq_dec j i) as [-> | Hne]; [lia |].
        specialize (Hle j ltac:(lia)). lia.
      * intros j Hj. specialize (Hle j ltac:(lia)). lia.
    + apply Z.ltb_ge in E. apply IH; [lia | exact Hmd | | exact Hlt].
      intros j Hj. destruct (Z.eq_dec j i) as [-> | Hne]; [lia |].
      apply Hle. lia.
Qed.

(** Before any distance fell below the initial [md]: the loop ends as
    above, or no distance at all is below [md]. *)
Lemma closest_pal_loop_start (hp : list Z) (r g b : Z) (n : nat) :
  forall (i md : Z),
    (0 <= i)%Z ->
    (forall j, (0 <= j < i)%Z -> (md <= pal_dist hp r g b j)%Z) ->
    let m := closest_pal_loop hp r g b (3 * i) i n md 0 in
    let e := (i + Z.of_nat n)%Z in
    ((0 <= m < e)%Z /\
     (forall j, (0 <= j < e)%Z ->
                (pal_dist hp r g b m <= pal_dist hp r g b j)%Z) /\
     (forall j, (0 <= j < m)%Z ->
                (pal_dist hp r g b m < pal_dist hp r g b j)%Z))
    \/ (forall j, (0 <= j < e)%Z -> (md <= pal_dist hp r g b j)%Z).
Proof.
  induction n as [| n IH]; intros i md Hi Hle; cbv zeta.
  - right. rewrite Z.add_0_r. exact Hle.
  - cbn [closest_pal_loop].
    replace (3 * i + 0)%Z with (3 * i)%Z by lia.
    replace (3 * i + 3)%Z with (3 * (i + 1))%Z by lia.
    replace (i + Z.of_nat (S n))%Z with (i + 1 + Z.of_nat n)%Z by lia.
    set (d := ((zget hp (3 * i) 0 - r) * (zget hp (3 * i) 0 - r)
               + (zget hp (3 * i + 1) 0 - g) * (zget hp (3 * i + 1) 0 - g)
               + (zget hp (3 * i + 2) 0 - b) * (zget hp (3 * i + 2) 0 - b))%Z).
    assert (Hd : pal_dist hp r g b i = d) by reflexivity.
    destruct (d <? md)%Z eqn:E.
    + apply Z.ltb_lt in E. left.
      apply closest_pal_loop_best; [lia | exact Hd | |].
      * intros j Hj. destruct (Z.eq_dec j i) as [-> | Hne]; [lia |].
        specialize (Hle j ltac:(lia)). lia.
      * intros j Hj. specialize (Hle j ltac:(lia)). lia.
    + apply Z.ltb_ge in E. apply IH; [lia |].
      intros j Hj. destruct (Z.eq_dec j i) as [-> | Hne]; [lia |].
      apply Hle. lia.
Qed.

Lemma find_closest_pal_index_spec (hp : list Z) (r g b : Z) :
  let m := find_closest_pal_index hp r g b in
  ((0 <= m < 256)%Z /\
   (forall j, (0 <= j < 256)%Z ->
              (pal_dist hp r g b m <= pal_dist hp r g b j)%Z) /\
   (forall j, (0 <= j < m)%Z ->
              (pal_dist hp r g b m < pal_dist hp r g b j)%Z))
  \/ (forall j, (0 <= j < 256)%Z ->
                (256 * 256 * 256 <= pal_dist hp r g b j)%Z).
Proof.
  exact (closest_pal_loop_start hp r g b 256 0 (256 * 256 * 256)
           ltac:(lia) ltac:(intros; lia)).
Qed.

Lemma closest_pal_nearest (hp : list Z) (r g b : Z) :
  is_basepal hp = true ->
  (0 <= r <= 255)%Z -> (0 <= g <= 255)%Z -> (0 <= b <= 255)%Z ->
  let m := find_closest_pal_index hp r g b in
  (0 <= m < 256)%Z /\
  (forall j, (0 <= j < 256)%Z ->
             (pal_dist hp r g b m <= pal_dist hp r g b j)%Z) /\
  (forall j, (0 <= j < m)%Z ->
             (pal_dist hp r g b m < pal_dist hp r g b j)%Z).
Proof.
  intros H Hr Hg Hb. cbv zeta.
  pose proof (find_closest_pal_index_spec hp r g b) as L. cbv zeta in L.
  destruct L as [L | L]; [exact L |].
  exfalso. specialize (L 0%Z ltac:(lia)).
  pose proof (pal_dist_bound hp r g b 0 H Hr Hg Hb). lia.
Qed.

(** X1: for a colour of three bytes, [find_closest_pal_index] returns a
    valid palette index whose colour is at the least squared distance
    from [(r, g, b)] among the 256 colours, and the lowest such index. *)
Theorem find_closest_pal_index_nearest (hp : list Z) (r g b : Z) :
  is_basepal hp = true ->
  (0 <= r <= 255)%Z -> (0 <= g <= 255)%Z -> (0 <= b <= 255)%Z ->
  let m := find_closest_pal_index hp r g b in
  (0 <= m < 256)%Z /\
  (forall j, (0 <= j < 256)%Z ->
             (pal_dist hp r g b m <= pal_dist hp r g b j)%Z) /\
  (forall j, (0 <= j < m)%Z ->
             (pal_dist hp r g b m < pal_dist hp r g b j)%Z).
Proof. exact (closest_pal_nearest hp r g b). Qed.

Lemma nearest_of_palette_color (hp : list Z) (r g b i m : Z) :
  is_basepal hp = true -> (0 <= i < 256)%Z ->
  (0 <= r <= 255)%Z -> (0 <= g <= 255)%Z -> (0 <= b <= 255)%Z ->
  pal_color hp i = (r, g, b) ->
  (forall j, (0 <= j < 256)%Z ->
             (pal_dist hp r g b m <= pal_dist hp r g b j)%Z) ->
  (forall j, (0 <= j < m)%Z ->
             (pal_dist hp r g b m < pal_dist hp r g b j)%Z) ->
  (m <= i)%Z /\ pal_color hp m = (r, g, b).
Proof.
  intros H Hi Hr Hg Hb Hc Hle Hlt.
  assert (Hzero : pal_dist hp r g b i = 0%Z).
  { unfold pal_dist. rewrite Hc. lia. }
  assert (Hm0 : pal_dist hp r g b m = 0%Z).
  { specialize (Hle i Hi).
    pose proof (pal_dist_bound hp r g b m H Hr Hg Hb). lia. }
  split.
  - destruct (Z_lt_le_dec i m) as [Hlt' | Hge]; [| lia].
    specialize (Hlt i ltac:(lia)). lia.
  - unfold pal_dist in Hm0.
    destruct (pal_color hp m) as [[pr pg] pb].
    assert (Sq : forall x, (x * x = 0 -> x = 0)%Z) by (intros; nia).
    assert (Nn : forall x, (0 <= x * x)%Z) by (intros; nia).
    pose proof (Nn (pr - r)%Z). pose proof (Nn (pg - g)%Z).
    pose proof (Nn (pb - b)%Z).
    pose proof (Sq (pr - r)%Z ltac:(lia)). pose proof (Sq (pg - g)%Z ltac:(lia)).
    pose proof (Sq (pb - b)%Z ltac:(lia)).
    assert (pr = r /\ pg = g /\ pb = b) as (-> & -> & ->) by lia.
    reflexivity.
Qed.

(** X2: the colour of a palette entry is found again: for the colour of
    the entry [i], the index returned is at most [i] and holds the very
    same colour. *)
Theorem find_closest_pal_index_exact (hp : list Z) (i r g b : Z) :
  is_basepal hp = true -> (0 <= i < 256)%Z ->
  pal_color hp i = (r, g, b) ->
  let m := find_closest_pal_index hp r g b in
  (0 <= m <= i)%Z /\ pal_color hp m = (r, g, b).
Proof.
  intros H Hi Hc.
  assert (Hr : (0 <= r <= 255)%Z /\ (0 <= g <= 255)%Z /\ (0 <= b <= 255)%Z).
  { unfold pal_color in Hc. injection Hc as Er Eg Eb. subst r g b.
    repeat split; apply (is_basepal_bytes hp _ H). }
  destruct Hr as (Hr & Hg & Hb).
  destruct (find_closest_pal_index_spec hp r g b) as [(Hm & Hle & Hlt) | L].
  - destruct (nearest_of_palette_color hp r g b i _ H Hi Hr Hg Hb Hc Hle Hlt)
      as [A B].
    split; [lia | exact B].
  - exfalso. specialize (L i Hi).
    assert (Hzero : pal_dist hp r g b i = 0%Z).
    { unfold pal_dist. rewrite Hc. lia. }
    lia.
Qed.

(** The blend of a byte toward a byte lies between the two. *)
Lemma tint_blend_between (tint c : Z) :
  (0 <= tint <= 255)%Z -> (0 <= c <= 255)%Z ->
  (Z.min c tint <= tint_blend (256 / 6) tint c <= Z.max c tint)%Z.
Proof.
  intros Ht Hc. unfold tint_blend.
  change (256 / 6)%Z with 42%Z.
  rewrite Z.shiftr_div_pow2 by lia. change (2 ^ 8)%Z with 256%Z.
  pose proof (Z.div_mod (42 * (tint - c)) 256 ltac:(lia)) as D.
  pose proof (Z.mod_pos_bound (42 * (tint - c)) 256 ltac:(lia)) as M.
  lia.
Qed.

Lemma clamp_byte_id (c : Z) : (0 <= c <= 255)%Z -> clamp_byte c = c.
Proof.
  intros H. unfold clamp_byte.
  destruct (c <? 0)%Z eqn:E; [apply Z.ltb_lt in E; lia |].
  destruct (255 <? c)%Z eqn:E'; [apply Z.ltb_lt in E'; lia | reflexivity].
Qed.

Lemma plate_tint_bytes (j : Z) :
  let '(t0, t1, t2) := plate_tint j in
  (0 <= t0 <= 255)%Z /\ (0 <= t1 <= 255)%Z /\ (0 <= t2 <= 255)%Z.
Proof.
  unfold plate_tint.
  destruct j as [| [[[|[]|]|[|[]|]|]|[[|[]|]|[|[]|]|]|] |]; cbv zeta; lia.
Qed.

Lemma create_palmap_colors_spec (hp : list Z) (t0 t1 t2 percent : Z) (n : nat) :
  forall (pal i : Z) (palette : list Z),
    pal = (3 * i)%Z -> (0 <= i)%Z ->
    (i + Z.of_nat n <= Z.of_nat (List.length palette))%Z ->
    let out := create_palmap_colors hp (t0, t1, t2) percent pal i n palette in
    List.length out = List.length palette /\
    (forall k, ~ (i <= k < i + Z.of_nat n)%Z ->
               zget out k 0%Z = zget palette k 0%Z) /\
    (forall k, (i <= k < i + Z.of_nat n)%Z ->
               zget out k 0%Z
               = find_closest_pal_index hp
                   (clamp_byte (tint_blend percent t0 (zget hp (3 * k) 0%Z)))
                   (clamp_byte (tint_blend percent t1 (zget hp (3 * k + 1) 0%Z)))
                   (clamp_byte (tint_blend percent t2 (zget hp (3 * k + 2) 0%Z)))).
Proof.
  induction n as [| n IH]; intros pal i palette Hpal Hi Hlen; cbv zeta.
  - cbn [create_palmap_colors]. split; [reflexivity |]. split; [reflexivity |].
    intros k Hk. lia.
  - cbn [create_palmap_colors]. subst pal.
    replace (3 * i + 0)%Z with (3 * i)%Z by lia.
    set (v := find_closest_pal_index hp _ _ _).
    destruct (IH (3 * i + 3)%Z (i + 1)%Z (zset palette i v)
                ltac:(lia) ltac:(lia)
                ltac:(rewrite length_zset; lia)) as (L & Out & In).
    split; [rewrite L; apply length_zset |]. split.
    + intros k Hk. rewrite Out by lia. apply zget_zset_neq. lia.
    + intros k Hk. destruct (Z.eq_dec k i) as [-> | Hne].
      * rewrite Out by lia. rewrite zget_zset_eq by lia. reflexivity.
      * apply In. lia.
Qed.

Lemma create_palmap_plates_spec (hp : list Z) (percent : Z) (n : nat) :
  forall (j : Z) (palettes : list (list Z)),
    (0 <= j)%Z -> (j + Z.of_nat n <= Z.of_nat (List.length palettes))%Z ->
    let out := create_palmap_plates hp percent j n palettes in
    (forall k, ~ (j <= k < j + Z.of_nat n)%Z ->
               zget out k [] = zget palettes k []) /\
    (forall k, (j <= k < j + Z.of_nat n)%Z ->
               zget out k []
               = create_palmap_colors hp (plate_tint k) percent 0 0 256
                   (zget palettes k [])).
Proof.
  induction n as [| n IH]; intros j palettes Hj Hlen; cbv zeta.
  - cbn [create_palmap_plates]. split; [reflexivity |]. intros k Hk. lia.
  - cbn [create_palmap_plates].
    set (p := create_palmap_colors hp (plate_tint j) percent 0 0 256
                (zget palettes j [])).
    destruct (IH (j + 1)%Z (zset palettes j p) ltac:(lia)
                ltac:(rewrite length_zset; lia)) as (Out & In).
    split.
    + intros k Hk. rewrite Out by lia. apply zget_zset_neq. lia.
    + intros k Hk. destruct (Z.eq_dec k j) as [-> | Hne].
      * rewrite Out by lia. rewrite zget_zset_eq by lia. reflexivity.
      * rewrite In by lia. rewrite zget_zset_neq by lia. reflexivity.
Qed.

Lemma is_palettes_shape (palettes : list (list Z)) (j : Z) :
  is_palettes palettes = true -> (0 <= j < 6)%Z ->
  List.length palettes = 6%nat /\ List.length (zget palettes j []) = 256%nat.
Proof.
  intros H Hj. apply andb_prop in H. destruct H as [HL HA].
  apply Nat.eqb_eq in HL. split; [exact HL |].
  rewrite forallb_forall in HA.
  unfold zget. destruct (j <? 0)%Z eqn:E; [apply Z.ltb_lt in E; lia |].
  apply Nat.eqb_eq, HA, nth_In. lia.
Qed.

(** X3: after [create_palmap], the entry [i] of the palette of the plate
    [j] is the index of the palette colour nearest to the base colour
    [i] moved 42/256 of the way toward the tint of the plate.  The moved
    colour stays within bytes, between the base colour and the tint, so
    the clamping never applies, and the entry is a valid colour index. *)
Theorem create_palmap_nearest_tinted (hp : list Z) (palettes : list (list Z))
  (j i : Z) :
  is_basepal hp = true -> is_palettes palettes = true ->
  (0 <= j < 6)%Z -> (0 <= i < 256)%Z ->
  let entry := zget (zget (create_palmap hp palettes) j []) i 0%Z in
  exists r g b,
    tinted_color hp j i = (r, g, b) /\
    (0 <= r <= 255)%Z /\ (0 <= g <= 255)%Z /\ (0 <= b <= 255)%Z /\
    entry = find_closest_pal_index hp r g b /\
    (0 <= entry < 256)%Z /\
    (forall k, (0 <= k < 256)%Z ->
               (pal_dist hp r g b entry <= pal_dist hp r g b k)%Z).
Proof.
  intros H HP Hj Hi. cbv zeta.
  destruct (is_palettes_shape palettes j HP Hj) as [L6 L256].
  unfold create_palmap.
  destruct (create_palmap_plates_spec hp (256 / 6) (Z.to_nat MAX_PLATES) 0
              palettes ltac:(lia)
              ltac:(rewrite L6; unfold MAX_PLATES; simpl; lia)) as [_ In].
  rewrite In by (unfold MAX_PLATES; simpl; lia). clear In.
  pose proof (plate_tint_bytes j) as Ht.
  unfold tinted_color, pal_color.
  destruct (plate_tint j) as [[t0 t1] t2].
  destruct Ht as (Ht0 & Ht1 & Ht2).
  destruct (create_palmap_colors_spec hp t0 t1 t2 (256 / 6) 256 0 0
              (zget palettes j []) ltac:(lia) ltac:(lia)
              ltac:(rewrite L256; simpl; lia)) as (_ & _ & In).
  rewrite In by (simpl; lia). clear In.
  pose proof (is_basepal_bytes hp (3 * i) H) as B0.
  pose proof (is_basepal_bytes hp (3 * i + 1) H) as B1.
  pose proof (is_basepal_bytes hp (3 * i + 2) H) as B2.
  pose proof (tint_blend_between t0 _ Ht0 B0) as R0.
  pose proof (tint_blend_between t1 _ Ht1 B1) as R1.
  pose proof (tint_blend_between t2 _ Ht2 B2) as R2.
  set (r := tint_blend (256 / 6) t0 (zget hp (3 * i) 0%Z)) in *.
  set (g := tint_blend (256 / 6) t1 (zget hp (3 * i + 1) 0%Z)) in *.
  set (b := tint_blend (256 / 6) t2 (zget hp (3 * i + 2) 0%Z)) in *.
  clearbody r g b.
  rewrite !clamp_byte_id by lia.
  exists r, g, b.
  destruct (closest_pal_nearest hp r g b H ltac:(lia) ltac:(lia) ltac:(lia))
    as (Hm & Hle & _).
  repeat split; try lia. exact Hle.
Qed.

(* ------------------------------------------------------------------ *)
(** ** Rays, latitudes and longitudes *)

Lemma atan2_range (y x : R) : - PI < atan2 y x <= PI.
Proof.
  pose proof PI_RGT_0 as Hpi. unfold atan2.
  destruct (Rlt_dec 0 x) as [Hx | Hx].
  - pose proof (atan_bound (y / x)). lra.
  - destruct (Rlt_dec x 0) as [Hx' | Hx'].
    + destruct (Rle_dec 0 y) as [Hy | Hy].
      * assert (Ht : y / x <= 0).
        { unfold Rdiv. assert (/ x < 0) by (apply Rinv_lt_0_compat; exact Hx').
          nra. }
        pose proof (atan_bound (y / x)) as B.
        assert (atan (y / x) <= 0).
        { destruct Ht as [Ht | Ht].
          - left. rewrite <- atan_0. apply atan_increasing. exact Ht.
          - rewrite Ht, atan_0. lra. }
        lra.
      * assert (Ht : 0 < y / x).
        { unfold Rdiv. assert (/ x < 0) by (apply Rinv_lt_0_compat; exact Hx').
          nra. }
        pose proof (atan_bound (y / x)) as B.
        assert (0 < atan (y / x)).
        { rewrite <- atan_0. apply atan_increasing. exact Ht. }
        lra.
    + destruct (Rlt_dec 0 y); [lra |]. destruct (Rlt_dec y 0); lra.
Qed.

Lemma atan2_right_half (y x : R) : 0 <= x -> - (PI / 2) <= atan2 y x <= PI / 2.
Proof.
  intros Hx. pose proof PI_RGT_0 as Hpi. unfold atan2.
  destruct (Rlt_dec 0 x) as [Hx' | Hx'].
  - pose proof (atan_bound (y / x)). lra.
  - destruct (Rlt_dec x 0); [lra |].
    destruct (Rlt_dec 0 y); [lra |]. destruct (Rlt_dec y 0); lra.
Qed.

Lemma sqrt_1_plus_sqr_ratio (x y : R) :
  0 < x ->
  sqrt (1 + (y / x)²) = sqrt (x * x + y * y) / x.
Proof.
  intros Hx.
  assert (Hs : 0 < x * x + y * y) by nra.
  apply sqrt_lem_1.
  - unfold Rsqr. nra.
  - apply Rlt_le, Rdiv_lt_0_compat; [apply sqrt_lt_R0; exact Hs | exact Hx].
  - unfold Rsqr.
    replace (sqrt (x * x + y * y) / x * (sqrt (x * x + y * y) / x))
      with (sqrt (x * x + y * y) * sqrt (x * x + y * y) / (x * x))
      by (field; lra).
    rewrite sqrt_sqrt by lra. field. lra.
Qed.

(** [atan2(y, x)] is the angle of the point [(x, y)]. *)
Lemma atan2_polar (y x : R) :
  0 < x * x + y * y ->
  sqrt (x * x + y * y) * cos (atan2 y x) = x /\
  sqrt (x * x + y * y) * sin (atan2 y x) = y.
Proof.
  intros Hs.
  assert (Hrho : 0 < sqrt (x * x + y * y)) by (apply sqrt_lt_R0; exact Hs).
  unfold atan2.
  destruct (Rlt_dec 0 x) as [Hx | Hx].
  - rewrite sin_atan, cos_atan, sqrt_1_plus_sqr_ratio by exact Hx.
    split; field; lra.
  - destruct (Rlt_dec x 0) as [Hx' | Hx'].
    + assert (Hneg : sqrt (1 + (y / x)²) = sqrt (x * x + y * y) / - x).
      { replace ((y / x)²) with ((- y / - x)²)
          by (unfold Rsqr; field; lra).
        rewrite sqrt_1_plus_sqr_ratio by lra.
        f_equal. f_equal. ring. }
      destruct (Rle_dec 0 y) as [Hy | Hy].
      * rewrite neg_cos, neg_sin, sin_atan, cos_atan, Hneg.
        split; field; lra.
      * rewrite cos_minus, sin_minus, cos_PI, sin_PI, sin_atan, cos_atan, Hneg.
        split; field; lra.
    + assert (x = 0) by lra. subst x.
      replace (0 * 0 + y * y) with (y * y) in * by ring.
      destruct (Rlt_dec 0 y) as [Hy | Hy].
      * rewrite cos_PI2, sin_PI2, sqrt_square by lra. lra.
      * destruct (Rlt_dec y 0) as [Hy' | Hy']; [| nra].
        rewrite cos_neg, sin_neg, cos_PI2, sin_PI2.
        replace (y * y) with (- y * - y) by ring.
        rewrite sqrt_square by lra. lra.
Qed.

(** X4: [ray_to_latlon] returns a latitude in [-PI/2, PI/2] and a
    longitude in (-PI, PI], for every ray (the zero ray included). *)
Theorem ray_to_latlon_range (ray : vec3_t) :
  - (PI / 2) <= fst (ray_to_latlon ray) <= PI / 2 /\
  - PI < snd (ray_to_latlon ray) <= PI.
Proof.
  unfold ray_to_latlon. cbn [fst snd]. split.
  - apply atan2_right_half, sqrt_pos.
  - apply atan2_range.
Qed.

(** X5: [latlon_to_ray] inverts [ray_to_latlon] on unit rays: the
    latitude and longitude of a unit ray give the ray back. *)
Theorem ray_to_latlon_roundtrip (ray : vec3_t) :
  DotProduct ray ray = 1 ->
  latlon_to_ray (fst (ray_to_latlon ray)) (snd (ray_to_latlon ray)) = ray.
Proof.
  destruct ray as [a b c]. unfold DotProduct, ray_to_latlon, latlon_to_ray.
  cbn [c0 c1 c2 fst snd]. intros Hu.
  assert (Hh0 : 0 <= a * a + c * c) by nra.
  set (h := sqrt (a * a + c * c)).
  assert (Hhh : h * h = a * a + c * c) by (apply sqrt_sqrt; exact Hh0).
  assert (Hh : 0 <= h) by apply sqrt_pos.
  destruct (atan2_polar b h) as [Hc Hs]; [nra |].
  replace (h * h + b * b) with 1 in Hc, Hs by lra.
  rewrite sqrt_1, Rmult_1_l in Hc, Hs.
  rewrite Hc, Hs.
  destruct (Req_dec_T (a * a + c * c) 0) as [Hz | Hnz].
  - assert (a = 0) by nra. assert (c = 0) by nra. assert (h = 0) by nra.
    subst a c. rewrite H1. f_equal; ring.
  - destruct (atan2_polar a c) as [Hc' Hs']; [nra |].
    replace (c * c + a * a) with (a * a + c * c) in Hc', Hs' by ring.
    fold h in Hc', Hs'.
    f_equal; rewrite Rmult_comm; assumption.
Qed.

(* ------------------------------------------------------------------ *)
(** ** The lens scale and the FOV commands *)

Lemma validate_scale_verdict (w : world) (r : Z * world) :
  r = (if Rleb (scale (lens w)) 0 then (0%Z, w) else (1%Z, w)) ->
  snd r = w /\
  (fst r = 1%Z /\ 0 < scale (lens (snd r))
   \/ fst r = 0%Z /\ scale (lens (snd r)) <= 0).
Proof.
  intros ->. unfold Rleb.
  destruct (Rle_dec (scale (lens w)) 0); cbn [fst snd];
    (split; [reflexivity |]).
  - right. split; [reflexivity | assumption].
  - left. split; [reflexivity | lra].
Qed.

(** The state [determine_lens_scale] leaves and the verdict it gives. *)
Lemma determine_lens_scale_outcome (x0 y0 : R) (w : world) :
  let r := determine_lens_scale x0 y0 w in
  (exists s, snd r = with_scale w s) /\
  (fst r = 1%Z /\ 0 < scale (lens (snd r))
   \/ fst r = 0%Z /\ scale (lens (snd r)) <= 0).
Proof.
  cbv zeta.
  assert (Hfail : forall r : Z * world,
             r = (0%Z, with_scale w (-1)) ->
             (exists s, snd r = with_scale w s) /\
             (fst r = 1%Z /\ 0 < scale (lens (snd r))
              \/ fst r = 0%Z /\ scale (lens (snd r)) <= 0)).
  { intros r ->. cbn [fst snd]. split; [exists (-1); reflexivity |].
    right. split; [reflexivity |]. cbn. lra. }
  assert (Hval : forall (s : R) (r : Z * world),
             r = (if Rleb (scale (lens (with_scale (with_scale w (-1)) s))) 0
                  then (0%Z, with_scale (with_scale w (-1)) s)
                  else (1%Z, with_scale (with_scale w (-1)) s)) ->
             (exists s, snd r = with_scale w s) /\
             (fst r = 1%Z /\ 0 < scale (lens (snd r))
              \/ fst r = 0%Z /\ scale (lens (snd r)) <= 0)).
  { intros s r Hr. apply validate_scale_verdict in Hr. destruct Hr as [E V].
    split; [exists s; rewrite E; reflexivity | exact V]. }
  assert (Hval0 : forall r : Z * world,
             r = (if Rleb (scale (lens (with_scale w (-1)))) 0
                  then (0%Z, with_scale w (-1))
                  else (1%Z, with_scale w (-1))) ->
             (exists s, snd r = with_scale w s) /\
             (fst r = 1%Z /\ 0 < scale (lens (snd r))
              \/ fst r = 0%Z /\ scale (lens (snd r)) <= 0)).
  { intros r Hr. apply validate_scale_verdict in Hr. destruct Hr as [E V].
    split; [exists (-1); rewrite E; reflexivity | exact V]. }
  remember (determine_lens_scale x0 y0 w) as r eqn:Hr.
  unfold determine_lens_scale in Hr. cbv beta zeta in Hr.
  repeat first
    [ apply Hfail; exact Hr
    | eapply Hval; exact Hr
    | apply Hval0; exact Hr
    | match type of Hr with
      | context [lua_lens_forward ?a ?b ?c ?d] =>
          destruct (lua_lens_forward a b c d) as [[? ?] ?]
      | _ = (if ?b then _ else _) => destruct b
      end ].
Qed.

(** X6: on a viewport of positive size, and with a frame size selected
    when the scale is based on an FOV (so that [*framesize] is read
    through a pointer that was set), [determine_lens_scale] changes
    nothing but [lens.scale], and its verdict is the sign of the scale
    it leaves: 1 with a positive scale, 0 with a scale that is zero or
    negative (-1 when none was computed). *)
Theorem determine_lens_scale_verdict (x0 y0 : R) (w : world) :
  (0 < width_px (lens w))%Z -> (0 < height_px (lens w))%Z ->
  (fit (fovs w) = 0%Z -> hfit (fovs w) = 0%Z -> vfit (fovs w) = 0%Z ->
   framesize (fovs w) <> FS_NULL) ->
  let r := determine_lens_scale x0 y0 w in
  (exists s, snd r = with_scale w s) /\
  (fst r = 1%Z /\ 0 < scale (lens (snd r))
   \/ fst r = 0%Z /\ scale (lens (snd r)) <= 0).
Proof. intros _ _ _. exact (determine_lens_scale_outcome x0 y0 w). Qed.

Lemma Rdiv_lt_cross (a b c d : R) :
  0 < b -> 0 < d -> (a / b < c / d <-> a * d < c * b).
Proof.
  intros Hb Hd. split; intros H.
  - apply (Rmult_lt_compat_r (b * d)) in H; [| nra].
    replace (a / b * (b * d)) with (a * d) in H by (field; lra).
    replace (c / d * (b * d)) with (c * b) in H by (field; lra).
    exact H.
  - apply (Rmult_lt_reg_r (b * d)); [nra |].
    replace (a / b * (b * d)) with (a * d) by (field; lra).
    replace (c / d * (b * d)) with (c * b) by (field; lra).
    exact H.
Qed.

(** X7: after the command [fit], whatever FOV mode was selected before,
    a lens that declares a positive width and height gets the scale at
    which its whole image fits the viewport: the scale is positive, the
    image is no wider and no taller than the viewport in pixels, and it
    spans the viewport exactly in one of the two directions. *)
Theorem fit_command_scale (x0 y0 : R) (w : world) (q : fov_request_t) :
  0 < width (lens w) -> 0 < height (lens w) ->
  (0 < width_px (lens w))%Z -> (0 < height_px (lens w))%Z ->
  let r := determine_lens_scale x0 y0 (after_fov_command L_Fit w q) in
  let s := scale (lens (snd r)) in
  fst r = 1%Z /\ 0 < s /\
  width (lens w) <= s * IZR (width_px (lens w)) /\
  height (lens w) <= s * IZR (height_px (lens w)) /\
  (width (lens w) = s * IZR (width_px (lens w))
   \/ height (lens w) = s * IZR (height_px (lens w))).
Proof.
  intros Hw Hh Hwp Hhp. cbv zeta.
  apply IZR_lt in Hwp, Hhp.
  unfold determine_lens_scale, after_fov_command, L_Fit, clearFov.
  cbn -[Rleb Rltb IZR Rdiv].
  rewrite (Rleb_false (width (lens w)) 0 Hw).
  rewrite (Rleb_false (height (lens w)) 0 Hh).
  cbn -[Rleb Rltb IZR Rdiv].
  destruct (Rlt_dec (IZR (width_px (lens w)) / IZR (height_px (lens w)))
              (width (lens w) / height (lens w))) as [Hlt | Hge].
  - rewrite (Rltb_true _ _ Hlt).
    apply (proj1 (Rdiv_lt_cross _ _ _ _ Hhp Hh)) in Hlt.
    assert (Hs : 0 < width (lens w) / IZR (width_px (lens w)))
      by (apply Rdiv_lt_0_compat; lra).
    rewrite (Rleb_false _ 0 Hs). cbn -[IZR Rdiv].
    split; [reflexivity |]. split; [exact Hs |].
    replace (width (lens w) / IZR (width_px (lens w)) * IZR (width_px (lens w)))
      with (width (lens w)) by (field; lra).
    split; [lra |]. split; [| left; reflexivity].
    apply (Rmult_le_reg_r (IZR (width_px (lens w)))); [lra |].
    replace (width (lens w) / IZR (width_px (lens w)) * IZR (height_px (lens w))
             * IZR (width_px (lens w)))
      with (width (lens w) * IZR (height_px (lens w))) by (field; lra).
    lra.
  - rewrite (Rltb_false _ _ (Rnot_lt_le _ _ Hge)).
    assert (Hs : 0 < height (lens w) / IZR (height_px (lens w)))
      by (apply Rdiv_lt_0_compat; lra).
    rewrite (Rleb_false _ 0 Hs). cbn -[IZR Rdiv].
    split; [reflexivity |]. split; [exact Hs |].
    replace (height (lens w) / IZR (height_px (lens w)) * IZR (height_px (lens w)))
      with (height (lens w)) by (field; lra).
    split; [| split; [lra | right; reflexivity]].
    apply Rnot_lt_le in Hge.
    assert (Hc : width (lens w) * IZR (height_px (lens w))
                 <= IZR (width_px (lens w)) * height (lens w)).
    { apply Rnot_lt_le. intros C. apply (Rlt_not_le _ _ C).
      destruct Hge as [Hge | Hge].
      - apply (proj1 (Rdiv_lt_cross _ _ _ _ Hh Hhp)) in Hge. lra.
      - apply (f_equal (fun t => t * (height (lens w) * IZR (height_px (lens w)))))
          in Hge.
        replace (width (lens w) / height (lens w)
                 * (height (lens w) * IZR (height_px (lens w))))
          with (width (lens w) * IZR (height_px (lens w))) in Hge by (field; lra).
        replace (IZR (width_px (lens w)) / IZR (height_px (lens w))
                 * (height (lens w) * IZR (height_px (lens w))))
          with (IZR (width_px (lens w)) * height (lens w)) in Hge by (field; lra).
        lra. }
    apply (Rmult_le_reg_r (IZR (height_px (lens w)))); [lra |].
    replace (height (lens w) / IZR (height_px (lens w)) * IZR (width_px (lens w))
             * IZR (height_px (lens w)))
      with (IZR (width_px (lens w)) * height (lens w)) by (field; lra).
    lra.
Qed.

(** X8: after the command [hfit] (resp. [vfit]), whatever FOV mode was
    selected before, the scale is found exactly when the lens declares a
    positive width (resp. height), and the lens image then spans the
    viewport from side to side (resp. from top to bottom). *)
Theorem hfit_vfit_command_scale (x0 y0 : R) (w : world) (q : fov_request_t) :
  (0 < width_px (lens w))%Z -> (0 < height_px (lens w))%Z ->
  (let r := determine_lens_scale x0 y0 (after_fov_command L_HFit w q) in
   (fst r = 1%Z <-> 0 < width (lens w)) /\
   (0 < width (lens w) ->
    scale (lens (snd r)) * IZR (width_px (lens w)) = width (lens w)))
  /\
  (let r := determine_lens_scale x0 y0 (after_fov_command L_VFit w q) in
   (fst r = 1%Z <-> 0 < height (lens w)) /\
   (0 < height (lens w) ->
    scale (lens (snd r)) * IZR (height_px (lens w)) = height (lens w))).
Proof.
  intros Hwp Hhp. apply IZR_lt in Hwp, Hhp. cbv zeta.
  unfold determine_lens_scale, after_fov_command, L_HFit, L_VFit, clearFov.
  cbn -[Rleb Rltb IZR Rdiv].
  split.
  - destruct (Rle_dec (width (lens w)) 0) as [Hle | Hgt].
    + rewrite (Rleb_true _ _ Hle). cbn [fst snd].
      split; [split; [discriminate | lra] | lra].
    + apply Rnot_le_lt in Hgt. rewrite (Rleb_false _ _ Hgt).
      assert (Hs : 0 < width (lens w) / IZR (width_px (lens w)))
        by (apply Rdiv_lt_0_compat; lra).
      cbn -[Rleb IZR Rdiv]. rewrite (Rleb_false _ 0 Hs). cbn -[IZR Rdiv].
      split; [split; [intros _; exact Hgt | reflexivity] |].
      intros _. field. lra.
  - destruct (Rle_dec (height (lens w)) 0) as [Hle | Hgt].
    + rewrite (Rleb_true _ _ Hle). cbn [fst snd].
      split; [split; [discriminate | lra] | lra].
    + apply Rnot_le_lt in Hgt. rewrite (Rleb_false _ _ Hgt).
      assert (Hs : 0 < height (lens w) / IZR (height_px (lens w)))
        by (apply Rdiv_lt_0_compat; lra).
      cbn -[Rleb IZR Rdiv]. rewrite (Rleb_false _ 0 Hs). cbn -[IZR Rdiv].
      split; [split; [intros _; exact Hgt | reflexivity] |].
      intros _. field. lra.
Qed.

(** X9: the limits of the lens hold against the FOV commands.  After
    [hfov d] the scale is refused when [d] degrees exceed [max_hfov];
    after [vfov d] it is refused when [d] degrees exceed [max_vfov] on a
    viewport that is not square, and when they exceed [max_hfov] on a
    square one (there the sizes compare equal and the horizontal limit is
    the one tested).  Either command is refused when the lens has no
    forward map. *)
Theorem fov_command_limits (x0 y0 : R) (w : world) (q : fov_request_t) (d : R) :
  let after_hfov := after_fov_command (L_HFov 2 d) w q in
  let after_vfov := after_fov_command (L_VFov 2 d) w q in
  (max_hfov (fovs w) < d * M_PI / 180 ->
   fst (determine_lens_scale x0 y0 after_hfov) = 0%Z) /\
  (width_px (lens w) <> height_px (lens w) ->
   max_vfov (fovs w) < d * M_PI / 180 ->
   fst (determine_lens_scale x0 y0 after_vfov) = 0%Z) /\
  (width_px (lens w) = height_px (lens w) ->
   max_hfov (fovs w) < d * M_PI / 180 ->
   fst (determine_lens_scale x0 y0 after_vfov) = 0%Z) /\
  (lens_forward (lua_refs w) = (-1)%Z ->
   fst (determine_lens_scale x0 y0 after_hfov) = 0%Z /\
   fst (determine_lens_scale x0 y0 after_vfov) = 0%Z).
Proof.
  cbv zeta.
  unfold determine_lens_scale, after_fov_command, L_HFov, L_VFov, clearFov,
    deref_framesize.
  cbn -[Rleb Rltb IZR Rdiv].
  repeat split.
  - intros Hmax. rewrite !Z.eqb_refl, (Rltb_true _ _ Hmax). cbn [andb].
    destruct (Rleb _ _ || Rleb _ _); reflexivity.
  - intros Hne Hmax.
    assert (E : (width_px (lens w) =? height_px (lens w))%Z = false)
      by (apply Z.eqb_neq; exact Hne).
    rewrite !E, !Z.eqb_refl, (Rltb_true _ _ Hmax). cbn [andb].
    destruct (Rleb _ _ || Rleb _ _); reflexivity.
  - intros Heq Hmax.
    assert (E : (width_px (lens w) =? height_px (lens w))%Z = true)
      by (apply Z.eqb_eq; exact Heq).
    rewrite !E, (Rltb_true _ _ Hmax). cbn [andb].
    destruct (Rleb _ _ || Rleb _ _); reflexivity.
  - rewrite H. cbn [Z.eqb Pos.eqb negb].
    repeat match goal with
           | |- context [if ?b then _ else _] => destruct b
           end; reflexivity.
  - rewrite H. cbn [Z.eqb Pos.eqb negb].
    repeat match goal with
           | |- context [if ?b then _ else _] => destruct b
           end; reflexivity.
Qed.

(* ------------------------------------------------------------------ *)
(** ** The frame of a plate *)

Lemma CrossProduct_orthogonal (a b : vec3_t) :
  DotProduct a (CrossProduct a b) = 0 /\ DotProduct b (CrossProduct a b) = 0.
Proof. unfold DotProduct, CrossProduct; simpl. split; ring. Qed.

Lemma CrossProduct_length (a b : vec3_t) :
  DotProduct (CrossProduct a b) (CrossProduct a b)
  = DotProduct a a * DotProduct b b - DotProduct a b * DotProduct a b.
Proof. unfold DotProduct, CrossProduct; simpl. ring. Qed.

Lemma CrossProduct_triple (f u : vec3_t) :
  CrossProduct f (CrossProduct u f)
  = Vec3 (c0 u * DotProduct f f - c0 f * DotProduct f u)
         (c1 u * DotProduct f f - c1 f * DotProduct f u)
         (c2 u * DotProduct f f - c2 f * DotProduct f u).
Proof. unfold DotProduct, CrossProduct; simpl. f_equal; ring. Qed.

(** The frame [lua_globe_load] computes from a forward and an up vector
    that are unit vectors at a right angle. *)
Lemma loaded_frame (f u : vec3_t) (fovr : R) (d : Z) :
  DotProduct f f = 1 -> DotProduct u u = 1 -> DotProduct f u = 0 ->
  0 < fovr < PI ->
  CrossProduct f (CrossProduct u f) = u /\
  plate_frame (mkPlate f (CrossProduct u f) (CrossProduct f (CrossProduct u f))
                 fovr (0.5 / tan (fovr / 2)) d).
Proof.
  intros Hff Huu Hfu Hfov.
  assert (Hup : CrossProduct f (CrossProduct u f) = u).
  { rewrite CrossProduct_triple, Hff, Hfu. destruct u; simpl. f_equal; ring. }
  split; [exact Hup |]. rewrite Hup.
  constructor; cbn [forward right up fov dist].
  - exact Hff.
  - rewrite CrossProduct_length, Hff, Huu, (DotProduct_comm u f), Hfu. ring.
  - exact Huu.
  - apply (proj2 (CrossProduct_orthogonal _ _)).
  - exact Hfu.
  - rewrite DotProduct_comm. apply (proj1 (CrossProduct_orthogonal _ _)).
  - reflexivity.
  - exact Hfov.
  - reflexivity.
Qed.

(** X10: a plate entry whose forward and up vectors are unit vectors at
    a right angle, with a field of view between 0 and 180 degrees, is
    loaded into an orthonormal right-handed frame: the forward and up
    vectors are stored as given, right is up x forward, the field of
    view is in (0, PI) and the distance is 0.5/tan(fov/2).  These are
    the conditions of the round trip between plate coordinates and
    rays. *)
Theorem load_plate_orthonormal_frame (f u : vec3_t) (degrees : R)
  (p0 : plate_t) :
  DotProduct f f = 1 -> DotProduct u u = 1 -> DotProduct f u = 0 ->
  0 < degrees < 180 ->
  let r := load_plate (plate_entry f u degrees) p0 in
  fst r = PlateOk /\ plate_frame (snd r) /\
  forward (snd r) = f /\ up (snd r) = u /\ display (snd r) = display p0.
Proof.
  intros Hff Huu Hfu Hdeg. cbv zeta.
  pose proof PI_RGT_0 as Hpi.
  assert (Hfov : 0 < degrees * M_PI / 180 < PI) by (unfold M_PI; split; nra).
  destruct (loaded_frame f u _ (display p0) Hff Huu Hfu Hfov) as [Hup F].
  assert (E : load_plate (plate_entry f u degrees) p0
              = (PlateOk,
                 mkPlate f (CrossProduct u f)
                   (CrossProduct f (CrossProduct u f))
                   (degrees * M_PI / 180)
                   (0.5 / tan (degrees * M_PI / 180 / 2)) (display p0))).
  { unfold load_plate, plate_entry, vec_entry. simpl.
    rewrite (Rleb_false _ 0 (proj1 Hfov)).
    destruct f, u. reflexivity. }
  rewrite E. cbn [fst snd forward up display].
  split; [reflexivity |]. split; [exact F |]. split; [reflexivity |].
  split; [exact Hup | reflexivity].
Qed.

(** X11: for a plate with an orthonormal frame, [plate_uv_to_ray] returns
    a unit ray on the front side of the plate (its component along the
    forward vector is positive), for every [u] and [v], inside the unit
    square or not. *)
Theorem plate_uv_to_ray_unit_front (w : world) (i : Z) (u v : R) :
  plate_frame (zget (plates (globe w)) i default_plate) ->
  let ray := plate_uv_to_ray w i u v in
  VectorLength ray = 1 /\
  0 < DotProduct (forward (zget (plates (globe w)) i default_plate)) ray.
Proof.
  intros F. cbv zeta.
  set (p := zget (plates (globe w)) i default_plate) in *.
  pose proof (plate_dist_pos p F) as Hd.
  destruct F as [Hff Hrr Huu Hfr Hfu Hru _ _ Hdist].
  set (wv := VectorMA (VectorMA (VectorMA (Vec3 0 0 0) (dist p) (forward p))
                         (u - 0.5) (right p)) (- (v - 0.5)) (up p)).
  assert (Hwf : DotProduct (forward p) wv = dist p).
  { unfold wv. rewrite !DotProduct_VectorMA_r, DotProduct_zero_r, Hff, Hfr, Hfu. ring. }
  assert (Hwr : DotProduct (right p) wv = u - 0.5).
  { unfold wv. rewrite !DotProduct_VectorMA_r, DotProduct_zero_r.
    rewrite (DotProduct_comm (right p) (forward p)), Hfr, Hrr, Hru. ring. }
  assert (Hwu : DotProduct (up p) wv = - (v - 0.5)).
  { unfold wv. rewrite !DotProduct_VectorMA_r, DotProduct_zero_r.
    rewrite (DotProduct_comm (up p) (forward p)), Hfu.
    rewrite (DotProduct_comm (up p) (right p)), Hru, Huu. ring. }
  assert (Hww : DotProduct wv wv
                = dist p * dist p + (u - 0.5) * (u - 0.5) + (v - 0.5) * (v - 0.5)).
  { unfold wv at 1.
    rewrite !DotProduct_VectorMA_l, DotProduct_zero_l, Hwf, Hwr, Hwu. ring. }
  assert (Hpos : 0 < DotProduct wv wv).
  { rewrite Hww.
    assert (0 < dist p * dist p) by (apply Rmult_lt_0_compat; lra).
    pose proof (Rle_0_sqr (u - 0.5)) as Hsu.
    pose proof (Rle_0_sqr (v - 0.5)) as Hsv.
    unfold Rsqr in Hsu, Hsv. lra. }
  assert (Hlen : 0 < VectorLength wv) by (apply sqrt_lt_R0; exact Hpos).
  unfold plate_uv_to_ray. fold p. fold wv. split.
  - unfold VectorLength at 1.
    rewrite DotProduct_VectorNormalize_r by lra.
    rewrite (DotProduct_comm (VectorNormalize wv) wv).
    rewrite DotProduct_VectorNormalize_r by lra.
    replace (DotProduct wv wv / VectorLength wv / VectorLength wv) with 1;
      [apply sqrt_1 |].
    unfold VectorLength. field_simplify_eq;
      [| apply Rgt_not_eq; exact Hlen].
    replace (sqrt (DotProduct wv wv) ^ 2)
      with (sqrt (DotProduct wv wv) * sqrt (DotProduct wv wv)) by ring.
    apply sqrt_sqrt. lra.
  - rewrite DotProduct_VectorNormalize_r by lra. rewrite Hwf.
    apply Rdiv_lt_0_compat; assumption.
Qed.

(** X12: [ray_to_plate_uv] does not tell a ray from its opposite: the
    opposite ray gets the same [u], [v] and the same verdict, so a ray
    that leaves through the back of a plate is accepted like the one
    that hits it (the test is on [u] and [v] alone). *)
Theorem ray_to_plate_uv_opposite (w : world) (i : Z) (ray : vec3_t) :
  DotProduct (forward (zget (plates (globe w)) i default_plate)) ray <> 0 ->
  ray_to_plate_uv w i (Vec3 (- c0 ray) (- c1 ray) (- c2 ray))
  = ray_to_plate_uv w i ray.
Proof.
  intros Hz. unfold ray_to_plate_uv.
  set (p := zget (plates (globe w)) i default_plate) in *.
  assert (N : forall a, DotProduct a (Vec3 (- c0 ray) (- c1 ray) (- c2 ray))
                        = - DotProduct a ray).
  { intros a. unfold DotProduct; simpl. ring. }
  rewrite !N.
  replace (- DotProduct (right p) ray / - DotProduct (forward p) ray)
    with (DotProduct (right p) ray / DotProduct (forward p) ray)
    by (field; exact Hz).
  replace (- - DotProduct (up p) ray / - DotProduct (forward p) ray)
    with (- DotProduct (up p) ray / DotProduct (forward p) ray)
    by (field; exact Hz).
  reflexivity.
Qed.

(* ------------------------------------------------------------------ *)
(** ** What the builders keep

    A property of the lens map and the globe that every write of
    [set_lensmap_from_plate] for a plate in use keeps is kept by the two
    builders. *)

Lemma ray_to_plate_index_globe (w : world) (ray : vec3_t) :
  globe (snd (ray_to_plate_index w ray)) = globe w.
Proof.
  unfold ray_to_plate_index.
  destruct (negb (globe_plate (lua_refs w) =? -1)%Z); [| reflexivity].
  unfold lua_globe_plate. cbv zeta.
  destruct (negb (lua_isnumber _)); reflexivity.
Qed.

Section BuilderInvariant.

(** The property, which reads the lens and the globe alone. *)
Variable Inv : world -> Prop.

Hypothesis Inv_set :
  forall (w : world) (lx ly px py plate_index : Z),
    (0 <= plate_index < numplates (globe w))%Z ->
    Inv w -> Inv (set_lensmap_from_plate w lx ly px py plate_index).

Hypothesis Inv_ext :
  forall w w' : world, lens w' = lens w -> globe w' = globe w -> Inv w -> Inv w'.

Lemma fill_hline_inv (n : nat) :
  forall (w : world) (x y px py plate_index : Z),
    (0 <= plate_index < numplates (globe w))%Z -> Inv w ->
    Inv (fill_hline w x y n px py plate_index).
Proof.
  induction n as [| n IH]; intros w x y px py i Hi Hw; cbn [fill_hline].
  - exact Hw.
  - destruct (set_lensmap_from_plate_setup w x y px py i)
      as (_ & _ & _ & _ & _ & _ & HN & _).
    apply IH; [rewrite HN; exact Hi | apply Inv_set; assumption].
Qed.

Lemma fill_vline_inv (n : nat) :
  forall (w : world) (x y px py plate_index : Z),
    (0 <= plate_index < numplates (globe w))%Z -> Inv w ->
    Inv (fill_vline w x y n px py plate_index).
Proof.
  induction n as [| n IH]; intros w x y px py i Hi Hw; cbn [fill_vline].
  - exact Hw.
  - destruct (set_lensmap_from_plate_setup w x y px py i)
      as (_ & _ & _ & _ & _ & _ & HN & _).
    apply IH; [rewrite HN; exact Hi | apply Inv_set; assumption].
Qed.

Lemma fill_quad_inv (n : nat) :
  forall (w : world) (p : list (Z * Z)) (minx maxx y px py plate_index : Z),
    (0 <= plate_index < numplates (globe w))%Z -> Inv w ->
    Inv (fill_quad w p minx maxx y n px py plate_index).
Proof.
  induction n as [| n IH]; intros w p minx maxx y px py i Hi Hw;
    cbn [fill_quad].
  - exact Hw.
  - cbv zeta. destruct (maxdiff <? _)%Z; [exact Hw |].
    match goal with
    | |- context [fill_hline w ?a ?b ?c px py i] =>
        destruct (fill_hline_px c w a b px py i) as [K _];
        pose proof (fill_hline_inv c w a b px py i Hi Hw) as Hh
    end.
    destruct K as ((_ & _ & _ & _ & _ & _ & HN & _) & _).
    apply IH; [rewrite HN; exact Hi | exact Hh].
Qed.

Lemma drawQuad_inv (w : world) (tl tr bl br : Z * Z) (plate_index px py : Z) :
  (0 <= plate_index < numplates (globe w))%Z -> Inv w ->
  Inv (drawQuad w tl tr bl br plate_index px py).
Proof.
  intros Hi Hw. unfold drawQuad. cbv zeta.
  destruct (_ || _)%bool; [exact Hw |].
  destruct (_ && _)%bool; [apply Inv_set; assumption |].
  destruct (_ =? _)%Z; [apply fill_hline_inv; assumption |].
  destruct (_ =? _)%Z; [apply fill_vline_inv; assumption |].
  apply fill_quad_inv; assumption.
Qed.

Lemma draw_row_inv (n : nat) :
  forall (w : world) (top bot : row_ptr) (plate_index py px : Z),
    (0 <= plate_index < numplates (globe w))%Z -> Inv w ->
    Inv (draw_row w top bot plate_index py px n) /\
    same_setup w (draw_row w top bot plate_index py px n).
Proof.
  induction n as [| n IH]; intros w top bot i py px Hi Hw.
  - split; [exact Hw | apply same_setup_refl].
  - cbn [draw_row]. cbv zeta.
    destruct (ray_to_plate_index_setup w
                (plate_uv_to_ray w i (IZR px / IZR (platesize (globe w)))
                   (IZR py / IZR (platesize (globe w))))) as [S L].
    pose proof (ray_to_plate_index_globe w
                  (plate_uv_to_ray w i (IZR px / IZR (platesize (globe w)))
                     (IZR py / IZR (platesize (globe w))))) as G.
    destruct (ray_to_plate_index w _) as [owner w1]. cbn [snd] in S, L, G.
    pose proof S as (_ & _ & _ & _ & _ & _ & HN & _).
    assert (Hw1 : Inv w1) by (apply (Inv_ext w); assumption).
    destruct (negb (i =? owner)%Z).
    + destruct (IH w1 top bot i py (px + 1)%Z ltac:(lia) Hw1) as [A B].
      split; [exact A | eapply same_setup_trans; eassumption].
    + match goal with
      | |- context [drawQuad w1 ?a ?b ?c ?d i px py] =>
          pose proof (drawQuad_inv w1 a b c d i px py ltac:(lia) Hw1) as A;
          destruct (drawQuad_px w1 a b c d i px py) as [(B & _) _];
          set (w2 := drawQuad w1 a b c d i px py) in *
      end.
      pose proof B as (_ & _ & _ & _ & _ & _ & HN2 & _).
      destruct (IH w2 top bot i py (px + 1)%Z ltac:(lia) A) as [A' B'].
      split; [exact A' |].
      eapply same_setup_trans; [exact S |].
      eapply same_setup_trans; eassumption.
Qed.

Lemma rows_only_inv (w w' : world) : rows_only w w' -> Inv w -> Inv w'.
Proof. intros (_ & _ & G & L & _). apply Inv_ext; assumption. Qed.

(** What a row of the forward builder keeps. *)
Lemma forward_row_inv (w : world) (top bot : row_ptr) :
  (0 <= forward_state_plate_index (lens_builder w) < numplates (globe w))%Z ->
  Inv w ->
  let w1 := snd (fst (fst (forward_row w top bot))) in
  Inv w1 /\
  forward_state_plate_index (lens_builder w1)
  = forward_state_plate_index (lens_builder w) /\
  numplates (globe w1) = numplates (globe w).
Proof.
  intros Hi Hw. cbv zeta. unfold forward_row.
  set (i := forward_state_plate_index (lens_builder w)) in *.
  set (py := forward_state_py (lens_builder w)).
  set (P := platesize (globe w)).
  assert (Hrows : forall w0, rows_only w w0 ->
                    Inv w0 /\
                    forward_state_plate_index (lens_builder w0) = i /\
                    numplates (globe w0) = numplates (globe w)).
  { intros w0 H0. split; [eapply rows_only_inv; eassumption |].
    destruct H0 as (_ & _ & G & _ & _ & _ & _ & _ & _ & _ & I & _).
    rewrite G. split; [exact I | reflexivity]. }
  assert (Hdraw : forall w0 t b, rows_only w w0 ->
                    let wd := draw_row w0 t b i py 0 (Z.to_nat P) in
                    Inv wd /\
                    forward_state_plate_index (lens_builder wd) = i /\
                    numplates (globe wd) = numplates (globe w)).
  { intros w0 t b H0. cbv zeta.
    destruct (Hrows w0 H0) as (A & B & C).
    destruct (draw_row_inv (Z.to_nat P) w0 t b i py 0 ltac:(lia) A)
      as [A' S].
    split; [exact A' |].
    destruct S as (_ & _ & _ & _ & _ & _ & HN & _ & _ & _ & HB).
    rewrite HB, HN. split; assumption. }
  destruct (py =? P - 1)%Z.
  - pose proof (compute_points_rows (Z.to_nat P) w i ((IZR py + 0.5) / IZR P)
                  bot 0) as R1.
    destruct (compute_points w i ((IZR py + 0.5) / IZR P) bot 0 (Z.to_nat P))
      as [ok wl].
    cbn [snd] in R1.
    destruct ok; cbn [negb fst snd]; [| apply Hrows; exact R1].
    pose proof (compute_points_rows (Z.to_nat P) wl i ((IZR py - 0.5) / IZR P)
                  top 0) as R2.
    destruct (compute_points wl i ((IZR py - 0.5) / IZR P) top 0 (Z.to_nat P))
      as [ok' wu].
    cbn [snd] in R2.
    assert (R : rows_only w wu) by (eapply rows_only_trans; eassumption).
    destruct ok'; cbn [negb fst snd]; [| apply Hrows; exact R].
    apply Hdraw. exact R.
  - cbn [negb].
    pose proof (compute_points_rows (Z.to_nat P) w i ((IZR py - 0.5) / IZR P)
                  bot 0) as R2.
    destruct (compute_points w i ((IZR py - 0.5) / IZR P) bot 0 (Z.to_nat P))
      as [ok' wu].
    cbn [snd] in R2.
    destruct ok'; cbn [negb fst snd]; [| apply Hrows; exact R2].
    apply Hdraw. exact R2.
Qed.

Lemma forward_rows_inv (n : nat) :
  forall (budget : nat) (w : world) (top bot : row_ptr),
    (0 <= forward_state_plate_index (lens_builder w) < numplates (globe w))%Z ->
    Inv w ->
    let w1 := snd (fst (fst (forward_rows budget w top bot n))) in
    Inv w1 /\
    forward_state_plate_index (lens_builder w1)
    = forward_state_plate_index (lens_builder w) /\
    numplates (globe w1) = numplates (globe w).
Proof.
  induction n as [| n IH]; intros budget w top bot Hi Hw; cbv zeta.
  - destruct budget; cbn [forward_rows fst snd];
      (split; [exact Hw | split; reflexivity]).
  - destruct budget as [| b];
      [cbn [forward_rows fst snd]; split; [exact Hw | split; reflexivity] |].
    cbn [forward_rows].
    pose proof (forward_row_inv w top bot Hi Hw) as Hrow.
    cbv zeta in Hrow.
    destruct (forward_row w top bot) as [[[ok w1] t'] b'].
    cbn [fst snd] in Hrow. destruct Hrow as (A & B & C).
    destruct ok; cbn [negb];
      [| cbn [fst snd]; split; [exact A | split; assumption]].
    set (w2 := with_forward_cursor w1 _ _).
    assert (A2 : Inv w2) by (apply (Inv_ext w1); [reflexivity .. | exact A]).
    assert (B2 : forward_state_plate_index (lens_builder w2)
                 = forward_state_plate_index (lens_builder w)) by exact B.
    assert (C2 : numplates (globe w2) = numplates (globe w)) by exact C.
    destruct (IH b w2 t' b' ltac:(rewrite B2, C2; exact Hi) A2)
      as (A3 & B3 & C3).
    split; [exact A3 |]. split; congruence.
Qed.

Lemma forward_plates_inv (m : nat) :
  forall (budget : nat) (w : world) (top bot : row_ptr),
    (0 <= forward_state_plate_index (lens_builder w))%Z ->
    (m = 0%nat \/
     forward_state_plate_index (lens_builder w) + Z.of_nat m
     <= numplates (globe w))%Z ->
    Inv w ->
    Inv (snd (forward_plates budget w top bot m)).
Proof.
  induction m as [| m IH]; intros budget w top bot H0 Hm Hw.
  - exact Hw.
  - destruct Hm as [Hm | Hm]; [discriminate |].
    cbn [forward_plates]. cbv zeta.
    pose proof (forward_rows_inv
                  (Z.to_nat (forward_state_py (lens_builder w) + 1))
                  budget w top bot ltac:(lia) Hw) as Hrows.
    cbv zeta in Hrows.
    destruct (forward_rows budget w top bot _) as [[[[e b'] w1] t1] b1].
    cbn [fst snd] in Hrows. destruct Hrows as (A & B & C).
    destruct e; cbn [snd]; try exact A.
    apply IH.
    + cbn. lia.
    + right. cbn. lia.
    + apply (Inv_ext w1); [reflexivity .. | exact A].
Qed.

Lemma resume_lensmap_forward_inv (budget : nat) (w : world) :
  (0 <= forward_state_plate_index (lens_builder w))%Z ->
  Inv w -> Inv (snd (resume_lensmap_forward budget w)).
Proof.
  intros H0 Hw. unfold resume_lensmap_forward.
  apply forward_plates_inv; [exact H0 | | exact Hw].
  destruct (Z_le_gt_dec (numplates (globe w))
              (forward_state_plate_index (lens_builder w))) as [Hle | Hgt].
  - left. lia.
  - right. lia.
Qed.

Lemma set_lensmap_from_ray_inv (w : world) (lx ly : Z) (sx sy sz : R) :
  globe_plate (lua_refs w) = (-1)%Z -> (1 <= numplates (globe w))%Z ->
  Inv w -> Inv (set_lensmap_from_ray w lx ly sx sy sz).
Proof.
  intros Href HN Hw. unfold set_lensmap_from_ray, ray_to_plate_index.
  rewrite Href. cbn [Z.eqb Pos.eqb negb].
  set (i := max_dotproduct _ _ _ _ _ _).
  assert (Hi : (0 <= i < numplates (globe w))%Z).
  { pose proof (max_dotproduct_range (plates (globe w)) (Vec3 sx sy sz)
                  (Z.to_nat (numplates (globe w))) 0 (-2) 0
                  ltac:(lia) ltac:(lia)) as H.
    cbv zeta in H. fold i in H. lia. }
  destruct (i <? 0)%Z; [exact Hw |].
  destruct (ray_to_plate_uv w i (Vec3 sx sy sz)) as [[inside u] v].
  destruct inside; cbn [negb]; [| exact Hw].
  unfold set_lensmap_from_plate_uv.
  apply Inv_set; assumption.
Qed.

Lemma inverse_row_inv (n : nat) :
  forall (w : world) (ly : Z) (y : R) (lx : Z),
    globe_plate (lua_refs w) = (-1)%Z -> (1 <= numplates (globe w))%Z ->
    Inv w -> Inv (snd (inverse_row w ly y lx n)).
Proof.
  induction n as [| n IH]; intros w ly y lx Href HN Hw; cbn [inverse_row].
  - exact Hw.
  - cbv zeta.
    destruct (lua_lens_inverse w _ y (Vec3 0 0 0)) as [status ray].
    destruct (status =? 0)%Z; [apply IH; assumption |].
    destruct (status =? -1)%Z; [exact Hw |].
    destruct (set_lensmap_from_ray_setup w lx ly (c0 ray) (c1 ray) (c2 ray))
      as (S1 & _ & _ & _ & _ & _ & S7 & _).
    apply IH.
    + rewrite S1. exact Href.
    + rewrite S7. exact HN.
    + apply set_lensmap_from_ray_inv; assumption.
Qed.

Lemma inverse_rows_inv (budget : nat) :
  forall (n : nat) (w : world),
    globe_plate (lua_refs w) = (-1)%Z -> (1 <= numplates (globe w))%Z ->
    Inv w -> Inv (snd (inverse_rows budget w n)).
Proof.
  induction budget as [| b IH]; intros n w Href HN Hw;
    destruct n as [| n]; cbn [inverse_rows]; try exact Hw.
  cbv zeta.
  pose proof (inverse_row_inv (Z.to_nat (width_px (lens w))) w
                (inverse_state_ly (lens_builder w))
                (IZR (- (inverse_state_ly (lens_builder w)
                         - Z.quot (height_px (lens w)) 2)) * scale (lens w))
                0 Href HN Hw) as Hrow.
  pose proof (inverse_row_setup (Z.to_nat (width_px (lens w))) w
                (inverse_state_ly (lens_builder w))
                (IZR (- (inverse_state_ly (lens_builder w)
                         - Z.quot (height_px (lens w)) 2)) * scale (lens w))
                0) as (S1 & _ & _ & _ & _ & _ & S7 & _).
  destruct (inverse_row w _ _ 0 _) as [ok w1]. cbn [snd] in *.
  destruct ok; [| exact Hrow].
  apply IH.
  - cbn. rewrite S1. exact Href.
  - cbn. rewrite S7. exact HN.
  - apply (Inv_ext w1); [reflexivity .. | exact Hrow].
Qed.

Lemma resume_lensmap_inverse_inv (budget : nat) (w : world) :
  globe_plate (lua_refs w) = (-1)%Z -> (1 <= numplates (globe w))%Z ->
  Inv w -> Inv (snd (resume_lensmap_inverse budget w)).
Proof.
  intros Href HN Hw. unfold resume_lensmap_inverse.
  apply inverse_rows_inv; assumption.
Qed.

End BuilderInvariant.

(* ------------------------------------------------------------------ *)
(** ** The lens map points into the globe *)

(** The lens map as [L_RenderView] clears it holds no pointer at all. *)
Lemma blank_pixels_in_globe (N P area : Z) :
  pix_in_globe N P (blank_pixels area).
Proof.
  intros k off H. unfold zget, blank_pixels in H.
  destruct (k <? 0)%Z; [discriminate |].
  rewrite nth_repeat in H. discriminate.
Qed.

Lemma pix_in_globe_set (W H N P : Z) (pix : list (option Z))
  (lx ly px py plate_index : Z) :
  (0 <= plate_index < N)%Z -> pix_in_globe N P pix ->
  pix_in_globe N P (px_set W H P pix lx ly px py plate_index).
Proof.
  intros Hp Hpix. unfold px_set.
  destruct ((lx <? 0) || (lx >=? W) || (ly <? 0) || (ly >=? H))%Z;
    [exact Hpix |].
  destruct ((px <? 0) || (px >=? P) || (py <? 0) || (py >=? P))%Z eqn:E;
    [exact Hpix |].
  apply orb_false_elim in E. destruct E as [E E4].
  apply orb_false_elim in E. destruct E as [E E3].
  apply orb_false_elim in E. destruct E as [E1 E2].
  rewrite Z.geb_leb in E2, E4.
  apply Z.ltb_ge in E1, E3. apply Z.leb_gt in E2, E4.
  intros k off Hk.
  destruct (zget_list_set_cases pix (lx + ly * W)%Z k
              (Some (plate_index * P * P + px + py * P)%Z) None) as [Eq | Eq];
    rewrite Eq in Hk.
  - injection Hk as <-. nia.
  - exact (Hpix k off Hk).
Qed.

Lemma set_lensmap_from_plate_in_globe (w : world) (lx ly px py plate_index : Z) :
  (0 <= plate_index < numplates (globe w))%Z ->
  lens_map_in_globe w ->
  lens_map_in_globe (set_lensmap_from_plate w lx ly px py plate_index).
Proof.
  intros Hi Hw. unfold lens_map_in_globe.
  destruct (set_lensmap_from_plate_setup w lx ly px py plate_index)
    as (_ & _ & _ & _ & _ & _ & HN & HP & _).
  rewrite HN, HP, set_lensmap_from_plate_px.
  apply pix_in_globe_set; assumption.
Qed.

Lemma lens_map_in_globe_ext (w w' : world) :
  lens w' = lens w -> globe w' = globe w ->
  lens_map_in_globe w -> lens_map_in_globe w'.
Proof. intros L G H. unfold lens_map_in_globe. rewrite L, G. exact H. Qed.

(** X13: with the built-in plate selection (the globe script defines no
    [globe_plate]) and at least one plate, a call of
    [resume_lensmap_inverse] only ever stores pointers to texels of the
    plates in use: if every pointer of the lens map that is not null lay
    inside the first [numplates * platesize * platesize] bytes of
    [globe.pixels] before the call, it does so after it, whatever the
    script's [lens_inverse] returns and wherever the time runs out. *)
Theorem resume_lensmap_inverse_in_globe (budget : nat) (w : world) :
  globe_plate (lua_refs w) = (-1)%Z -> (1 <= numplates (globe w))%Z ->
  lens_map_in_globe w ->
  lens_map_in_globe (snd (resume_lensmap_inverse budget w)).
Proof.
  apply (resume_lensmap_inverse_inv lens_map_in_globe
           set_lensmap_from_plate_in_globe lens_map_in_globe_ext).
Qed.

(** X14: a call of [resume_lensmap_forward] only ever stores pointers to
    texels of the plates in use, with or without a scripted
    [globe_plate]: if every pointer of the lens map that is not null lay
    inside the first [numplates * platesize * platesize] bytes of
    [globe.pixels] before the call, it does so after it, whatever the
    script's [lens_forward] returns and wherever the time runs out. *)
Theorem resume_lensmap_forward_in_globe (budget : nat) (w : world) :
  (0 <= forward_state_plate_index (lens_builder w))%Z ->
  lens_map_in_globe w ->
  lens_map_in_globe (snd (resume_lensmap_forward budget w)).
Proof.
  apply (resume_lensmap_forward_inv lens_map_in_globe
           set_lensmap_from_plate_in_globe lens_map_in_globe_ext).
Qed.

(* ------------------------------------------------------------------ *)
(** ** The rows an inverse build writes *)

(** X15: the inverse builder resumes exactly.  However the frames slice
    the work (any list of frame budgets), once a frame's budget covers
    the rows that remain the build ends (the builder answers that it is
    no longer working) in the very state that one uninterrupted call
    reaches: the same lens map, tints and plates in use. *)
Theorem inverse_build_resumes_exactly (budgets : list nat) (big : nat)
  (w : world) :
  (Z.to_nat (inverse_state_ly (lens_builder w) + 1) <= big)%nat ->
  resume_frames resume_lensmap_inverse (budgets ++ [big]) w
  = resume_lensmap_inverse big w
  /\ fst (resume_lensmap_inverse big w) = false.
Proof. apply resume_lensmap_inverse_slicing. Qed.

(** The row loop leaves alone the lens pixels of the other rows. *)
Lemma inverse_row_other_rows (w : world) (l : Z) (y : R) (lx ly : Z) :
  (0 <= lx < width_px (lens w))%Z -> ly <> l ->
  let w1 := snd (inverse_row w l y 0 (Z.to_nat (width_px (lens w)))) in
  zget (pixels (lens w1)) (lx + ly * width_px (lens w)) None
  = zget (pixels (lens w)) (lx + ly * width_px (lens w)) None.
Proof.
  intros Hlx Hne. cbv zeta.
  apply (inverse_row_frame (Z.to_nat (width_px (lens w))) w l y 0).
  intros j Hj Hk. exfalso.
  destruct (lens_pixel_index_inj (width_px (lens w)) lx ly j l Hlx
              ltac:(lia) Hk) as [_ E].
  contradiction.
Qed.

(** The rows a call of the inverse builder leaves alone: those above the
    cursor it starts from and those below the cursor it ends at, and the
    row of that cursor when the call paused. *)
Lemma inverse_rows_window (budget : nat) :
  forall (n : nat) (w : world) (lx ly : Z),
    n = Z.to_nat (inverse_state_ly (lens_builder w) + 1) ->
    (0 <= lx < width_px (lens w))%Z ->
    let r := inverse_rows budget w n in
    (inverse_state_ly (lens_builder w) < ly
     \/ ly < inverse_state_ly (lens_builder (snd r))
     \/ (fst r = true /\ ly = inverse_state_ly (lens_builder (snd r))))%Z ->
    zget (pixels (lens (snd r))) (lx + ly * width_px (lens w)) None
    = zget (pixels (lens w)) (lx + ly * width_px (lens w)) None.
Proof.
  induction budget as [| b IH]; intros n w lx ly Hn Hlx; cbv zeta.
  - destruct n; cbn [inverse_rows snd]; reflexivity.
  - destruct n as [| n]; [cbn [inverse_rows snd]; reflexivity |].
    cbn [inverse_rows].
    set (l := inverse_state_ly (lens_builder w)) in *.
    set (y := IZR (- (l - Z.quot (height_px (lens w)) 2)) * scale (lens w)).
    pose proof (inverse_row_setup (Z.to_nat (width_px (lens w))) w l y 0) as Hs.
    pose proof (inverse_row_other_rows w l y lx ly Hlx) as Hrow.
    cbv zeta in Hrow.
    destruct (inverse_row w l y 0 (Z.to_nat (width_px (lens w)))) as [ok w1].
    cbn [snd] in Hs, Hrow.
    pose proof Hs as (_ & _ & _ & _ & HW & _ & _ & _ & _ & _ & HB).
    destruct ok.
    + set (w2 := with_inverse_ly w1 (l - 1)).
      assert (Hc2 : inverse_state_ly (lens_builder w2) = (l - 1)%Z)
        by reflexivity.
      assert (HW2 : width_px (lens w2) = width_px (lens w)) by exact HW.
      assert (HP2 : pixels (lens w2) = pixels (lens w1)) by reflexivity.
      pose proof (inverse_rows_remaining b w2 n ltac:(rewrite Hc2; lia)) as Hrem.
      specialize (IH n w2 lx ly ltac:(rewrite Hc2; lia)
                    ltac:(rewrite HW2; exact Hlx)).
      cbv zeta in IH. rewrite HW2, HP2 in IH.
      intros Hwin.
      assert (Hne : ly <> l).
      { destruct Hwin as [H | [H | [_ H]]]; lia. }
      rewrite IH; [apply Hrow; exact Hne |].
      destruct Hwin as [H | [H | H]]; [left; lia | right; left; exact H |
                                       right; right; exact H].
    + cbn [fst snd]. rewrite HB. fold l.
      intros [H | [H | [H _]]]; try discriminate; apply Hrow; lia.
Qed.

(** X16: a call of [resume_lensmap_inverse] works on the rows from its
    cursor downward and on no other: the lens pixels of the rows above
    the cursor it starts from (the rows done by the calls before) and of
    the rows below the cursor it ends at are left as they were, and so
    is the row of the final cursor when the call paused.  No output
    pixel is written by two calls of a build that is only paused. *)
Theorem resume_lensmap_inverse_rows (budget : nat) (w : world) (lx ly : Z) :
  (0 <= lx < width_px (lens w))%Z ->
  let r := resume_lensmap_inverse budget w in
  (inverse_state_ly (lens_builder w) < ly
   \/ ly < inverse_state_ly (lens_builder (snd r))
   \/ (fst r = true /\ ly = inverse_state_ly (lens_builder (snd r))))%Z ->
  zget (pixels (lens (snd r))) (lx + ly * width_px (lens w)) None
  = zget (pixels (lens w)) (lx + ly * width_px (lens w)) None.
Proof.
  intros Hlx. unfold resume_lensmap_inverse.
  apply inverse_rows_window; [reflexivity | exact Hlx].
Qed.

(* ------------------------------------------------------------------ *)
(** ** The functions given to the scripts *)

Lemma Zfloor_ge (n : Z) (x : R) : (n <= Zfloor x)%Z <-> IZR n <= x.
Proof.
  pose proof (Zfloor_bound x) as [B1 B2]. split; intros H.
  - apply IZR_le in H. lra.
  - assert (Hlt : IZR n < IZR (Zfloor x + 1)) by (rewrite plus_IZR; lra).
    apply lt_IZR in Hlt. lia.
Qed.

(** [(int)x] is negative exactly from -1 downward, and reaches a whole
    number [n >= 1] exactly from [n] upward. *)
Lemma double_to_int_negative (x : R) : (double_to_int x < 0)%Z <-> x <= -1.
Proof.
  unfold double_to_int. destruct (Rle_dec 0 x) as [H0 | H0].
  - split; intros H; [| lra].
    assert (0 <= Zfloor x)%Z by (apply Zfloor_ge; exact H0). lia.
  - unfold Zceil. pose proof (Zfloor_ge 1 (- x)) as G.
    split; intros H.
    + assert (1 <= Zfloor (- x))%Z by lia. apply G in H1. lra.
    + assert (1 <= Zfloor (- x))%Z by (apply G; lra). lia.
Qed.

Lemma double_to_int_reaches (n : Z) (x : R) :
  (1 <= n)%Z -> (n <= double_to_int x)%Z <-> IZR n <= x.
Proof.
  intros Hn. unfold double_to_int. destruct (Rle_dec 0 x) as [H0 | H0].
  - apply Zfloor_ge.
  - assert (Hx : x < 0) by lra.
    assert (Hc : (Zceil x <= 0)%Z).
    { unfold Zceil. assert (0 <= Zfloor (- x))%Z by (apply Zfloor_ge; lra). lia. }
    pose proof (IZR_le _ _ Hn) as Hn'. split; intros H; [lia | lra].
Qed.

(** X17: [plate_to_ray(i, u, v)] as the scripts see it.  For three
    numbers it answers a single nil exactly when [i <= -1] or
    [i >= numplates] (the index is cut toward zero, so every [i] in
    (-1, 0) means the plate 0), and otherwise the three components of
    [plate_uv_to_ray] for the cut index, which is then a valid plate
    index. *)
Theorem lua_plate_to_ray_index (w : world) (i u v : R) :
  (1 <= numplates (globe w))%Z ->
  let r := lua_plate_to_ray w [LNumber i; LNumber u; LNumber v] in
  (i <= -1 \/ IZR (numplates (globe w)) <= i <-> r = Some [LNil]) /\
  (-1 < i < IZR (numplates (globe w)) ->
   (0 <= double_to_int i < numplates (globe w))%Z /\
   let ray := plate_uv_to_ray w (double_to_int i) u v in
   r = Some [LNumber (c0 ray); LNumber (c1 ray); LNumber (c2 ray)]).
Proof.
  intros HN. cbv zeta.
  unfold lua_plate_to_ray, luaL_checknumber. simpl.
  pose proof (double_to_int_negative i) as Hneg.
  pose proof (double_to_int_reaches (numplates (globe w)) i HN) as Hge.
  rewrite Z.geb_leb.
  destruct (double_to_int i <? 0)%Z eqn:E1;
    [apply Z.ltb_lt in E1 | apply Z.ltb_ge in E1];
    (destruct (numplates (globe w) <=? double_to_int i)%Z eqn:E2;
     [apply Z.leb_le in E2 | apply Z.leb_gt in E2]); cbn [orb].
  - split; [split; [reflexivity | intros _; left; apply Hneg; exact E1] |].
    intros [H1 H2]. exfalso. apply Hneg in E1. lra.
  - split; [split; [reflexivity | intros _; left; apply Hneg; exact E1] |].
    intros [H1 H2]. exfalso. apply Hneg in E1. lra.
  - split; [split; [reflexivity | intros _; right; apply Hge; exact E2] |].
    intros [H1 H2]. exfalso. apply Hge in E2. lra.
  - split.
    + split; [| discriminate].
      intros [H | H]; exfalso; [apply Hneg in H | apply Hge in H]; lia.
    + intros _. split; [lia | reflexivity].
Qed.

(* ------------------------------------------------------------------ *)
(** ** What a lens load forgets *)

Lemma lua_lens_clear_globals (w : world) :
  let g0 := globals (lua (lua_lens_clear w)) in
  g0 "map" = LNil /\ g0 "max_hfov" = LNil /\ g0 "max_vfov" = LNil /\
  g0 "lens_width" = LNil /\ g0 "lens_height" = LNil /\
  g0 "lens_inverse" = LNil /\ g0 "lens_forward" = LNil /\ g0 "onload" = LNil /\
  g0 "numplates" = LNumber (IZR (numplates (globe w))).
Proof. cbv zeta. unfold lua_lens_clear, lua_setglobal. cbn. repeat split. Qed.

Lemma luaL_ref_positive (L : lua_State) (v : lua_value) :
  (1 <= fst (luaL_ref L v))%Z.
Proof. unfold luaL_ref. cbn [fst]. lia. Qed.

(** X18: a lens load starts from a clean slate.  The script runs on
    globals where [map], [max_hfov], [max_vfov], [lens_width],
    [lens_height], [lens_inverse], [lens_forward] and [onload] are nil
    and [numplates] is the globe's plate count; after a successful load
    the map references and the four numbers are read from the globals
    the script leaves and from nothing else: a map it did not define has
    the reference -1 (and a map it defined a reference that is not -1),
    a limit or extent it did not define as a number is 0, whatever the
    lens before had set. *)
Theorem lua_lens_load_clean_slate (run : lua_chunk) (w w' : world)
  (g : lua_globals) :
  lua_lens_load (Some run) w = (1%Z, w') ->
  let g0 := globals (lua (lua_lens_clear w)) in
  run g0 = (true, g) ->
  (g0 "lens_inverse" = LNil /\ g0 "lens_forward" = LNil /\ g0 "map" = LNil /\
   g0 "max_hfov" = LNil /\ g0 "max_vfov" = LNil /\
   g0 "lens_width" = LNil /\ g0 "lens_height" = LNil /\ g0 "onload" = LNil /\
   g0 "numplates" = LNumber (IZR (numplates (globe w)))) /\
  (lens_inverse (lua_refs w') = (-1)%Z
   <-> lua_isfunction (g "lens_inverse") = false) /\
  (lens_forward (lua_refs w') = (-1)%Z
   <-> lua_isfunction (g "lens_forward") = false) /\
  max_hfov (fovs w') = number_or_0 (g "max_hfov") * (M_PI / 180) /\
  max_vfov (fovs w') = number_or_0 (g "max_vfov") * (M_PI / 180) /\
  width (lens w') = number_or_0 (g "lens_width") /\
  height (lens w') = number_or_0 (g "lens_height").
Proof.
  intros Hload g0 Hrun.
  pose proof (lua_lens_clear_globals w) as Hclear. cbv zeta in Hclear.
  fold g0 in Hclear.
  split; [tauto |].
  unfold lua_lens_load in Hload. cbv zeta in Hload.
  fold g0 in Hload. rewrite Hrun in Hload. cbn [negb] in Hload.
  set (w0 := with_lens_inverse_ref _ _) in Hload.
  destruct (lua_isfunction (g "lens_inverse")) eqn:Ei; cbn [negb] in Hload.
  - pose proof (luaL_ref_positive (lua w0) (g "lens_inverse")) as Hri.
    destruct (luaL_ref (lua w0) (g "lens_inverse")) as [ri Li].
    cbn [fst] in Hri.
    destruct (lua_isfunction (g "lens_forward")) eqn:Ef; cbn [negb] in Hload.
    + set (w1 := with_map_type _ _) in Hload.
      pose proof (luaL_ref_positive (lua w1) (g "lens_forward")) as Hrf.
      destruct (luaL_ref (lua w1) (g "lens_forward")) as [rf Lf].
      cbn [fst] in Hrf. cbn in Hload.
      destruct (lua_isstring (g "map")); [destruct (lua_tostring (g "map")) |];
        repeat match type of Hload with
               | context [if ?b then _ else _] => destruct b
               end;
        try discriminate; injection Hload as <-; cbn;
        (split; [split; [lia | discriminate] |]);
        (split; [split; [lia | discriminate] |]);
        repeat split.
    + cbn in Hload.
      destruct (lua_isstring (g "map")); [destruct (lua_tostring (g "map")) |];
        repeat match type of Hload with
               | context [if ?b then _ else _] => destruct b
               end;
        try discriminate; injection Hload as <-; cbn;
        (split; [split; [lia | discriminate] |]);
        (split; [split; reflexivity |]);
        repeat split.
  - destruct (lua_isfunction (g "lens_forward")) eqn:Ef; cbn [negb] in Hload.
    + pose proof (luaL_ref_positive (lua w0) (g "lens_forward")) as Hrf.
      destruct (luaL_ref (lua w0) (g "lens_forward")) as [rf Lf].
      cbn [fst] in Hrf. cbn in Hload.
      destruct (lua_isstring (g "map")); [destruct (lua_tostring (g "map")) |];
        repeat match type of Hload with
               | context [if ?b then _ else _] => destruct b
               end;
        try discriminate; injection Hload as <-; cbn;
        (split; [split; reflexivity |]);
        (split; [split; [lia | discriminate] |]);
        repeat split.
    + cbn in Hload.
      destruct (lua_isstring (g "map")); [destruct (lua_tostring (g "map")) |];
        repeat match type of Hload with
               | context [if ?b then _ else _] => destruct b
               end;
        try discriminate; injection Hload as <-; cbn;
        (split; [split; reflexivity |]);
        (split; [split; reflexivity |]);
        repeat split.
Qed.

(* ------------------------------------------------------------------ *)
(** ** What a globe load accepts and leaves *)



(* ------------------------------------------------------------------ *)
(** ** The plates a lens map shows *)








(* ------------------------------------------------------------------ *)
(** ** A quad stays in its box *)

Lemma grow_bounds_min_max (lo hi t : Z) :
  (lo <= hi)%Z -> grow_bounds lo hi t = (Z.min lo t, Z.max hi t).
Proof.
  intros H. unfold grow_bounds.
  destruct (t <? lo)%Z eqn:E1; [apply Z.ltb_lt in E1 | apply Z.ltb_ge in E1].
  - f_equal; lia.
  - destruct (hi <? t)%Z eqn:E2; [apply Z.ltb_lt in E2 | apply Z.ltb_ge in E2];
      f_equal; lia.
Qed.

(** The bounds loop of [drawQuad] computes the box of the corners. *)
Lemma drawQuad_bounds (tl tr bl br : Z * Z) :
  fold_left
    (fun (b : (Z * Z) * (Z * Z)) (q : Z * Z) =>
       (grow_bounds (fst (fst b)) (snd (fst b)) (fst q),
        grow_bounds (fst (snd b)) (snd (snd b)) (snd q)))
    [tr; br; bl] ((fst tl, fst tl), (snd tl, snd tl))
  = quad_box tl tr bl br.
Proof.
  destruct tl as [x0 y0], tr as [x1 y1], br as [x2 y2], bl as [x3 y3].
  cbn [fold_left fst snd].
  rewrite (grow_bounds_min_max x0 x0 x1), (grow_bounds_min_max y0 y0 y1) by lia.
  cbn [fst snd].
  rewrite (grow_bounds_min_max (Z.min x0 x1) (Z.max x0 x1) x2),
    (grow_bounds_min_max (Z.min y0 y1) (Z.max y0 y1) y2) by lia.
  cbn [fst snd].
  rewrite (grow_bounds_min_max (Z.min (Z.min x0 x1) x2)
             (Z.max (Z.max x0 x1) x2) x3),
    (grow_bounds_min_max (Z.min (Z.min y0 y1) y2)
       (Z.max (Z.max y0 y1) y2) y3) by lia.
  unfold quad_box. cbn [fst snd]. f_equal; f_equal; lia.
Qed.

Lemma double_to_int_between (a b : Z) (r : R) :
  IZR a <= r <= IZR b -> (a <= double_to_int r <= b)%Z.
Proof.
  intros [Ha Hb]. unfold double_to_int.
  pose proof (Zfloor_bound r) as [F1 F2].
  pose proof (Zfloor_bound (- r)) as [G1 G2].
  destruct (Rle_dec 0 r).
  - split; [apply Zfloor_ge; exact Ha |].
    apply le_IZR. lra.
  - unfold Zceil. split.
    + assert (Zfloor (- r) <= - a)%Z; [| lia].
      apply le_IZR. rewrite opp_IZR. lra.
    + assert (- b <= Zfloor (- r))%Z; [| lia].
      apply Zfloor_ge. rewrite opp_IZR. lra.
Qed.

(** The point where an edge crosses a scanline lies between the ends of
    the edge. *)
Lemma crossing_between (ix iy jx jy y : Z) :
  ((iy < y /\ y <= jy) \/ (jy < y /\ y <= iy))%Z ->
  let t := double_to_int
             (IZR ix + IZR (y - iy) / IZR (jy - iy) * IZR (jx - ix)) in
  (Z.min ix jx <= t <= Z.max ix jx)%Z.
Proof.
  intros Hy. cbv zeta.
  set (A := IZR (y - iy)). set (B := IZR (jy - iy)).
  assert (Hl : 0 <= A / B <= 1).
  { unfold A, B. destruct Hy as [[H1 H2] | [H1 H2]].
    - assert (HA : 0 < IZR (y - iy)) by (apply IZR_lt; lia).
      assert (HAB : IZR (y - iy) <= IZR (jy - iy)) by (apply IZR_le; lia).
      assert (HB : 0 < / IZR (jy - iy)) by (apply Rinv_0_lt_compat; lra).
      split.
      + unfold Rdiv. apply Rmult_le_pos; lra.
      + apply (Rmult_le_reg_r (IZR (jy - iy))); [lra |].
        unfold Rdiv. rewrite Rmult_assoc, Rinv_l by lra. lra.
    - assert (HA : IZR (y - iy) <= 0) by (apply IZR_le; lia).
      assert (HAB : IZR (jy - iy) <= IZR (y - iy)) by (apply IZR_le; lia).
      assert (HBn : IZR (jy - iy) < 0) by (apply IZR_lt; lia).
      replace (IZR (y - iy) / IZR (jy - iy))
        with (- IZR (y - iy) / - IZR (jy - iy)) by (field; lra).
      assert (HB : 0 < / - IZR (jy - iy)) by (apply Rinv_0_lt_compat; lra).
      split.
      + unfold Rdiv. apply Rmult_le_pos; lra.
      + apply (Rmult_le_reg_r (- IZR (jy - iy))); [lra |].
        unfold Rdiv. rewrite Rmult_assoc, Rinv_l by lra. lra. }
  set (l := A / B) in *. clearbody l. clear A B.
  apply double_to_int_between.
  rewrite minus_IZR.
  destruct (Z_le_gt_dec ix jx) as [Hx | Hx].
  - rewrite Z.min_l, Z.max_r by lia.
    assert (IZR ix <= IZR jx) by (apply IZR_le; exact Hx). nra.
  - rewrite Z.min_r, Z.max_l by lia.
    assert (IZR jx <= IZR ix) by (apply IZR_le; lia). nra.
Qed.

(** The crossings the edge loop finds lie in the range of the corners. *)
Lemma edge_crossings_within (y : Z) (p : list (Z * Z)) (minx maxx : Z) :
  forall (idx : list Z) (j : Z) (tx : Z * Z) (txi : Z),
    (forall i, In i (j :: idx) ->
               (minx <= fst (zget p i (0, 0)%Z) <= maxx)%Z) ->
    (minx <= fst tx <= maxx)%Z -> (minx <= snd tx <= maxx)%Z ->
    let r := edge_crossings y p idx j tx txi in
    (minx <= fst r <= maxx)%Z /\ (minx <= snd r <= maxx)%Z.
Proof.
  induction idx as [| i rest IH]; intros j tx txi Hp H1 H2; cbv zeta.
  - cbn. split; assumption.
  - cbn [edge_crossings].
    pose proof (Hp i ltac:(right; left; reflexivity)) as Hi.
    pose proof (Hp j ltac:(left; reflexivity)) as Hj.
    destruct (zget p i (0, 0)%Z) as [ix iy].
    destruct (zget p j (0, 0)%Z) as [jx jy].
    cbn [fst] in Hi, Hj.
    assert (Hrest : forall k, In k (i :: rest) ->
                     (minx <= fst (zget p k (0, 0)%Z) <= maxx)%Z)
      by (intros k Hk; apply Hp; right; exact Hk).
    destruct (((iy <? y) && (y <=? jy)) || ((jy <? y) && (y <=? iy)))%Z eqn:E.
    + assert (Hy : ((iy < y /\ y <= jy) \/ (jy < y /\ y <= iy))%Z).
      { apply orb_true_iff in E. destruct E as [E | E];
          apply andb_true_iff in E; destruct E as [Ea Eb];
          apply Z.ltb_lt in Ea; apply Z.leb_le in Eb; [left | right]; lia. }
      pose proof (crossing_between ix iy jx jy y Hy) as Hc. cbv zeta in Hc.
      set (t := double_to_int _) in *.
      assert (Ht : (minx <= t <= maxx)%Z) by lia.
      destruct (txi =? 0)%Z; destruct (txi + 1 =? 2)%Z; cbn [fst snd];
        try (split; assumption); apply IH; cbn [fst snd]; assumption.
    + apply IH; assumption.
Qed.

Lemma same_outside_box_refl (W minx maxx miny maxy : Z)
  (pix : list (option Z)) :
  same_outside_box W minx maxx miny maxy pix pix.
Proof. intros lx ly _ _. reflexivity. Qed.

Lemma same_outside_box_trans (W minx maxx miny maxy : Z)
  (p1 p2 p3 : list (option Z)) :
  same_outside_box W minx maxx miny maxy p1 p2 ->
  same_outside_box W minx maxx miny maxy p2 p3 ->
  same_outside_box W minx maxx miny maxy p1 p3.
Proof.
  intros A B lx ly Hlx Hout. rewrite (B lx ly Hlx Hout). apply A; assumption.
Qed.

Lemma px_set_outside (W H P : Z) (pix : list (option Z))
  (x y px py plate_index : Z) (minx maxx miny maxy : Z) :
  (minx <= x <= maxx)%Z -> (miny <= y <= maxy)%Z ->
  same_outside_box W minx maxx miny maxy pix
    (px_set W H P pix x y px py plate_index).
Proof.
  intros Hx Hy lx ly Hlx Hout. unfold px_set.
  destruct ((x <? 0) || (x >=? W) || (y <? 0) || (y >=? H))%Z eqn:E;
    [reflexivity |].
  destruct ((px <? 0) || (px >=? P) || (py <? 0) || (py >=? P))%Z;
    [reflexivity |].
  apply orb_false_elim in E. destruct E as [E _].
  apply orb_false_elim in E. destruct E as [E _].
  apply orb_false_elim in E. destruct E as [E1 E2].
  rewrite Z.geb_leb in E2. apply Z.ltb_ge in E1. apply Z.leb_gt in E2.
  apply zget_zset_neq. intros C.
  destruct (lens_pixel_index_inj W x y lx ly ltac:(lia) Hlx C) as [-> ->].
  apply Hout. split; assumption.
Qed.

Lemma px_hline_outside (W H P : Z) (n : nat) :
  forall (pix : list (option Z)) (x y px py plate_index : Z)
         (minx maxx miny maxy : Z),
    (n = 0%nat \/ (minx <= x /\ x + Z.of_nat n - 1 <= maxx))%Z ->
    (miny <= y <= maxy)%Z ->
    same_outside_box W minx maxx miny maxy pix
      (px_hline W H P pix x y n px py plate_index).
Proof.
  induction n as [| n IH]; intros pix x y px py i minx maxx miny maxy Hx Hy;
    cbn [px_hline].
  - apply same_outside_box_refl.
  - destruct Hx as [Hx | [Hx1 Hx2]]; [discriminate |].
    eapply same_outside_box_trans.
    + apply (px_set_outside W H P pix x y px py i minx maxx miny maxy);
        [lia | exact Hy].
    + apply IH; [| exact Hy].
      destruct n; [left; reflexivity | right; lia].
Qed.

Lemma px_vline_outside (W H P : Z) (n : nat) :
  forall (pix : list (option Z)) (x y px py plate_index : Z)
         (minx maxx miny maxy : Z),
    (minx <= x <= maxx)%Z ->
    (n = 0%nat \/ (miny <= y /\ y + Z.of_nat n - 1 <= maxy))%Z ->
    same_outside_box W minx maxx miny maxy pix
      (px_vline W H P pix x y n px py plate_index).
Proof.
  induction n as [| n IH]; intros pix x y px py i minx maxx miny maxy Hx Hy;
    cbn [px_vline].
  - apply same_outside_box_refl.
  - destruct Hy as [Hy | [Hy1 Hy2]]; [discriminate |].
    eapply same_outside_box_trans.
    + apply (px_set_outside W H P pix x y px py i minx maxx miny maxy);
        [exact Hx | lia].
    + apply IH; [exact Hx |].
      destruct n; [left; reflexivity | right; lia].
Qed.

Lemma px_quad_outside (W H P : Z) (p : list (Z * Z)) (minx maxx : Z) (n : nat) :
  (minx <= maxx)%Z ->
  (forall i, In i [3; 0; 1; 2; 3]%Z ->
             (minx <= fst (zget p i (0, 0)%Z) <= maxx)%Z) ->
  forall (pix : list (option Z)) (y px py plate_index : Z) (miny maxy : Z),
    (n = 0%nat \/ (miny <= y /\ y + Z.of_nat n - 1 <= maxy))%Z ->
    same_outside_box W minx maxx miny maxy pix
      (px_quad W H P pix p minx maxx y n px py plate_index).
Proof.
  intros Hmm Hp.
  induction n as [| n IH]; intros pix y px py i miny maxy Hy; cbn [px_quad].
  - apply same_outside_box_refl.
  - destruct Hy as [Hy | [Hy1 Hy2]]; [discriminate |].
    cbv zeta.
    destruct (edge_crossings_within y p minx maxx [0; 1; 2; 3]%Z 3
                (minx, maxx) 0 Hp ltac:(cbn; lia) ltac:(cbn; lia)) as [T1 T2].
    set (tx := edge_crossings y p [0; 1; 2; 3]%Z 3 (minx, maxx) 0) in *.
    set (tx' := if (snd tx <? fst tx)%Z then (snd tx, fst tx) else tx).
    assert (T' : (minx <= fst tx' <= maxx)%Z /\ (minx <= snd tx' <= maxx)%Z
                 /\ (fst tx' <= snd tx')%Z).
    { unfold tx'.
      destruct (snd tx <? fst tx)%Z eqn:E;
        [apply Z.ltb_lt in E | apply Z.ltb_ge in E]; cbn [fst snd];
        repeat split; lia. }
    destruct T' as (T1' & T2' & T3').
    destruct (maxdiff <? snd tx' - fst tx')%Z; [apply same_outside_box_refl |].
    eapply same_outside_box_trans.
    + apply (px_hline_outside W H P (span (fst tx') (snd tx')) pix (fst tx') y
               px py i minx maxx miny maxy); [| lia].
      right. unfold span. rewrite Z2Nat.id by lia. lia.
    + apply IH. destruct n; [left; reflexivity | right; lia].
Qed.

Lemma quad_box_corners (tl tr bl br : Z * Z) :
  let b := quad_box tl tr bl br in
  forall q, In q [tl; tr; br; bl] ->
    (fst (fst b) <= fst q <= snd (fst b))%Z /\
    (fst (snd b) <= snd q <= snd (snd b))%Z.
Proof.
  cbv zeta. unfold quad_box. cbn [fst snd]. intros q Hq.
  cbn [In] in Hq.
  destruct Hq as [<- | [<- | [<- | [<- | []]]]]; lia.
Qed.

Lemma px_drawQuad_outside (W H P : Z) (pix : list (option Z))
  (tl tr bl br : Z * Z) (plate_index px py : Z) :
  let b := quad_box tl tr bl br in
  same_outside_box W (fst (fst b)) (snd (fst b)) (fst (snd b)) (snd (snd b))
    pix (px_drawQuad W H P pix tl tr bl br plate_index px py).
Proof.
  cbv zeta. unfold px_drawQuad. cbv zeta. rewrite drawQuad_bounds.
  pose proof (quad_box_corners tl tr bl br) as Hc. cbv zeta in Hc.
  set (b := quad_box tl tr bl br) in *.
  set (minx := fst (fst b)) in *. set (maxx := snd (fst b)) in *.
  set (miny := fst (snd b)) in *. set (maxy := snd (snd b)) in *.
  pose proof (Hc tl ltac:(left; reflexivity)) as [Hx Hy].
  destruct (_ || _)%bool; [apply same_outside_box_refl |].
  destruct (_ && _)%bool; [apply px_set_outside; assumption |].
  destruct (miny =? maxy)%Z.
  { apply px_hline_outside; [| lia].
    right. unfold span. rewrite Z2Nat.id by lia. lia. }
  destruct (minx =? maxx)%Z.
  { apply px_vline_outside; [exact Hx |].
    right. unfold span. rewrite Z2Nat.id by lia. lia. }
  apply px_quad_outside; [lia | |].
  - intros i Hi. cbn [In] in Hi.
    destruct Hi as [<- | [<- | [<- | [<- | [<- | []]]]]]; cbn;
      apply Hc; cbn [In]; auto.
  - right. unfold span. rewrite Z2Nat.id by lia. lia.
Qed.

Lemma px_drawQuad_large (W H P : Z) (pix : list (option Z))
  (tl tr bl br : Z * Z) (plate_index px py : Z) :
  let b := quad_box tl tr bl br in
  (maxdiff < snd (fst b) - fst (fst b) \/
   maxdiff < snd (snd b) - fst (snd b))%Z ->
  px_drawQuad W H P pix tl tr bl br plate_index px py = pix.
Proof.
  cbv zeta. intros Hbig. unfold px_drawQuad. cbv zeta.
  rewrite drawQuad_bounds.
  set (b := quad_box tl tr bl br) in *.
  destruct ((maxdiff <? Z.abs (fst (fst b) - snd (fst b)))
            || (maxdiff <? Z.abs (fst (snd b) - snd (snd b))))%Z eqn:E;
    [reflexivity |].
  apply orb_false_elim in E. destruct E as [E1 E2].
  apply Z.ltb_ge in E1, E2. lia.
Qed.

(** X21: for corners whose coordinates lie in [-2^30, 2^30) (where no
    difference of two of them overflows an [int]), [drawQuad] writes
    inside the box of its four corners only, and only when that box is
    small: a lens pixel [(lx, ly)] of a column of the viewport that the
    call changes lies between the least and the greatest abscissa and
    ordinate of the corners, and these are at most [maxdiff] = 20 apart
    (a larger quad is not drawn). *)
Theorem drawQuad_in_its_box (w : world) (tl tr bl br : Z * Z)
  (plate_index px py lx ly : Z) :
  corner_in_range tl -> corner_in_range tr ->
  corner_in_range bl -> corner_in_range br ->
  (0 <= lx < width_px (lens w))%Z ->
  zget (pixels (lens (drawQuad w tl tr bl br plate_index px py)))
    (lx + ly * width_px (lens w)) None
  <> zget (pixels (lens w)) (lx + ly * width_px (lens w)) None ->
  let b := quad_box tl tr bl br in
  (fst (fst b) <= lx <= snd (fst b))%Z /\
  (fst (snd b) <= ly <= snd (snd b))%Z /\
  (snd (fst b) - fst (fst b) <= maxdiff)%Z /\
  (snd (snd b) - fst (snd b) <= maxdiff)%Z.
Proof.
  intros _ _ _ _ Hlx Hne. cbv zeta.
  destruct (drawQuad_px w tl tr bl br plate_index px py) as [_ E].
  rewrite E in Hne.
  pose proof (px_drawQuad_outside (width_px (lens w)) (height_px (lens w))
                (platesize (globe w)) (pixels (lens w)) tl tr bl br
                plate_index px py) as Hout.
  pose proof (px_drawQuad_large (width_px (lens w)) (height_px (lens w))
                (platesize (globe w)) (pixels (lens w)) tl tr bl br
                plate_index px py) as Hbig.
  cbv zeta in Hout, Hbig.
  set (b := quad_box tl tr bl br) in *.
  assert (Hin : (fst (fst b) <= lx <= snd (fst b))%Z /\
                (fst (snd b) <= ly <= snd (snd b))%Z).
  { destruct (Z_le_dec (fst (fst b)) lx) as [A1 | A1];
      [| exfalso; apply Hne, Hout; [exact Hlx | intros [[C _] _]; exact (A1 C)]].
    destruct (Z_le_dec lx (snd (fst b))) as [A2 | A2];
      [| exfalso; apply Hne, Hout; [exact Hlx | intros [[_ C] _]; exact (A2 C)]].
    destruct (Z_le_dec (fst (snd b)) ly) as [A3 | A3];
      [| exfalso; apply Hne, Hout; [exact Hlx | intros [_ [C _]]; exact (A3 C)]].
    destruct (Z_le_dec ly (snd (snd b))) as [A4 | A4];
      [| exfalso; apply Hne, Hout; [exact Hlx | intros [_ [_ C]]; exact (A4 C)]].
    split; split; assumption. }
  destruct Hin as [Hx Hy]. split; [exact Hx | split; [exact Hy |]].
  destruct (Z_le_dec (snd (fst b) - fst (fst b)) maxdiff) as [B1 | B1];
    [| exfalso; apply Hne; rewrite Hbig; [reflexivity | left; lia]].
  destruct (Z_le_dec (snd (snd b) - fst (snd b)) maxdiff) as [B2 | B2];
    [| exfalso; apply Hne; rewrite Hbig; [reflexivity | right; lia]].
  split; assumption.
Qed.

(* ------------------------------------------------------------------ *)
(** ** The ray of a scripted inverse map *)

Lemma VectorLength_pos (v : vec3_t) :
  v <> Vec3 0 0 0 -> 0 < VectorLength v.
Proof.
  intros Hv. unfold VectorLength. apply sqrt_lt_R0.
  destruct v as [a b c]. unfold DotProduct. cbn [c0 c1 c2].
  destruct (Req_dec a 0) as [Ha | Ha];
    [destruct (Req_dec b 0) as [Hb | Hb];
     [destruct (Req_dec c 0) as [Hc | Hc] | ] | ].
  - exfalso. apply Hv. rewrite Ha, Hb, Hc. reflexivity.
  - pose proof (Rle_0_sqr a). pose proof (Rle_0_sqr b).
    assert (0 < c * c) by (destruct (Rtotal_order c 0) as [|[|]]; nra).
    unfold Rsqr in *. lra.
  - pose proof (Rle_0_sqr a). pose proof (Rle_0_sqr c).
    assert (0 < b * b) by (destruct (Rtotal_order b 0) as [|[|]]; nra).
    unfold Rsqr in *. lra.
  - pose proof (Rle_0_sqr b). pose proof (Rle_0_sqr c).
    assert (0 < a * a) by (destruct (Rtotal_order a 0) as [|[|]]; nra).
    unfold Rsqr in *. lra.
Qed.

Lemma VectorNormalize_unit (v : vec3_t) :
  v <> Vec3 0 0 0 ->
  VectorLength (VectorNormalize v) = 1 /\
  VectorNormalize v
  = Vec3 (1 / VectorLength v * c0 v) (1 / VectorLength v * c1 v)
      (1 / VectorLength v * c2 v).
Proof.
  intros Hv. pose proof (VectorLength_pos v Hv) as Hl.
  assert (E : VectorNormalize v
              = Vec3 (1 / VectorLength v * c0 v) (1 / VectorLength v * c1 v)
                  (1 / VectorLength v * c2 v)).
  { unfold VectorNormalize. cbv zeta.
    destruct (Req_dec_T (VectorLength v) 0) as [C | _]; [lra |].
    f_equal; ring. }
  split; [| exact E].
  rewrite E. unfold VectorLength at 1. unfold DotProduct. cbn [c0 c1 c2].
  assert (Hsq : VectorLength v * VectorLength v = DotProduct v v).
  { unfold VectorLength. apply sqrt_sqrt.
    destruct v as [a b c]. unfold DotProduct. cbn [c0 c1 c2].
    pose proof (Rle_0_sqr a). pose proof (Rle_0_sqr b).
    pose proof (Rle_0_sqr c). unfold Rsqr in *. lra. }
  unfold DotProduct in Hsq.
  replace (1 / VectorLength v * c0 v * (1 / VectorLength v * c0 v)
           + 1 / VectorLength v * c1 v * (1 / VectorLength v * c1 v)
           + 1 / VectorLength v * c2 v * (1 / VectorLength v * c2 v))
    with ((c0 v * c0 v + c1 v * c1 v + c2 v * c2 v)
          / (VectorLength v * VectorLength v)) by (field; lra).
  rewrite Hsq. unfold Rdiv. rewrite Rinv_r; [apply sqrt_1 |].
  rewrite <- Hsq. nra.
Qed.

(** X22: a scripted [lens_inverse] need not return a ray of length 1.
    When it returns three values Lua takes for numbers, not all zero,
    [lua_lens_inverse] gives the status 1 and the ray of length 1 that
    points the same way: the returned vector times the positive factor
    1/length. *)
Theorem lua_lens_inverse_unit_ray (w : world) (x y : R) (ray0 : vec3_t)
  (a b c : lua_value) :
  lua_call_ref (lua w) (lens_inverse (lua_refs w)) [x; y] = [a; b; c] ->
  lua_isnumber a = true -> lua_isnumber b = true -> lua_isnumber c = true ->
  Vec3 (lua_tonumber a) (lua_tonumber b) (lua_tonumber c) <> Vec3 0 0 0 ->
  let v := Vec3 (lua_tonumber a) (lua_tonumber b) (lua_tonumber c) in
  let r := lua_lens_inverse w x y ray0 in
  fst r = 1%Z /\
  VectorLength (snd r) = 1 /\
  0 < 1 / VectorLength v /\
  snd r = Vec3 (1 / VectorLength v * c0 v) (1 / VectorLength v * c1 v)
            (1 / VectorLength v * c2 v).
Proof.
  intros Hret Ha Hb Hc Hv. cbv zeta.
  unfold lua_lens_inverse. rewrite Hret, Ha, Hb, Hc. cbn [andb fst snd].
  destruct (VectorNormalize_unit _ Hv) as [Hu He].
  pose proof (VectorLength_pos _ Hv) as Hl.
  split; [reflexivity |]. split; [exact Hu |]. split; [| exact He].
  apply Rdiv_lt_0_compat; lra.
Qed.

(* ------------------------------------------------------------------ *)
(** ** The camera of a plate *)

Lemma camera_relative_dot (a b cf cr cu : vec3_t) :
  DotProduct (camera_relative a cf cr cu) (camera_relative b cf cr cu)
  = c0 a * c0 b * DotProduct cr cr + c1 a * c1 b * DotProduct cu cu
    + c2 a * c2 b * DotProduct cf cf
    + (c0 a * c1 b + c1 a * c0 b) * DotProduct cr cu
    + (c0 a * c2 b + c2 a * c0 b) * DotProduct cf cr
    + (c1 a * c2 b + c2 a * c1 b) * DotProduct cf cu.
Proof.
  unfold camera_relative, VectorMA, DotProduct. cbn [c0 c1 c2]. ring.
Qed.

(** X23: [L_RenderView] turns the frame of a plate by the camera without
    distorting it.  For camera vectors [forward], [right], [up] that are
    of length 1 and at right angles, the vectors [f], [r], [u] given to
    [render_plate] have the lengths and the mutual dot products of the
    plate's [forward], [right], [up]: a plate with an orthonormal frame
    is rendered with an orthonormal camera. *)
Theorem plate_camera_isometry (p : plate_t) (cf cr cu : vec3_t) :
  DotProduct cf cf = 1 -> DotProduct cr cr = 1 -> DotProduct cu cu = 1 ->
  DotProduct cf cr = 0 -> DotProduct cf cu = 0 -> DotProduct cr cu = 0 ->
  let f := fst (fst (plate_camera p cf cr cu)) in
  let r := snd (fst (plate_camera p cf cr cu)) in
  let u := snd (plate_camera p cf cr cu) in
  DotProduct f f = DotProduct (forward p) (forward p) /\
  DotProduct r r = DotProduct (right p) (right p) /\
  DotProduct u u = DotProduct (up p) (up p) /\
  DotProduct f r = DotProduct (forward p) (right p) /\
  DotProduct f u = DotProduct (forward p) (up p) /\
  DotProduct r u = DotProduct (right p) (up p).
Proof.
  intros Hf Hr Hu Hfr Hfu Hru. cbv zeta. unfold plate_camera. cbn [fst snd].
  rewrite !camera_relative_dot, Hf, Hr, Hu, Hfr, Hfu, Hru.
  unfold DotProduct.
  repeat split; ring.
Qed.

(* ------------------------------------------------------------------ *)
(** ** The tints of a lens map *)







(* ------------------------------------------------------------------ *)
(** ** A lens that writes every pixel *)

(** Under [ahead_inverse] the scripted inverse map gives the status 1
    and the ray straight ahead, and the pixel written for it is the
    middle texel (1,1) of the front plate: on the viewport of
    [inverse_world] the writer stores the offset 4 for the lens pixel
    (0,2). *)
Lemma ahead_inverse_writes (x y : R) (ray0 : vec3_t) :
  lua_lens_inverse (inverse_world ahead_inverse) x y ray0
  = (1%Z, Vec3 0 0 1) /\
  zget (pixels (lens (set_lensmap_from_ray (inverse_world ahead_inverse)
                        0 2 0 0 1))) 6 None = Some 4%Z.
Proof.
  split.
  - unfold lua_lens_inverse. cbn -[VectorNormalize].
    unfold VectorNormalize, VectorLength, DotProduct. cbn [c0 c1 c2].
    replace (0 * 0 + 0 * 0 + 1 * 1) with 1 by ring. rewrite sqrt_1.
    destruct (Req_dec_T 1 0) as [C | _]; [lra |].
    f_equal. f_equal; field.
  - unfold set_lensmap_from_ray.
    rewrite ray_to_plate_index_single by reflexivity.
    cbn [Z.ltb Z.compare].
    assert (E : ray_to_plate_uv (inverse_world ahead_inverse) 0 (Vec3 0 0 1)
                = (true, 0.5, 0.5)).
    { unfold ray_to_plate_uv. cbn -[Rleb tan M_PI].
      unfold DotProduct. cbn [c0 c1 c2].
      rewrite front_plate_dist.
      replace (1 * 0 + 0 * 0 + 0 * 1) with 0 by ring.
      replace (0 * 0 + 1 * 0 + 0 * 1) with 0 by ring.
      replace (0 * 0 + 0 * 0 + 1 * 1) with 1 by ring.
      replace (0 / 1 * (1 / 2) + 0.5) with 0.5 by field.
      replace (- 0 / 1 * (1 / 2) + 0.5) with 0.5 by field.
      rewrite !Rleb_true by lra. reflexivity. }
    rewrite E. cbn [negb].
    unfold set_lensmap_from_plate_uv.
    rewrite set_lensmap_from_plate_px.
    change (platesize (globe (inverse_world ahead_inverse))) with 3%Z.
    rewrite (double_to_int_pos (0.5 * IZR 3) 1) by lra.
    vm_compute. reflexivity.
Qed.

End Lens.

(* ================================================================== *)
(** * The statements at concrete states *)

(** C10 at [slicing_world]: a write left of the viewport changes
    nothing; a write at the lens pixel (1,1) stores the texel's address. *)
Lemma set_lensmap_from_plate_guard_witness :
  set_lensmap_from_plate slicing_world (-1) 0 0 0 0 = slicing_world /\
  pixels (lens (set_lensmap_from_plate slicing_world 1 1 2 1 0))
  = zset (pixels (lens slicing_world)) (1 + 1 * 3) (Some 5%Z).
Proof.
  split.
  - apply (proj1 (set_lensmap_from_plate_guard slicing_world (-1) 0 0 0 0)).
    left. reflexivity.
  - apply (proj2 (set_lensmap_from_plate_guard slicing_world 1 1 2 1 0));
      simpl; lia.
Defined.

(** C9 at [slicing_world] and the zero ray. *)
Lemma ray_to_plate_index_in_range_witness :
  (0 <= fst (ray_to_plate_index plain_str2number plain_number2integer
               slicing_world (Vec3 0 0 0))
   < numplates (globe slicing_world))%Z.
Proof.
  apply ray_to_plate_index_in_range; [simpl; lia | reflexivity].
Defined.

(** C4 as stated fails: with forward vectors of lengths 4 and 3 and the
    unit ray opposite to them, both dot products are below the initial
    -2, index 0 is returned, and plate 1 has the larger dot product. *)
Lemma ray_to_plate_index_not_argmax :
  globe_plate (lua_refs long_plates_world) = (-1)%Z /\
  fst (ray_to_plate_index plain_str2number plain_number2integer
         long_plates_world (Vec3 0 0 (-1))) = 0%Z /\
  ~ (forall j, (0 <= j < numplates (globe long_plates_world))%Z ->
       plate_dp (plates (globe long_plates_world)) (Vec3 0 0 (-1)) j
       <= plate_dp (plates (globe long_plates_world)) (Vec3 0 0 (-1))
            (fst (ray_to_plate_index plain_str2number plain_number2integer
                    long_plates_world (Vec3 0 0 (-1))))).
Proof.
  assert (E : fst (ray_to_plate_index plain_str2number plain_number2integer
                     long_plates_world (Vec3 0 0 (-1))) = 0%Z).
  { unfold ray_to_plate_index, long_plates_world. simpl.
    rewrite !Rltb_false by (unfold DotProduct; simpl; lra). reflexivity. }
  split; [reflexivity | split; [exact E |]].
  rewrite E. intros H. specialize (H 1%Z ltac:(simpl; lia)).
  unfold plate_dp, DotProduct in H. simpl in H. lra.
Qed.

(** C4 (amended) at [slicing_world] with the ray straight ahead, and at
    [scripted_plate_world]. *)
Lemma ray_to_plate_index_choice_witness :
  (0 <= fst (ray_to_plate_index plain_str2number plain_number2integer
               slicing_world (Vec3 0 0 1))
   < numplates (globe slicing_world))%Z /\
  fst (ray_to_plate_index plain_str2number plain_number2integer
         scripted_plate_world (Vec3 0 0 1))
  = plain_number2integer 0.
Proof.
  split.
  - destruct (ray_to_plate_index_choice plain_str2number plain_number2integer
                slicing_world (Vec3 0 0 1)) as [H _].
    destruct (H eq_refl) as [H1 _].
    apply H1. exists 0%Z. split; [simpl; lia |].
    unfold plate_dp, DotProduct. simpl. lra.
  - destruct (ray_to_plate_index_choice plain_str2number plain_number2integer
                scripted_plate_world (Vec3 0 0 1)) as [_ H].
    apply H. discriminate.
Defined.

(** C3 at the front plate and the centre of the texture. *)
Lemma plate_uv_roundtrip_witness :
  ray_to_plate_uv slicing_world 0 (plate_uv_to_ray slicing_world 0 (1 / 2) (1 / 2))
  = (true, 1 / 2, 1 / 2).
Proof.
  apply plate_uv_roundtrip; [| lra | lra].
  change (plate_frame front_plate).
  pose proof PI_RGT_0.
  constructor; unfold front_plate, DotProduct, CrossProduct; simpl;
    try lra; try (unfold M_PI; lra); try reflexivity.
  f_equal; lra.
Defined.



(** C8 at latitude 0 and longitude 0. *)
Lemma latlon_to_ray_unit_and_roundtrip_witness :
  ray_to_latlon (latlon_to_ray 0 0) = (0, 0).
Proof.
  apply (proj2 (latlon_to_ray_unit_and_roundtrip 0 0));
    pose proof PI_RGT_0; split; lra.
Defined.

(* ------------------------------------------------------------------ *)
(** ** The further properties at concrete states *)

(** X1 on the grey ramp, for the colour (10, 20, 30). *)
Lemma find_closest_pal_index_nearest_witness :
  (0 <= find_closest_pal_index grey_basepal 10 20 30 < 256)%Z.
Proof.
  apply (find_closest_pal_index_nearest grey_basepal 10 20 30);
    [vm_compute; reflexivity | lia | lia | lia].
Defined.

(** X2 on the grey ramp, for its colour 5. *)
Lemma find_closest_pal_index_exact_witness :
  pal_color grey_basepal (find_closest_pal_index grey_basepal 5 5 5)
  = (5, 5, 5)%Z.
Proof.
  apply (find_closest_pal_index_exact grey_basepal 5 5 5 5);
    [vm_compute; reflexivity | lia | reflexivity].
Defined.

(** X3 on the grey ramp: the colour 10 in the palette of the plate 1. *)
Lemma create_palmap_nearest_tinted_witness :
  exists r g b,
    tinted_color grey_basepal 1 10 = (r, g, b) /\
    (0 <= r <= 255)%Z /\ (0 <= g <= 255)%Z /\ (0 <= b <= 255)%Z /\
    zget (zget (create_palmap grey_basepal zero_palettes) 1 []) 10 0%Z
    = find_closest_pal_index grey_basepal r g b /\
    (0 <= zget (zget (create_palmap grey_basepal zero_palettes) 1 []) 10 0
     < 256)%Z /\
    (forall k, (0 <= k < 256)%Z ->
       (pal_dist grey_basepal r g b
          (zget (zget (create_palmap grey_basepal zero_palettes) 1 []) 10 0)
        <= pal_dist grey_basepal r g b k)%Z).
Proof.
  apply (create_palmap_nearest_tinted grey_basepal zero_palettes 1 10);
    [vm_compute; reflexivity | vm_compute; reflexivity | lia | lia].
Defined.

(** X5 at the unit ray that looks up. *)
Lemma ray_to_latlon_roundtrip_witness :
  latlon_to_ray (fst (ray_to_latlon (Vec3 0 1 0)))
    (snd (ray_to_latlon (Vec3 0 1 0))) = Vec3 0 1 0.
Proof.
  apply (ray_to_latlon_roundtrip (Vec3 0 1 0)).
  unfold DotProduct. simpl. lra.
Defined.

(** X7 on [wide_lens_world]: the image of 4 by 2 units on 400 by 300
    pixels is fitted by its width. *)
Lemma determine_lens_scale_verdict_witness :
  let w := after_fov_command L_Fit wide_lens_world no_fov_request in
  let r := determine_lens_scale plain_str2number 0 0 w in
  (exists s, snd r = with_scale w s) /\
  (fst r = 1%Z /\ 0 < scale (lens (snd r))
   \/ fst r = 0%Z /\ scale (lens (snd r)) <= 0).
Proof.
  apply (determine_lens_scale_verdict plain_str2number 0 0
           (after_fov_command L_Fit wide_lens_world no_fov_request)).
  - simpl. lia.
  - simpl. lia.
  - simpl. intros H. discriminate H.
Defined.

Lemma fit_command_scale_witness :
  fst (determine_lens_scale plain_str2number 0 0
         (after_fov_command L_Fit wide_lens_world no_fov_request)) = 1%Z.
Proof.
  apply (fit_command_scale plain_str2number 0 0 wide_lens_world no_fov_request);
    simpl; try lra; lia.
Defined.

(** X8 on [wide_lens_world]. *)
Lemma hfit_vfit_command_scale_witness :
  let r := determine_lens_scale plain_str2number 0 0
             (after_fov_command L_HFit wide_lens_world no_fov_request) in
  scale (lens (snd r)) * IZR (width_px (lens wide_lens_world))
  = width (lens wide_lens_world).
Proof.
  apply (hfit_vfit_command_scale plain_str2number 0 0 wide_lens_world no_fov_request);
    simpl; try lra; lia.
Defined.

(** X9 on [limited_lens_world], whose lens allows 120 degrees across:
    [hfov 150]. *)
Lemma fov_command_limits_witness :
  fst (determine_lens_scale plain_str2number 0 0
         (after_fov_command (L_HFov 2 150) limited_lens_world no_fov_request))
  = 0%Z.
Proof.
  apply (proj1 (fov_command_limits plain_str2number 0 0 limited_lens_world
                  no_fov_request 150)).
  simpl. unfold M_PI. pose proof PI_RGT_0. lra.
Defined.

(** X10 at the front plate of globes/cube.lua. *)
Lemma load_plate_orthonormal_frame_witness :
  fst (load_plate plain_str2number
         (plate_entry (Vec3 0 0 1) (Vec3 0 1 0) 90) default_plate) = PlateOk.
Proof.
  apply (load_plate_orthonormal_frame plain_str2number
           (Vec3 0 0 1) (Vec3 0 1 0) 90 default_plate);
    unfold DotProduct; simpl; lra.
Defined.

(** X11 at the front plate of [slicing_world], for a sample outside the
    unit square. *)
Lemma plate_uv_to_ray_unit_front_witness :
  VectorLength (plate_uv_to_ray slicing_world 0 (-1) 2) = 1.
Proof.
  apply (plate_uv_to_ray_unit_front slicing_world 0 (-1) 2).
  change (plate_frame front_plate).
  pose proof PI_RGT_0.
  constructor; unfold front_plate, DotProduct, CrossProduct; simpl;
    try lra; try (unfold M_PI; lra); try reflexivity.
  f_equal; lra.
Defined.

(** X12 at the front plate of [slicing_world]: the ray straight behind
    the viewer is read as the centre of the plate. *)
Lemma ray_to_plate_uv_opposite_witness :
  ray_to_plate_uv slicing_world 0 (Vec3 (- 0) (- 0) (- 1))
  = ray_to_plate_uv slicing_world 0 (Vec3 0 0 1).
Proof.
  apply (ray_to_plate_uv_opposite slicing_world 0 (Vec3 0 0 1)).
  unfold DotProduct. simpl. lra.
Defined.

(** X13 at an inverse build on the viewport of 3 by 3 pixels, from the
    cleared lens map, with a script that writes every pixel. *)
Lemma resume_lensmap_inverse_in_globe_witness :
  lens_map_in_globe
    (snd (resume_lensmap_inverse plain_str2number plain_number2integer 3
            (inverse_world ahead_inverse))).
Proof.
  apply (resume_lensmap_inverse_in_globe plain_str2number plain_number2integer
           3 (inverse_world ahead_inverse));
    [reflexivity | simpl; lia | apply blank_pixels_in_globe].
Defined.

(** X14 at the forward build of [slicing_world], from the cleared lens
    map. *)
Lemma resume_lensmap_forward_in_globe_witness :
  lens_map_in_globe
    (snd (resume_lensmap_forward plain_str2number plain_number2integer 3
            (forward_state_init (repeat 0%Z 8) (repeat 0%Z 8) slicing_world))).
Proof.
  apply (resume_lensmap_forward_in_globe plain_str2number plain_number2integer
           3 (forward_state_init (repeat 0%Z 8) (repeat 0%Z 8) slicing_world));
    [simpl; lia | apply blank_pixels_in_globe].
Defined.

(** X15 at the inverse build on the viewport of 3 by 3 pixels, with a
    script that writes every pixel: a frame of one row, then a frame
    that covers the rest. *)
Lemma inverse_build_resumes_exactly_witness :
  resume_frames (resume_lensmap_inverse plain_str2number plain_number2integer)
    ([1%nat] ++ [3%nat]) (inverse_world ahead_inverse)
  = resume_lensmap_inverse plain_str2number plain_number2integer 3
      (inverse_world ahead_inverse).
Proof.
  apply (inverse_build_resumes_exactly plain_str2number plain_number2integer
           [1%nat] 3 (inverse_world ahead_inverse)).
  simpl. lia.
Defined.

(** X16 at the same build, resumed with the cursor on the middle row:
    the call writes the pixels of that row and leaves the top row, done
    by the call before, alone. *)
Lemma resume_lensmap_inverse_rows_witness :
  let w := with_inverse_ly (inverse_world ahead_inverse) 1 in
  zget (pixels (lens (snd (resume_lensmap_inverse plain_str2number
                             plain_number2integer 1 w))))
    (1 + 2 * width_px (lens w)) None
  = zget (pixels (lens w)) (1 + 2 * width_px (lens w)) None.
Proof.
  apply (resume_lensmap_inverse_rows plain_str2number plain_number2integer
           1 (with_inverse_ly (inverse_world ahead_inverse) 1) 1 2).
  - simpl. lia.
  - left. simpl. lia.
Defined.

(** X17 at [slicing_world]: the index -0.5 means the plate 0. *)
Lemma lua_plate_to_ray_index_witness :
  (0 <= double_to_int (-0.5) < numplates (globe slicing_world))%Z.
Proof.
  apply (lua_plate_to_ray_index plain_str2number slicing_world (-0.5) 0.5 0.5);
    simpl; [lia | lra].
Defined.

(** X18 at a lens script that defines [lens_forward] alone, loaded over
    [inverse_world], whose lens had an inverse map: the inverse
    reference is forgotten. *)
Lemma lua_lens_load_clean_slate_witness :
  lens_inverse
    (lua_refs (snd (lua_lens_load plain_str2number plain_number2str
                      (Some forward_only_lens)
                      (inverse_world (fun _ => [LNil]))))) = (-1)%Z.
Proof.
  apply (lua_lens_load_clean_slate plain_str2number plain_number2str
           forward_only_lens (inverse_world (fun _ => [LNil]))
           (snd (lua_lens_load plain_str2number plain_number2str
                   (Some forward_only_lens) (inverse_world (fun _ => [LNil]))))
           (lua_setglobal
              (globals (lua (lua_lens_clear (inverse_world (fun _ => [LNil])))))
              "lens_forward" column_forward));
    reflexivity.
Defined.



Lemma drawQuad_in_its_box_witness :
  let b := quad_box (0, 1)%Z (2, 1)%Z (0, 1)%Z (2, 1)%Z in
  (fst (fst b) <= 1 <= snd (fst b))%Z /\
  (fst (snd b) <= 1 <= snd (snd b))%Z /\
  (snd (fst b) - fst (fst b) <= maxdiff)%Z /\
  (snd (snd b) - fst (snd b) <= maxdiff)%Z.
Proof.
  apply (drawQuad_in_its_box slicing_world
           (0, 1)%Z (2, 1)%Z (0, 1)%Z (2, 1)%Z 0%Z 0%Z 0%Z 1%Z 1%Z).
  - unfold corner_in_range. simpl. lia.
  - unfold corner_in_range. simpl. lia.
  - unfold corner_in_range. simpl. lia.
  - unfold corner_in_range. simpl. lia.
  - cbn. lia.
  - rewrite (proj2 (drawQuad_px slicing_world
                      (0, 1)%Z (2, 1)%Z (0, 1)%Z (2, 1)%Z 0%Z 0%Z 0%Z)).
    vm_compute. discriminate.
Defined.

Lemma lua_lens_inverse_unit_ray_witness :
  let w := inverse_world (fun _ => [LNumber 0; LNumber 0; LNumber 2]) in
  let v := Vec3 (lua_tonumber plain_str2number (LNumber 0))
             (lua_tonumber plain_str2number (LNumber 0))
             (lua_tonumber plain_str2number (LNumber 2)) in
  let r := lua_lens_inverse plain_str2number w 0 0 (Vec3 0 0 0) in
  fst r = 1%Z /\
  VectorLength (snd r) = 1 /\
  0 < 1 / VectorLength v /\
  snd r = Vec3 (1 / VectorLength v * c0 v) (1 / VectorLength v * c1 v)
            (1 / VectorLength v * c2 v).
Proof.
  apply (lua_lens_inverse_unit_ray plain_str2number
           (inverse_world (fun _ => [LNumber 0; LNumber 0; LNumber 2]))
           0 0 (Vec3 0 0 0) (LNumber 0) (LNumber 0) (LNumber 2)).
  - reflexivity.
  - reflexivity.
  - reflexivity.
  - reflexivity.
  - simpl. intros H. injection H as H. lra.
Defined.

Lemma plate_camera_isometry_witness :
  let f := fst (fst (plate_camera front_plate (Vec3 0 0 1) (Vec3 1 0 0)
                       (Vec3 0 1 0))) in
  let r := snd (fst (plate_camera front_plate (Vec3 0 0 1) (Vec3 1 0 0)
                       (Vec3 0 1 0))) in
  let u := snd (plate_camera front_plate (Vec3 0 0 1) (Vec3 1 0 0)
                  (Vec3 0 1 0)) in
  DotProduct f f = DotProduct (forward front_plate) (forward front_plate) /\
  DotProduct r r = DotProduct (right front_plate) (right front_plate) /\
  DotProduct u u = DotProduct (up front_plate) (up front_plate) /\
  DotProduct f r = DotProduct (forward front_plate) (right front_plate) /\
  DotProduct f u = DotProduct (forward front_plate) (up front_plate) /\
  DotProduct r u = DotProduct (right front_plate) (up front_plate).
Proof.
  apply (plate_camera_isometry front_plate (Vec3 0 0 1) (Vec3 1 0 0)
           (Vec3 0 1 0)); unfold DotProduct; simpl; lra.
Defined.

